(** * SMS retry scheduler: a shallow embedding and its verified properties

    The development follows the Python sources file by file:
    - [models.py]      : [MessageStatus], [Message], [MessageState]
    - [persistence.py] : [S3PersistenceLayer] over a model of the S3 client
    - [scheduler.py]   : [SMSScheduler]
    - [api.py]         : the handlers [send_single] and [send_bulk]

    Conventions of the embedding.
    - Timestamps and delays are Python floats; they are modelled by exact
      rationals ([Q]), so [created_at + delay] is [Qplus] and comparisons are
      the comparisons of [Q].  Not-a-number, the infinities and rounding are
      outside the model; so every float of the model is [==] to itself, and
      two values that are equal here are [==] in Python.
    - A Python value that travels through [json] is a [pyvalue]; a JSON text is
      modelled by the document it denotes ([json]), the conversion tables of
      [json.dumps] and [json.loads] being the ones of the Python library.
    - The object store, the two clocks and the send function are the
      environment: they live in a [World] that every operation threads.
    - Logging has no effect on the state and is left out. *)

From Stdlib Require Import QArith Lqa ZArith String List Bool Sorted.
From Stdlib Require OrderedTypeEx.
From stdpp Require Import gmap strings list fin_maps.

Local Open Scope string_scope.

(* ===================================================================== *)
(** * Python values and JSON documents                                    *)
(* ===================================================================== *)

(** The Python values that can occur in [Message.metadata] and in a decoded
    JSON text.  A [dict] is kept as its items in insertion order; its keys
    are strings, as the data model has them. *)
#[local] Unset Elimination Schemes.

Inductive pyvalue : Type :=
| PyNone
| PyBool (b : bool)
| PyInt (z : Z)
| PyFloat (q : Q)
| PyStr (s : string)
| PyList (items : list pyvalue)
| PyTuple (items : list pyvalue)
| PyDict (items : list (string * pyvalue)).

(** A JSON document.  The text distinguishes integer literals from literals
    with a fraction or exponent, and [json.loads] reads them as [int] and
    [float]. *)
Inductive json : Type :=
| JNull
| JBool (b : bool)
| JInt (z : Z)
| JFloat (q : Q)
| JStr (s : string)
| JArr (items : list json)
| JObj (members : list (string * json)).

#[local] Set Elimination Schemes.

Section pyvalue_induction.
Variable P : pyvalue → Prop.
Hypothesis HNone : P PyNone.
Hypothesis HBool : ∀ b, P (PyBool b).
Hypothesis HInt : ∀ z, P (PyInt z).
Hypothesis HFloat : ∀ q, P (PyFloat q).
Hypothesis HStr : ∀ s, P (PyStr s).
Hypothesis HList : ∀ l, Forall P l → P (PyList l).
Hypothesis HTuple : ∀ l, Forall P l → P (PyTuple l).
Hypothesis HDict : ∀ d, Forall (λ kv, P kv.2) d → P (PyDict d).

Fixpoint pyvalue_nested_ind (v : pyvalue) : P v :=
  let fix on_list (l : list pyvalue) : Forall P l :=
    match l with
    | [] => Forall_nil_2 P
    | x :: l' => Forall_cons_2 P x l' (pyvalue_nested_ind x) (on_list l')
    end in
  let fix on_items (d : list (string * pyvalue)) : Forall (λ kv, P kv.2) d :=
    match d with
    | [] => Forall_nil_2 _
    | (k, x) :: d' =>
        Forall_cons_2 (λ kv, P kv.2) (k, x) d' (pyvalue_nested_ind x) (on_items d')
    end in
  match v with
  | PyNone => HNone
  | PyBool b => HBool b
  | PyInt z => HInt z
  | PyFloat q => HFloat q
  | PyStr s => HStr s
  | PyList l => HList l (on_list l)
  | PyTuple l => HTuple l (on_list l)
  | PyDict d => HDict d (on_items d)
  end.
End pyvalue_induction.

(** [d[key]] / [d.get(key)] on the items of a dict: the value of the first
    item with that key. *)
Fixpoint dict_get (key : string) (d : list (string * pyvalue)) : option pyvalue :=
  match d with
  | [] => None
  | (k, v) :: d' => if String.eqb key k then Some v else dict_get key d'
  end.

(** [d[key] = v]: an existing key keeps its place and takes the new value, a
    new key goes to the end. *)
Fixpoint dict_set (key : string) (v : pyvalue) (d : list (string * pyvalue))
  : list (string * pyvalue) :=
  match d with
  | [] => [(key, v)]
  | (k, x) :: d' =>
      if String.eqb key k then (k, v) :: d' else (k, x) :: dict_set key v d'
  end.

(** The dict that [json.loads] builds from the members of an object, left to
    right (a repeated member name overwrites). *)
Definition dict_of_pairs (kvs : list (string * pyvalue)) : list (string * pyvalue) :=
  fold_left (λ d kv, dict_set kv.1 kv.2 d) kvs [].

(** [json.dumps]: lists and tuples both become arrays. *)
Fixpoint dumps (v : pyvalue) : json :=
  match v with
  | PyNone => JNull
  | PyBool b => JBool b
  | PyInt z => JInt z
  | PyFloat q => JFloat q
  | PyStr s => JStr s
  | PyList l => JArr (map dumps l)
  | PyTuple l => JArr (map dumps l)
  | PyDict d => JObj (map (λ kv, let '(k, x) := kv in (k, dumps x)) d)
  end.

(** [json.loads]: arrays become lists, objects become dicts. *)
Fixpoint loads (j : json) : pyvalue :=
  match j with
  | JNull => PyNone
  | JBool b => PyBool b
  | JInt z => PyInt z
  | JFloat q => PyFloat q
  | JStr s => PyStr s
  | JArr l => PyList (map loads l)
  | JObj d => PyDict (dict_of_pairs (map (λ kv, let '(k, x) := kv in (k, loads x)) d))
  end.

(** The keys of a list of items are pairwise different. *)
Fixpoint distinct_keys (d : list (string * pyvalue)) : bool :=
  match d with
  | [] => true
  | (k, _) :: d' =>
      match dict_get k d' with
      | Some _ => false
      | None => distinct_keys d'
      end
  end.

(** The values that a JSON text denotes exactly: no tuple anywhere, and every
    dict has pairwise different keys (which every Python dict has). *)
Fixpoint json_exact (v : pyvalue) : bool :=
  match v with
  | PyNone | PyBool _ | PyInt _ | PyFloat _ | PyStr _ => true
  | PyList l => forallb json_exact l
  | PyTuple _ => false
  | PyDict d =>
      distinct_keys d && forallb (λ kv, let '(_, x) := kv in json_exact x) d
  end.

(** The outcome of decoding a record.  [DecodeRaises] is a Python exception
    ([KeyError], [TypeError], [ValueError]).  [IllTyped] is a decoding that
    Python completes, the dataclasses not checking their field types, but
    whose fields do not have the declared types: such a record has no
    counterpart among the typed records below. *)
Inductive decoded (A : Type) : Type :=
| Decoded (a : A)
| DecodeRaises
| IllTyped.
Arguments Decoded {A} a.
Arguments DecodeRaises {A}.
Arguments IllTyped {A}.

(* ===================================================================== *)
(** * models.py                                                           *)
(* ===================================================================== *)

Inductive MessageStatus : Type := PENDING | SUCCESS | FAILED_MAX_RETRIES.

#[global] Instance MessageStatus_eq_dec : EqDecision MessageStatus.
Proof. solve_decision. Defined.

Module MessageStatus.
(** [status.value] *)
Definition value (s : MessageStatus) : string :=
  match s with
  | PENDING => "PENDING"
  | SUCCESS => "SUCCESS"
  | FAILED_MAX_RETRIES => "FAILED_MAX_RETRIES"
  end.

(** [MessageStatus(v)]: the member with that value; [None] is the
    [ValueError] of a value that no member has. *)
Definition of_value (v : pyvalue) : option MessageStatus :=
  match v with
  | PyStr s =>
      if String.eqb s "PENDING" then Some PENDING
      else if String.eqb s "SUCCESS" then Some SUCCESS
      else if String.eqb s "FAILED_MAX_RETRIES" then Some FAILED_MAX_RETRIES
      else None
  | _ => None
  end.
End MessageStatus.

Module Message.
Record t : Type := mk {
  message_id : string;
  content : string;
  metadata : pyvalue        (* Optional[dict]; [PyNone] is the default *)
}.

(** [asdict(self)]: the fields by name; the copy that [asdict] makes of the
    metadata is the same value. *)
Definition to_dict (self : t) : pyvalue :=
  PyDict [ ("message_id", PyStr (message_id self));
           ("content", PyStr (content self));
           ("metadata", metadata self) ].

(** Every key of [data] is the name of a field (the constructor raises
    [TypeError] on any other keyword). *)
Definition known_field (kv : string * pyvalue) : bool :=
  String.eqb kv.1 "message_id" || String.eqb kv.1 "content"
  || String.eqb kv.1 "metadata".

(** The constructor called with the items of [data] as its keyword
    arguments. *)
Definition from_dict (data : pyvalue) : decoded t :=
  match data with
  | PyDict d =>
      if negb (forallb known_field d) then DecodeRaises
      else
        match dict_get "message_id" d, dict_get "content" d with
        | Some mid, Some c =>
            match mid, c with
            | PyStr mid, PyStr c =>
                Decoded {| message_id := mid;
                           content := c;
                           metadata := default PyNone (dict_get "metadata" d) |}
            | _, _ => IllTyped
            end
        | _, _ => DecodeRaises   (* a required argument is missing *)
        end
  | _ => DecodeRaises            (* keyword unpacking needs a mapping *)
  end.
End Message.

Module MessageState.
Record t : Type := mk {
  message_id : string;
  message : Message.t;
  attempt_count : nat;      (* int, 0-6 *)
  next_retry_at : Q;        (* epoch timestamp *)
  status : MessageStatus;
  created_at : Q;
  updated_at : Q
}.

(** Retry schedule in seconds from arrival. *)
Definition RETRY_SCHEDULE : list Q := [0; 1 # 2; 2; 4; 8; 16]%Q.
Definition MAX_ATTEMPTS : nat := 6.

Definition to_dict (self : t) : pyvalue :=
  PyDict [ ("message_id", PyStr (message_id self));
           ("message", Message.to_dict (message self));
           ("attempt_count", PyInt (Z.of_nat (attempt_count self)));
           ("next_retry_at", PyFloat (next_retry_at self));
           ("status", PyStr (MessageStatus.value (status self)));
           ("created_at", PyFloat (created_at self));
           ("updated_at", PyFloat (updated_at self)) ].

(** The typed reading of a decoded field. *)
Definition as_str (v : pyvalue) : option string :=
  match v with PyStr s => Some s | _ => None end.

Definition as_count (v : pyvalue) : option nat :=
  match v with
  | PyInt z => if (0 <=? z)%Z then Some (Z.to_nat z) else None
  | _ => None
  end.

Definition as_float (v : pyvalue) : option Q :=
  match v with
  | PyFloat q => Some q
  | PyInt z => Some (inject_Z z)
  | _ => None
  end.

(** [MessageState.from_dict]: every [data[...]] lookup, the decoding of the
    embedded message and [MessageStatus(...)] can raise; nothing checks the
    types of the other fields. *)
Definition from_dict (data : pyvalue) : decoded t :=
  match data with
  | PyDict d =>
      match dict_get "message_id" d, dict_get "message" d,
            dict_get "attempt_count" d, dict_get "next_retry_at" d,
            dict_get "status" d, dict_get "created_at" d,
            dict_get "updated_at" d with
      | Some mid, Some msg, Some ac, Some nra, Some stv, Some ca, Some ua =>
          match Message.from_dict msg, MessageStatus.of_value stv with
          | DecodeRaises, _ => DecodeRaises
          | _, None => DecodeRaises
          | IllTyped, Some _ => IllTyped
          | Decoded m, Some s =>
              match as_str mid, as_count ac, as_float nra, as_float ca,
                    as_float ua with
              | Some mid, Some ac, Some nra, Some ca, Some ua =>
                  Decoded {| message_id := mid; message := m;
                             attempt_count := ac; next_retry_at := nra;
                             status := s; created_at := ca; updated_at := ua |}
              | _, _, _, _, _ => IllTyped
              end
          end
      | _, _, _, _, _, _, _ => DecodeRaises     (* KeyError *)
      end
  | _ => DecodeRaises                            (* not subscriptable by a name *)
  end.

(** [json.dumps(self.to_dict(), indent=2)] *)
Definition to_json (self : t) : json := dumps (to_dict self).

(** [cls.from_dict(json.loads(json_str))] *)
Definition from_json (json_str : json) : decoded t := from_dict (loads json_str).

(** Calculate next retry time based on attempt count; [None] when the
    attempts are used up. *)
Definition calculate_next_retry_time (self : t) : option Q :=
  if (MAX_ATTEMPTS <=? attempt_count self)%nat then None
  else Some (created_at self + nth (attempt_count self) RETRY_SCHEDULE 0)%Q.

(** Check if message is due for retry. *)
Definition is_due (self : t) (current_time : Q) : bool :=
  Qle_bool (next_retry_at self) current_time
  && bool_decide (status self = PENDING).

(** Field assignments, [state.f = v]. *)
Definition set_attempt_count (n : nat) (self : t) : t :=
  mk (message_id self) (message self) n (next_retry_at self) (status self)
     (created_at self) (updated_at self).
Definition set_next_retry_at (q : Q) (self : t) : t :=
  mk (message_id self) (message self) (attempt_count self) q (status self)
     (created_at self) (updated_at self).
Definition set_status (s : MessageStatus) (self : t) : t :=
  mk (message_id self) (message self) (attempt_count self) (next_retry_at self) s
     (created_at self) (updated_at self).
Definition set_updated_at (q : Q) (self : t) : t :=
  mk (message_id self) (message self) (attempt_count self) (next_retry_at self)
     (status self) (created_at self) q.
End MessageState.

Arguments MessageState.MAX_ATTEMPTS : simpl never.
Arguments MessageState.RETRY_SCHEDULE : simpl never.

(* ===================================================================== *)
(** * The environment: clocks and the S3 client                           *)
(* ===================================================================== *)

(** One reading of the two clocks the code consults: [time.time()] and
    [datetime.utcnow().isoformat()].  The environment moves the clock between
    calls of the scheduler; the readings of one call are the same instant
    (the lock is held, and sending and storing take no modelled time). *)
Record Clock : Type := {
  time_time : Q;
  utcnow_isoformat : string
}.

(** The bytes of a stored object: a JSON text, or bytes that [decode] or
    [json.loads] reject. *)
Inductive body : Type :=
| Garbled
| JsonText (j : json).

Record S3Object : Type := {
  Key : string;
  Body : body;
  LastModified : Q
}.

Inductive S3Request : Type :=
| PutObject (key : string) (b : body)
| GetObject (key : string)
| DeleteObject (key : string)
| ListObjectsV2 (prefix : string) (max_keys : option nat).

(** The bucket as the service lists it (ascending key order, one object per
    key), the requests made so far, and the script of the service's
    failures: each request consumes one flag, [true] makes it raise. *)
Record S3 : Type := {
  bucket : list S3Object;
  faults : list bool;
  requests : list S3Request
}.

Module s3_client.
(** Record a request and tell whether the service fails it. *)
Definition request (r : S3Request) (s : S3) : bool * S3 :=
  (hd false (faults s),
   {| bucket := bucket s; faults := tl (faults s); requests := requests s ++ [r] |}).

Definition with_bucket (b : list S3Object) (s : S3) : S3 :=
  {| bucket := b; faults := faults s; requests := requests s |}.

(** Store an object at its place in key order, replacing the object that
    has the same key. *)
Fixpoint bucket_put (o : S3Object) (b : list S3Object) : list S3Object :=
  match b with
  | [] => [o]
  | o' :: b' =>
      match String.compare (Key o) (Key o') with
      | Lt => o :: b
      | Eq => o :: b'
      | Gt => o' :: bucket_put o b'
      end
  end.

Definition bucket_get (key : string) (b : list S3Object) : option S3Object :=
  find (λ o, String.eqb (Key o) key) b.

Definition bucket_delete (key : string) (b : list S3Object) : list S3Object :=
  filter (λ o, Key o ≠ key) b.

Definition under_prefix (prefix : string) (b : list S3Object) : list S3Object :=
  filter (λ o, String.prefix prefix (Key o) = true) b.

(** [put_object]: [true] when the call returns, [false] when it raises. *)
Definition put_object (key : string) (b : body) (now : Q) (s : S3) : bool * S3 :=
  let '(fault, s1) := request (PutObject key b) s in
  if fault then (false, s1)
  else (true, with_bucket
                (bucket_put {| Key := key; Body := b; LastModified := now |} (bucket s1))
                s1).

(** [get_object(...)['Body']]: [None] when the call raises, which it also
    does for a key that is not there. *)
Definition get_object (key : string) (s : S3) : option body * S3 :=
  let '(fault, s1) := request (GetObject key) s in
  if fault then (None, s1)
  else (Body <$> bucket_get key (bucket s1), s1).

(** [delete_object]: deleting a key that is not there is no error. *)
Definition delete_object (key : string) (s : S3) : bool * S3 :=
  let '(fault, s1) := request (DeleteObject key) s in
  if fault then (false, s1)
  else (true, with_bucket (bucket_delete key (bucket s1)) s1).

(** The service returns at most 1000 keys per listing request. *)
Definition page_size : nat := 1000.

(** [list_objects_v2(Prefix, MaxKeys)]: the first [MaxKeys] objects under
    the prefix, in key order.  The outer [None] is a raised exception; the
    inner option is the ['Contents'] entry of the response, which is absent
    when nothing was found. *)
Definition list_objects_v2 (prefix : string) (max_keys : nat) (s : S3)
  : option (option (list S3Object)) * S3 :=
  let '(fault, s1) := request (ListObjectsV2 prefix (Some max_keys)) s in
  if fault then (None, s1)
  else
    match take (Nat.min max_keys page_size) (under_prefix prefix (bucket s1)) with
    | [] => (Some None, s1)
    | contents => (Some (Some contents), s1)
    end.

Fixpoint chunks (fuel : nat) (l : list S3Object) : list (list S3Object) :=
  match fuel, l with
  | S fuel', _ :: _ => take page_size l :: chunks fuel' (drop page_size l)
  | _, _ => []
  end.

(** The pages that [get_paginator('list_objects_v2').paginate(Prefix)]
    walks through: the whole listing, [page_size] objects per page; an
    empty listing is one page without ['Contents'], modelled by [[]]. *)
Definition paginate (prefix : string) (s : S3) : list (list S3Object) :=
  match under_prefix prefix (bucket s) with
  | [] => [[]]
  | l => chunks (length l) l
  end.
End s3_client.

(** [sorted(objects, key=lambda x: x['LastModified'], reverse=True)]: a
    stable sort, so objects modified at the same instant keep their order. *)
Fixpoint insert_by_last_modified (o : S3Object) (l : list S3Object) : list S3Object :=
  match l with
  | [] => [o]
  | o' :: l' =>
      if Qle_bool (LastModified o') (LastModified o) then o :: l
      else o' :: insert_by_last_modified o l'
  end.

Definition sorted_last_modified_desc (l : list S3Object) : list S3Object :=
  foldr insert_by_last_modified [] l.

(* ===================================================================== *)
(** * config.py                                                           *)
(* ===================================================================== *)

Record Config : Type := {
  S3_BUCKET : string;
  S3_STATE_PREFIX : string;
  S3_SUCCESS_PREFIX : string;
  S3_FAILED_PREFIX : string
}.

(** The prefixes when the environment variables are not set. *)
Definition default_config (bucket_name : string) : Config :=
  {| S3_BUCKET := bucket_name;
     S3_STATE_PREFIX := "state";
     S3_SUCCESS_PREFIX := "success";
     S3_FAILED_PREFIX := "failed" |}.

(* ===================================================================== *)
(** * persistence.py                                                      *)
(* ===================================================================== *)

Module S3PersistenceLayer.
Section with_config.
Variable config : Config.

Definition state_key (message_id : string) : string :=
  S3_STATE_PREFIX config ++ "/" ++ message_id ++ ".json".

Definition log_key (prefix timestamp message_id : string) : string :=
  prefix ++ "/" ++ timestamp ++ "_" ++ message_id ++ ".json".

(** Persist message state to S3.  [false]: the exception is raised again
    to the caller. *)
Definition save_message_state (state : MessageState.t) (clock : Clock) (s : S3)
  : bool * S3 :=
  s3_client.put_object (state_key (MessageState.message_id state))
    (JsonText (MessageState.to_json state)) (time_time clock) s.

(** Load message state from S3; every failure is [None].  The outer option
    is [None] for a record outside the typed model. *)
Definition load_message_state (message_id : string) (s : S3)
  : option (option MessageState.t) * S3 :=
  let '(response, s1) := s3_client.get_object (state_key message_id) s in
  match response with
  | Some (JsonText j) =>
      match MessageState.from_json j with
      | Decoded state => (Some (Some state), s1)
      | DecodeRaises => (Some None, s1)
      | IllTyped => (None, s1)
      end
  | _ => (Some None, s1)
  end.

(** The inner loop of [load_all_pending_states] over the objects of one
    page.  A record that cannot be fetched or decoded is skipped; [None]
    is returned for a record outside the typed model. *)
Fixpoint load_page_objects (objs : list S3Object) (states : list MessageState.t)
    (s : S3) : option (list MessageState.t * S3) :=
  match objs with
  | [] => Some (states, s)
  | obj :: objs' =>
      let '(response, s1) := s3_client.get_object (Key obj) s in
      match response with
      | Some (JsonText j) =>
          match MessageState.from_json j with
          | Decoded state =>
              if bool_decide (MessageState.status state = PENDING)
              then load_page_objects objs' (states ++ [state]) s1
              else load_page_objects objs' states s1
          | DecodeRaises => load_page_objects objs' states s1
          | IllTyped => None
          end
      | _ => load_page_objects objs' states s1
      end
  end.

(** The outer loop: fetching a page can fail, which abandons the whole
    enumeration with the empty list. *)
Fixpoint load_pages (pages : list (list S3Object)) (states : list MessageState.t)
    (s : S3) : option (list MessageState.t * S3) :=
  match pages with
  | [] => Some (states, s)
  | page :: pages' =>
      let '(fault, s1) :=
        s3_client.request (ListObjectsV2 (S3_STATE_PREFIX config) None) s in
      if fault then Some ([], s1)
      else
        match page with
        | [] => load_pages pages' states s1
        | _ :: _ =>
            match load_page_objects page states s1 with
            | Some (states', s2) => load_pages pages' states' s2
            | None => None
            end
        end
  end.

(** Load all pending message states from S3 (for recovery). *)
Definition load_all_pending_states (s : S3) : option (list MessageState.t * S3) :=
  load_pages (s3_client.paginate (S3_STATE_PREFIX config) s) [] s.

(** Delete message state from S3; a failure is logged and swallowed. *)
Definition _delete_state (message_id : string) (s : S3) : S3 :=
  (s3_client.delete_object (state_key message_id) s).2.

Definition mark_with (prefix : string) (message_id : string)
    (state : MessageState.t) (clock : Clock) (s : S3) : bool * S3 :=
  let timestamp := utcnow_isoformat clock in
  let key := log_key prefix timestamp message_id in
  let '(ok, s1) :=
    s3_client.put_object key (JsonText (MessageState.to_json state))
      (time_time clock) s in
  if ok then (true, _delete_state message_id s1)
  else (false, s1).

(** Mark message as successfully sent: write to the success log, then
    delete from state. *)
Definition mark_success := mark_with (S3_SUCCESS_PREFIX config).

(** Mark message as failed after max retries. *)
Definition mark_failed := mark_with (S3_FAILED_PREFIX config).

(** The loop of [_get_recent_from_prefix] that fetches and parses. *)
Fixpoint fetch_documents (objects : list S3Object) (results : list pyvalue) (s : S3)
  : list pyvalue * S3 :=
  match objects with
  | [] => (results, s)
  | obj :: objects' =>
      let '(response, s1) := s3_client.get_object (Key obj) s in
      match response with
      | Some (JsonText j) => fetch_documents objects' (results ++ [loads j]) s1
      | _ => fetch_documents objects' results s1
      end
  end.

(** Helper to get recent messages from a prefix. *)
Definition _get_recent_from_prefix (prefix : string) (limit : nat) (s : S3)
  : list pyvalue * S3 :=
  let '(response, s1) := s3_client.list_objects_v2 prefix limit s in
  match response with
  | None => ([], s1)
  | Some None => ([], s1)
  | Some (Some contents) =>
      let objects := take limit (sorted_last_modified_desc contents) in
      fetch_documents objects [] s1
  end.

(** Get last N successful messages. *)
Definition get_recent_success (limit : nat) (s : S3) : list pyvalue * S3 :=
  _get_recent_from_prefix (S3_SUCCESS_PREFIX config) limit s.

(** Get last N failed messages. *)
Definition get_recent_failed (limit : nat) (s : S3) : list pyvalue * S3 :=
  _get_recent_from_prefix (S3_FAILED_PREFIX config) limit s.
End with_config.
End S3PersistenceLayer.

(* ===================================================================== *)
(** * heapq on [(next_retry_at, message_id)] tuples                       *)
(* ===================================================================== *)

(** The scheduler reads the heap through [heap[0]], [heappop], [heappush]
    and its truth value only.  Tuples are totally ordered, so what these
    return does not depend on the array layout that [heapq] maintains: the
    heap is modelled by the list of its entries, [heap[0]] being the
    smallest one. *)
Module heapq.
Definition entry : Type := Q * string.

(** [a < b] on tuples: the times decide, equal times leave it to the ids. *)
Definition entry_ltb (a b : entry) : bool :=
  match Qcompare a.1 b.1 with
  | Lt => true
  | Eq => String.ltb a.2 b.2
  | Gt => false
  end.

(** The smallest entry of [e :: l] and the other entries. *)
Fixpoint extract_min (e : entry) (l : list entry) : entry * list entry :=
  match l with
  | [] => (e, [])
  | x :: l' =>
      let '(m, rest) := extract_min x l' in
      if entry_ltb m e then (m, e :: rest) else (e, l)
  end.

(** [heap[0]] of a heap that is not empty. *)
Definition top (heap : list entry) : option entry :=
  match heap with
  | [] => None
  | e :: l => Some (extract_min e l).1
  end.

Definition heappop (heap : list entry) : list entry :=
  match heap with
  | [] => []
  | e :: l => (extract_min e l).2
  end.

Definition heappush (heap : list entry) (e : entry) : list entry := e :: heap.
End heapq.

(* ===================================================================== *)
(** * The send port and the world                                         *)
(* ===================================================================== *)

(** What one call of the send function does: return a boolean or raise. *)
Inductive SendOutcome : Type :=
| Returned (success : bool)
| Raised.

(** A call of the send function: the clock at the call and its argument. *)
Record SendCall : Type := {
  call_time : Q;
  call_message : Message.t
}.

(** The send function is injected.  Its outcome may depend on its argument
    and on the calls made before. *)
Definition SendPort : Type := list SendCall → Message.t → SendOutcome.

Record World : Type := {
  clock : Clock;
  s3 : S3;
  sent : list SendCall         (* the calls of the send function, oldest first *)
}.

Definition set_clock (c : Clock) (w : World) : World :=
  {| clock := c; s3 := s3 w; sent := sent w |}.
Definition set_s3 (s : S3) (w : World) : World :=
  {| clock := clock w; s3 := s; sent := sent w |}.
Definition record_call (c : SendCall) (w : World) : World :=
  {| clock := clock w; s3 := s3 w; sent := sent w ++ [c] |}.

(* ===================================================================== *)
(** * scheduler.py                                                        *)
(* ===================================================================== *)

Record Stats : Type := {
  total_messages : Z;
  total_success : Z;
  total_failed : Z;
  in_progress : Z
}.

Module SMSScheduler.
Record t : Type := mk {
  retry_heap : list heapq.entry;                 (* (next_retry_at, message_id) *)
  message_map : gmap string MessageState.t;      (* message_id -> MessageState *)
  running : bool;
  stats : Stats
}.

(** [__init__] *)
Definition init : t :=
  {| retry_heap := [];
     message_map := ∅;
     running := false;
     stats := {| total_messages := 0; total_success := 0;
                 total_failed := 0; in_progress := 0 |} |}.

Definition set_retry_heap (h : list heapq.entry) (self : t) : t :=
  mk h (message_map self) (running self) (stats self).
Definition set_message_map (m : gmap string MessageState.t) (self : t) : t :=
  mk (retry_heap self) m (running self) (stats self).
Definition set_running (b : bool) (self : t) : t :=
  mk (retry_heap self) (message_map self) b (stats self).
Definition set_stats (st : Stats) (self : t) : t :=
  mk (retry_heap self) (message_map self) (running self) st.

(** A [MessageState] object is referenced by the index, under its own
    [message_id] (see [index_keyed] below), and by the local variable
    [state] of the method at work.  An assignment to a field of [state] is
    therefore an update of the index entry as well. *)
Definition write_through (state : MessageState.t) (self : t) : t :=
  set_message_map (<[MessageState.message_id state := state]> (message_map self)) self.

Section with_ports.
Variable config : Config.
Variable send_function : SendPort.

(** Attempt to send message using provided send function.  Returns [true]
    if successful, [false] otherwise; the state comes back with the
    assignments made to it. *)
Definition _attempt_send (self : t) (state : MessageState.t) (w : World)
  : bool * MessageState.t * t * World :=
  let now := time_time (clock w) in
  let w1 := record_call {| call_time := now;
                           call_message := MessageState.message state |} w in
  match send_function (sent w) (MessageState.message state) with
  | Returned success =>
      let state1 :=
        MessageState.set_updated_at now
          (MessageState.set_attempt_count (MessageState.attempt_count state + 1) state) in
      (success, state1, write_through state1 self, w1)
  | Raised =>
      (* except Exception *)
      let state1 :=
        MessageState.set_updated_at now
          (MessageState.set_attempt_count (MessageState.attempt_count state + 1) state) in
      (false, state1, write_through state1 self, w1)
  end.

(** Schedule next retry attempt.  The guard rules an index out of range
    out, so the default of [nth] is never what is read. *)
Definition _schedule_next_retry (self : t) (state : MessageState.t) (w : World)
  : MessageState.t * t * World :=
  if (length MessageState.RETRY_SCHEDULE <=? MessageState.attempt_count state)%nat
  then (state, self, w)
  else
    let delay := nth (MessageState.attempt_count state) MessageState.RETRY_SCHEDULE 0%Q in
    let state1 :=
      MessageState.set_next_retry_at (MessageState.created_at state + delay)%Q state in
    (* Add to heap *)
    let self1 :=
      set_retry_heap
        (heapq.heappush (retry_heap self)
           (MessageState.next_retry_at state1, MessageState.message_id state1))
        (write_through state1 self) in
    (* Persist to S3; a failure is logged and nothing else *)
    let '(_, s1) :=
      S3PersistenceLayer.save_message_state config state1 (clock w) (s3 w) in
    (state1, self1, set_s3 s1 w).

(** Handle successful message delivery. *)
Definition _handle_success (self : t) (state : MessageState.t) (w : World)
  : MessageState.t * t * World :=
  let state1 :=
    MessageState.set_updated_at (time_time (clock w))
      (MessageState.set_status SUCCESS state) in
  (* Remove from tracking *)
  let self1 :=
    set_message_map (delete (MessageState.message_id state1) (message_map self)) self in
  (* Update stats *)
  let self2 :=
    set_stats {| total_messages := total_messages (stats self1);
                 total_success := total_success (stats self1) + 1;
                 total_failed := total_failed (stats self1);
                 in_progress := in_progress (stats self1) - 1 |} self1 in
  (* Persist to S3; a failure is logged and nothing else *)
  let '(_, s1) :=
    S3PersistenceLayer.mark_success config (MessageState.message_id state1) state1
      (clock w) (s3 w) in
  (state1, self2, set_s3 s1 w).

(** Handle message failure after max retries. *)
Definition _handle_failure (self : t) (state : MessageState.t) (w : World)
  : MessageState.t * t * World :=
  let state1 :=
    MessageState.set_updated_at (time_time (clock w))
      (MessageState.set_status FAILED_MAX_RETRIES state) in
  let self1 :=
    set_message_map (delete (MessageState.message_id state1) (message_map self)) self in
  let self2 :=
    set_stats {| total_messages := total_messages (stats self1);
                 total_success := total_success (stats self1);
                 total_failed := total_failed (stats self1) + 1;
                 in_progress := in_progress (stats self1) - 1 |} self1 in
  let '(_, s1) :=
    S3PersistenceLayer.mark_failed config (MessageState.message_id state1) state1
      (clock w) (s3 w) in
  (state1, self2, set_s3 s1 w).

(** Handle new message arrival (called by external system). *)
Definition newMessage (self : t) (message : Message.t) (w : World) : t * World :=
  let current_time := time_time (clock w) in
  (* Create initial state *)
  let state :=
    {| MessageState.message_id := Message.message_id message;
       MessageState.message := message;
       MessageState.attempt_count := 0;
       MessageState.next_retry_at := current_time;
       MessageState.status := PENDING;
       MessageState.created_at := current_time;
       MessageState.updated_at := current_time |} in
  let self1 :=
    set_message_map (<[Message.message_id message := state]> (message_map self)) self in
  let self2 :=
    set_stats {| total_messages := total_messages (stats self1) + 1;
                 total_success := total_success (stats self1);
                 total_failed := total_failed (stats self1);
                 in_progress := in_progress (stats self1) + 1 |} self1 in
  (* Attempt immediate send (attempt 0) *)
  let '(success, state1, self3, w1) := _attempt_send self2 state w in
  let '(_, self4, w2) :=
    if success then _handle_success self3 state1 w1
    else
      (* Schedule first retry (0.5s from now) *)
      _schedule_next_retry self3 state1 w1 in
  (self4, w2).

(** One turn of the [while self.retry_heap] loop of [wakeup]; [None] when
    the loop is left (empty heap, or [break]). *)
Definition wakeup_step (current_time : Q) (self : t) (w : World)
  : option (t * World) :=
  match heapq.top (retry_heap self) with
  | None => None
  | Some (next_time, message_id) =>
      (* Stop if the next message is not due yet *)
      if QMicromega.Qlt_bool current_time next_time then None
      else
        (* Pop from heap *)
        let self1 := set_retry_heap (heapq.heappop (retry_heap self)) self in
        (* Check if the message still exists (might have been completed) *)
        match message_map self1 !! message_id with
        | None => Some (self1, w)
        | Some state =>
            (* Double-check it's still pending *)
            if bool_decide (MessageState.status state ≠ PENDING) then Some (self1, w)
            else
              let '(success, state1, self2, w1) := _attempt_send self1 state w in
              let '(_, self3, w2) :=
                if success then _handle_success self2 state1 w1
                else
                  (* Check if max attempts reached *)
                  if (MessageState.MAX_ATTEMPTS <=? MessageState.attempt_count state1)%nat
                  then _handle_failure self2 state1 w1
                  else _schedule_next_retry self2 state1 w1 in
              Some (self3, w2)
        end
  end.

Fixpoint wakeup_loop (fuel : nat) (current_time : Q) (self : t) (w : World)
  : t * World :=
  match fuel with
  | O => (self, w)
  | S fuel' =>
      match wakeup_step current_time self w with
      | None => (self, w)
      | Some (self', w') => wakeup_loop fuel' current_time self' w'
      end
  end.

(** The attempts a state can still have before it is given up. *)
Definition attempts_left (state : MessageState.t) : nat :=
  MessageState.MAX_ATTEMPTS - MessageState.attempt_count state.

(** A bound on the turns of the loop: every turn pops an entry, and pushes
    one only after using up an attempt ([wakeup_loop_exits] below). *)
Definition wakeup_fuel (self : t) : nat :=
  length (retry_heap self)
  + map_fold (λ _ state n, attempts_left state + n) 0 (message_map self).

(** Process messages due for retry (called every 500ms). *)
Definition wakeup (self : t) (w : World) : t * World :=
  if negb (running self) then (self, w)
  else wakeup_loop (wakeup_fuel self) (time_time (clock w)) self w.

(** One recovered state: adjust the next retry time if it's in the past,
    then index it and push its heap entry. *)
Definition recover_state (current_time : Q) (self : t) (state : MessageState.t) : t :=
  let state1 :=
    if QMicromega.Qlt_bool (MessageState.next_retry_at state) current_time
    then MessageState.set_next_retry_at current_time state
    else state in
  set_retry_heap
    (heapq.heappush (retry_heap self)
       (MessageState.next_retry_at state1, MessageState.message_id state1))
    (set_message_map
       (<[MessageState.message_id state1 := state1]> (message_map self)) self).

(** Recover pending messages from S3 on startup.  [None] only for a store
    with a record outside the typed model. *)
Definition _recover_from_s3 (self : t) (w : World) : option (t * World) :=
  match S3PersistenceLayer.load_all_pending_states config (s3 w) with
  | None => None
  | Some (pending_states, s1) =>
      let current_time := time_time (clock w) in
      let self1 := foldl (recover_state current_time) self pending_states in
      let self2 :=
        set_stats {| total_messages := total_messages (stats self1);
                     total_success := total_success (stats self1);
                     total_failed := total_failed (stats self1);
                     in_progress := Z.of_nat (length pending_states) |} self1 in
      Some (self2, set_s3 s1 w)
  end.

(** Start the scheduler.  The wakeup thread it spawns is the environment
    calling [wakeup]. *)
Definition start (self : t) (w : World) : option (t * World) :=
  if running self then Some (self, w)
  else
    match _recover_from_s3 self w with
    | None => None
    | Some (self1, w1) => Some (set_running true self1, w1)
    end.

(** Stop the scheduler. *)
Definition stop (self : t) : t := set_running false self.

(** Get current statistics. *)
Definition get_stats (self : t) : Stats := stats self.

(** Get recent successful messages. *)
Definition get_recent_success (limit : nat) (w : World) : list pyvalue * World :=
  let '(r, s1) := S3PersistenceLayer.get_recent_success config limit (s3 w) in
  (r, set_s3 s1 w).

(** Get recent failed messages. *)
Definition get_recent_failed (limit : nat) (w : World) : list pyvalue * World :=
  let '(r, s1) := S3PersistenceLayer.get_recent_failed config limit (s3 w) in
  (r, set_s3 s1 w).
End with_ports.
End SMSScheduler.

(* ===================================================================== *)
(** * Runs of the scheduler                                               *)
(* ===================================================================== *)

(** The calls the environment makes once the scheduler is started: an intake
    or a tick, each at a reading of the clock. *)
Inductive Event : Type :=
| Intake (c : Clock) (m : Message.t)
| Tick (c : Clock).

Section runs.
Variable config : Config.
Variable send_function : SendPort.

Definition step (st : SMSScheduler.t * World) (ev : Event) : SMSScheduler.t * World :=
  match ev with
  | Intake c m => SMSScheduler.newMessage config send_function st.1 m (set_clock c st.2)
  | Tick c => SMSScheduler.wakeup config send_function st.1 (set_clock c st.2)
  end.

Definition run (st : SMSScheduler.t * World) (evs : list Event)
  : SMSScheduler.t * World :=
  foldl step st evs.
End runs.

(** The ids of the messages that a list of events takes in. *)
Definition intake_ids (evs : list Event) : list string :=
  omap (λ ev, match ev with
              | Intake _ m => Some (Message.message_id m)
              | Tick _ => None
              end) evs.

(** The times of the calls of the send function for one message id, oldest
    first. *)
Definition send_times (message_id : string) (calls : list SendCall) : list Q :=
  call_time <$> filter (λ c, Message.message_id (call_message c) = message_id) calls.


(* ===================================================================== *)
(** * Vocabulary of the statements                                        *)
(* ===================================================================== *)

(** The boolean that [_attempt_send] returns for an outcome of the send
    function. *)
Definition send_result (o : SendOutcome) : bool :=
  match o with Returned b => b | Raised => false end.

(** A state after the assignments of [_attempt_send], of
    [_schedule_next_retry] and of the two terminal transitions. *)
Definition attempted (now : Q) (state : MessageState.t) : MessageState.t :=
  MessageState.set_updated_at now
    (MessageState.set_attempt_count (MessageState.attempt_count state + 1) state).

Definition scheduled (state : MessageState.t) : MessageState.t :=
  MessageState.set_next_retry_at
    (MessageState.created_at state
     + nth (MessageState.attempt_count state) MessageState.RETRY_SCHEDULE 0)%Q state.

Definition finished (s : MessageStatus) (now : Q) (state : MessageState.t) : MessageState.t :=
  MessageState.set_updated_at now (MessageState.set_status s state).

Definition count_success (st : Stats) : Stats :=
  {| total_messages := total_messages st; total_success := total_success st + 1;
     total_failed := total_failed st; in_progress := in_progress st - 1 |}.
Definition count_failure (st : Stats) : Stats :=
  {| total_messages := total_messages st; total_success := total_success st;
     total_failed := total_failed st + 1; in_progress := in_progress st - 1 |}.
Definition count_intake (st : Stats) : Stats :=
  {| total_messages := total_messages st + 1; total_success := total_success st;
     total_failed := total_failed st; in_progress := in_progress st + 1 |}.

Definition the_call (state : MessageState.t) (w : World) : SendCall :=
  {| call_time := time_time (clock w); call_message := MessageState.message state |}.

(** The state that [newMessage] creates. *)
Definition initial_state (message : Message.t) (now : Q) : MessageState.t :=
  MessageState.mk (Message.message_id message) message 0 now PENDING now now.

(** The ways an attempt ends: success transition, failure transition, a new
    heap entry, or the early return of [_schedule_next_retry]. *)
Inductive ending : Type := Delivered | GivenUp | Retrying | Dropped.

Section process.
Variable config : Config.
Variable send_function : SendPort.

(** What [newMessage] does with the state it has put in the index
    ([check_max = false]) and what [wakeup] does with the pending state it
    has looked up ([check_max = true]). *)
Definition process (check_max : bool) (self : SMSScheduler.t) (state : MessageState.t)
    (w : World) : SMSScheduler.t * World :=
  let '(success, state1, self2, w1) :=
    SMSScheduler._attempt_send send_function self state w in
  let '(_, self3, w2) :=
    if success then SMSScheduler._handle_success config self2 state1 w1
    else if check_max
            && (MessageState.MAX_ATTEMPTS <=? MessageState.attempt_count state1)%nat
         then SMSScheduler._handle_failure config self2 state1 w1
         else SMSScheduler._schedule_next_retry config self2 state1 w1 in
  (self3, w2).

Definition ending_of (check_max : bool) (state : MessageState.t) (w : World) : ending :=
  if send_result (send_function (sent w) (MessageState.message state)) then Delivered
  else if check_max
          && (MessageState.MAX_ATTEMPTS <=? MessageState.attempt_count state + 1)%nat
       then GivenUp
       else if (length MessageState.RETRY_SCHEDULE
                <=? MessageState.attempt_count state + 1)%nat
            then Dropped else Retrying.
End process.

(** Every state of the index is stored under its own id, which is also the
    id of its message.  [newMessage] and recovery insert states this way. *)
Definition index_keyed (self : SMSScheduler.t) : Prop :=
  ∀ k state, SMSScheduler.message_map self !! k = Some state →
    MessageState.message_id state = k
    ∧ Message.message_id (MessageState.message state) = k.

(** The attempts that the states of the index can still have. *)
Definition budget (m : gmap string MessageState.t) : nat :=
  map_fold (λ _ state n, SMSScheduler.attempts_left state + n)%nat 0%nat m.

(** The heap entries of one message id. *)
Definition entries_of (message_id : string) (heap : list heapq.entry)
  : list heapq.entry :=
  filter (λ e, e.2 = message_id) heap.

(** P3: the counters add up. *)
Definition stats_balanced (st : Stats) : Prop :=
  total_messages st = (total_success st + total_failed st + in_progress st)%Z.

(** P2: [in_progress] counts the index. *)
Definition in_progress_counts_index (self : SMSScheduler.t) : Prop :=
  in_progress (SMSScheduler.stats self)
  = Z.of_nat (size (SMSScheduler.message_map self)).





Section process_requests.
Variable config : Config.
Variable send_function : SendPort.

(** The requests that one [process] adds. *)
Definition process_requests (check_max : bool) (state : MessageState.t) (w : World)
  : list S3Request :=
  let now := time_time (clock w) in
  let id := MessageState.message_id state in
  let st1 := attempted now state in
  let erase :=
    if hd false (faults (s3 w)) then []
    else [DeleteObject (S3PersistenceLayer.state_key config id)] in
  match ending_of send_function check_max state w with
  | Delivered =>
      PutObject (S3PersistenceLayer.log_key (S3_SUCCESS_PREFIX config)
                   (utcnow_isoformat (clock w)) id)
        (JsonText (MessageState.to_json (finished SUCCESS now st1))) :: erase
  | GivenUp =>
      PutObject (S3PersistenceLayer.log_key (S3_FAILED_PREFIX config)
                   (utcnow_isoformat (clock w)) id)
        (JsonText (MessageState.to_json (finished FAILED_MAX_RETRIES now st1))) :: erase
  | Retrying =>
      [PutObject (S3PersistenceLayer.state_key config id)
         (JsonText (MessageState.to_json (scheduled st1)))]
  | Dropped => []
  end.

End process_requests.

Section focus.
Variable config : Config.
Variable m : Message.t.

(** The last state of [m] is on record: a put to the failure log of a state
    of [m] with status FAILED_MAX_RETRIES and six attempts. *)
Definition failure_logged (reqs : list S3Request) : Prop :=
  ∃ stamp final,
    PutObject (S3PersistenceLayer.log_key (S3_FAILED_PREFIX config) stamp
                 (Message.message_id m))
      (JsonText (MessageState.to_json final)) ∈ reqs
    ∧ MessageState.message final = m
    ∧ MessageState.message_id final = Message.message_id m
    ∧ MessageState.status final = FAILED_MAX_RETRIES
    ∧ MessageState.attempt_count final = MessageState.MAX_ATTEMPTS.

(** [m], taken in at [t0] after [n0] earlier calls for its id, has had [k]
    attempts and waits for the next one. *)
Definition retrying (t0 : Q) (n0 k : nat) (st : SMSScheduler.t * World) : Prop :=
  let id := Message.message_id m in
  let due := (t0 + nth k MessageState.RETRY_SCHEDULE 0)%Q in
  (1 <= k <= 5)%nat
  ∧ (∃ upd, SMSScheduler.message_map st.1 !! id
            = Some (MessageState.mk id m k due PENDING t0 upd))
  ∧ entries_of id (SMSScheduler.retry_heap st.1) = [(due, id)]
  ∧ length (send_times id (sent st.2)) = (n0 + k)%nat.

(** [m] has been given up after six attempts. *)
Definition exhausted (n0 : nat) (st : SMSScheduler.t * World) : Prop :=
  let id := Message.message_id m in
  SMSScheduler.message_map st.1 !! id = None
  ∧ entries_of id (SMSScheduler.retry_heap st.1) = []
  ∧ length (send_times id (sent st.2)) = (n0 + 6)%nat
  ∧ failure_logged (requests (s3 st.2)).

Definition on_its_way (t0 : Q) (n0 : nat) (st : SMSScheduler.t * World) : Prop :=
  index_keyed st.1
  ∧ SMSScheduler.running st.1 = true
  ∧ ((∃ k, retrying t0 n0 k st) ∨ exhausted n0 st).
End focus.

(** The keys of the two logs are no keys of pending records.  The default
    prefixes make it so. *)
Definition namespaces_apart (config : Config) : Prop :=
  ∀ stamp id id',
    S3PersistenceLayer.log_key (S3_SUCCESS_PREFIX config) stamp id'
    ≠ S3PersistenceLayer.state_key config id
    ∧ S3PersistenceLayer.log_key (S3_FAILED_PREFIX config) stamp id'
      ≠ S3PersistenceLayer.state_key config id.

(** No request of the list writes the pending record of the message id. *)
Definition never_saved (config : Config) (id : string) (reqs : list S3Request) : Prop :=
  ∀ b, PutObject (S3PersistenceLayer.state_key config id) b ∉ reqs.

(** The message id is not in the index, and no request after [base] has
    written its pending record. *)
Definition left_alone (config : Config) (id : string) (base : list S3Request)
    (st : SMSScheduler.t * World) : Prop :=
  index_keyed st.1
  ∧ SMSScheduler.message_map st.1 !! id = None
  ∧ ∃ later, requests (s3 st.2) = (base ++ later)%list ∧ never_saved config id later.

(** The state that a stored object holds, when it is a readable record of a
    PENDING state. *)
Definition pending_record (o : S3Object) : option MessageState.t :=
  match Body o with
  | JsonText j =>
      match MessageState.from_json j with
      | Decoded state =>
          if bool_decide (MessageState.status state = PENDING) then Some state else None
      | _ => None
      end
  | Garbled => None
  end.

(** The object is no record outside the typed model. *)
Definition typed_record (o : S3Object) : Prop :=
  match Body o with
  | JsonText j => MessageState.from_json j ≠ IllTyped
  | Garbled => True
  end.

(** The next [n] flags of a script of failures. *)
Fixpoint flags (n : nat) (script : list bool) : list bool :=
  match n with
  | O => []
  | S n' => hd false script :: flags n' (tl script)
  end.



(** What the loop gets from an object, given whether fetching it failed. *)
Definition fetched (x : S3Object * bool) : option MessageState.t :=
  if x.2 then None else pending_record x.1.

(** A recovered state after the adjustment of its next retry time. *)
Definition adjusted (now : Q) (state : MessageState.t) : MessageState.t :=
  if QMicromega.Qlt_bool (MessageState.next_retry_at state) now
  then MessageState.set_next_retry_at now state
  else state.

Definition heap_entry (state : MessageState.t) : heapq.entry :=
  (MessageState.next_retry_at state, MessageState.message_id state).

(** The service after the objects have been fetched, one request each. *)
Definition after_gets (objs : list S3Object) (s : S3) : S3 :=
  {| bucket := bucket s;
     faults := drop (length objs) (faults s);
     requests := (requests s ++ (GetObject ∘ Key <$> objs))%list |}.

(** Every object of the list can be fetched from the bucket by its key, and
    none is a record outside the typed model. *)
Definition readable (s : S3) (objs : list S3Object) : Prop :=
  (∀ o, o ∈ objs → s3_client.bucket_get (Key o) (bucket s) = Some o)
  ∧ Forall typed_record objs.

Section run_conditions.
Variable config : Config.
Variable send_function : SendPort.

(** Along a run, every intake brings an id that is not in the index at that
    moment. *)
Fixpoint intakes_fresh (st : SMSScheduler.t * World) (evs : list Event) : Prop :=
  match evs with
  | [] => True
  | ev :: evs' =>
      match ev with
      | Intake _ m => SMSScheduler.message_map st.1 !! Message.message_id m = None
      | Tick _ => True
      end
      ∧ intakes_fresh (step config send_function st ev) evs'
  end.
End run_conditions.

(** ** Data of the examples *)

Definition clock_at (t : Q) (stamp : string) : Clock :=
  {| time_time := t; utcnow_isoformat := stamp |}.

(** An empty bucket on a service that does not fail, and no call of the send
    function so far. *)
Definition empty_world : World :=
  {| clock := clock_at 0 "2024-01-01T00:00:00.000000";
     s3 := {| bucket := []; faults := []; requests := [] |};
     sent := [] |}.

Definition never_delivers : SendPort := λ _ _, Returned false.
Definition always_delivers : SendPort := λ _ _, Returned true.

Definition example_config : Config := default_config "sms".

Definition m2 : Message.t := Message.mk "m2" "hello" PyNone.



(** A bucket whose listing takes two pages: the pending record of one
    message, then [page_size] objects whose bytes are no record, in key
    order. *)
Definition digits4 (n : nat) : string :=
  let digit d := String (Ascii.ascii_of_nat (48 + d)) EmptyString in
  (digit (n / 1000) ++ digit (n / 100 mod 10) ++ digit (n / 10 mod 10)
   ++ digit (n mod 10))%string.

Definition crowded_state : MessageState.t :=
  MessageState.mk "0000" (Message.mk "0000" "first" PyNone) 2 1010 PENDING 1002 1006.

Definition crowded_bucket : list S3Object :=
  {| Key := "state/0000.json";
     Body := JsonText (MessageState.to_json crowded_state);
     LastModified := 1006%Q |}
  :: ((λ n, {| Key := "state/" ++ digits4 n ++ ".json"; Body := Garbled;
               LastModified := 950%Q |})
        <$> seq 1 s3_client.page_size).

Definition crowded_world (script : list bool) : World :=
  {| clock := clock_at 1000 "2024-01-01T00:16:40.000000";
     s3 := {| bucket := crowded_bucket; faults := script; requests := [] |};
     sent := [] |}.

(** The [message_id] of a document that [get_recent_*] returns. *)
Definition document_id (v : pyvalue) : option string :=
  match v with
  | PyDict d =>
      match dict_get "message_id" d with
      | Some (PyStr s) => Some s
      | _ => None
      end
  | _ => None
  end.

(** The document that a stored object holds. *)
Definition document (o : S3Object) : option pyvalue :=
  match Body o with
  | JsonText j => Some (loads j)
  | Garbled => None
  end.

(** Three messages, each delivered at its first attempt, one second apart. *)
Definition three_delivered : World :=
  (run example_config always_delivers (SMSScheduler.init, empty_world)
     [Intake (clock_at 1000 "2024-01-01T00:16:40.000000") (Message.mk "a" "one" PyNone);
      Intake (clock_at 1001 "2024-01-01T00:16:41.000000") (Message.mk "b" "two" PyNone);
      Intake (clock_at 1002 "2024-01-01T00:16:42.000000")
        (Message.mk "c" "three" PyNone)]).2.


(** A state whose metadata holds a tuple: a dict, and one that [json.dumps]
    accepts. *)
Definition tuple_state : MessageState.t :=
  MessageState.mk "m1"
    (Message.mk "m1" "hi" (PyDict [("tags", PyTuple [PyInt 1; PyInt 2])]))
    1 1000 PENDING 1000 1000.


(* ===================================================================== *)
(** * api.py: the two handlers that take messages in                      *)
(* ===================================================================== *)

(** What a handler returns: [jsonify(body)] with status 200, or the answer
    of its [except] clause, [jsonify({'status': 'error', 'message':
    str(e)}), 400], the text of the exception being left out. *)
Inductive response : Type :=
| jsonify (body : pyvalue)
| error_400.

(** A handler at work: the messages it has passed to
    [scheduler.newMessage], in order, its answer, and the number of
    identifiers drawn from [uuid.uuid4] so far.  The handlers run outside
    the lock of the scheduler: what the scheduler does with the messages,
    and when, is a run of [Intake] events. *)
Record handled : Type := {
  taken_in : list Message.t;
  reply : response;
  drawn : nat
}.

Module SchedulerAPI.
Section with_uuid.
(** [str(uuid.uuid4())]: the [n]-th identifier drawn. *)
Variable uuid4 : nat → string.

(** [send_single].  [request_json] is [request.json], [None] when reading
    it raises.  The keyword arguments of [Message(...)] are evaluated in
    order: the identifier is drawn before [data['content']] is looked up.
    The result is [None] for a content that is no string, which gives a
    message outside the typed model. *)
Definition send_single (request_json : option pyvalue) (n : nat) : option handled :=
  match request_json with
  | None => Some {| taken_in := []; reply := error_400; drawn := n |}
  | Some data =>
      let message_id := uuid4 n in
      match data with
      | PyDict d =>
          match dict_get "content" d with
          | None => Some {| taken_in := []; reply := error_400; drawn := S n |}
          | Some (PyStr content) =>
              let message :=
                {| Message.message_id := message_id;
                   Message.content := content;
                   Message.metadata := default PyNone (dict_get "metadata" d) |} in
              Some {| taken_in := [message];
                      reply := jsonify (PyDict [("status", PyStr "success");
                                                ("message_id", PyStr message_id)]);
                      drawn := S n |}
          | Some _ => None
          end
      | _ => Some {| taken_in := []; reply := error_400; drawn := S n |}
      end
  end.

(** [range(count)]: an [int] or a [bool]; anything else is a [TypeError]. *)
Definition range_count (count : pyvalue) : option Z :=
  match count with
  | PyInt z => Some z
  | PyBool b => Some (Z.b2z b)
  | _ => None
  end.

(** [{'bulk_index': i, **(data.get('metadata', {}))}]: the items of the
    metadata are set one after the other on the dict that holds
    [bulk_index]; [None] is the [TypeError] of a metadata that is no
    mapping. *)
Definition bulk_metadata (i : nat) (d : list (string * pyvalue)) : option pyvalue :=
  match default (PyDict []) (dict_get "metadata" d) with
  | PyDict md =>
      Some (PyDict (fold_left (λ acc kv, dict_set kv.1 kv.2 acc) md
                      [("bulk_index", PyInt (Z.of_nat i))]))
  | _ => None
  end.

(** The loop of [send_bulk] from turn [i] on, [count] turns to go.  The
    second component is [message_ids], or [None] when a turn has raised. *)
Fixpoint send_bulk_loop (d : list (string * pyvalue)) (count i n : nat)
    (messages : list Message.t) (message_ids : list string)
  : option (list Message.t * option (list string) * nat) :=
  match count with
  | O => Some (messages, Some message_ids, n)
  | S count' =>
      let message_id := uuid4 n in
      match dict_get "content" d with
      | None => Some (messages, None, S n)
      | Some content =>
          match bulk_metadata i d with
          | None => Some (messages, None, S n)
          | Some metadata =>
              match content with
              | PyStr content =>
                  send_bulk_loop d count' (S i) (S n)
                    (messages ++ [{| Message.message_id := message_id;
                                     Message.content := content;
                                     Message.metadata := metadata |}])
                    (message_ids ++ [message_id])
              | _ => None
              end
          end
      end
  end.

(** [send_bulk]: send N copies of the same message. *)
Definition send_bulk (request_json : option pyvalue) (n : nat) : option handled :=
  match request_json with
  | None => Some {| taken_in := []; reply := error_400; drawn := n |}
  | Some (PyDict d) =>
      let count := default (PyInt 1) (dict_get "count" d) in
      match range_count count with
      | None => Some {| taken_in := []; reply := error_400; drawn := n |}
      | Some z =>
          match send_bulk_loop d (Z.to_nat z) 0 n [] [] with
          | None => None
          | Some (messages, Some message_ids, n') =>
              Some {| taken_in := messages;
                      reply := jsonify (PyDict [("status", PyStr "success");
                                                ("count", count);
                                                ("message_ids",
                                                 PyList (PyStr <$> message_ids))]);
                      drawn := n' |}
          | Some (messages, None, n') =>
              Some {| taken_in := messages; reply := error_400; drawn := n' |}
          end
      end
  | Some _ => Some {| taken_in := []; reply := error_400; drawn := n |}
  end.
End with_uuid.
End SchedulerAPI.

(* ===================================================================== *)
(** * Vocabulary of the further properties                                *)
(* ===================================================================== *)

Section json_induction.
Variable P : json → Prop.
Hypothesis HNull : P JNull.
Hypothesis HBool : ∀ b, P (JBool b).
Hypothesis HInt : ∀ z, P (JInt z).
Hypothesis HFloat : ∀ q, P (JFloat q).
Hypothesis HStr : ∀ s, P (JStr s).
Hypothesis HArr : ∀ l, Forall P l → P (JArr l).
Hypothesis HObj : ∀ d, Forall (λ kv, P kv.2) d → P (JObj d).

Fixpoint json_nested_ind (j : json) : P j :=
  let fix on_list (l : list json) : Forall P l :=
    match l with
    | [] => Forall_nil_2 P
    | x :: l' => Forall_cons_2 P x l' (json_nested_ind x) (on_list l')
    end in
  let fix on_members (d : list (string * json)) : Forall (λ kv, P kv.2) d :=
    match d with
    | [] => Forall_nil_2 _
    | (k, x) :: d' =>
        Forall_cons_2 (λ kv, P kv.2) (k, x) d' (json_nested_ind x) (on_members d')
    end in
  match j with
  | JNull => HNull
  | JBool b => HBool b
  | JInt z => HInt z
  | JFloat q => HFloat q
  | JStr s => HStr s
  | JArr l => HArr l (on_list l)
  | JObj d => HObj d (on_members d)
  end.
End json_induction.

(** The names of the fields of a stored record and of its message. *)
Definition state_fields : list string :=
  ["message_id"; "message"; "attempt_count"; "next_retry_at"; "status";
   "created_at"; "updated_at"].
Definition message_fields : list string := ["message_id"; "content"; "metadata"].

Definition is_tick (ev : Event) : bool :=
  match ev with Tick _ => true | Intake _ _ => false end.

(** The outcomes of the calls [new] of the send function, made after the
    calls [seen]. *)
Fixpoint outcomes (send_function : SendPort) (seen new : list SendCall)
  : list SendOutcome :=
  match new with
  | [] => []
  | c :: new' =>
      send_function seen (call_message c)
      :: outcomes send_function (seen ++ [c]) new'
  end.

(** How many of these calls returned true. *)
Definition deliveries (send_function : SendPort) (seen new : list SendCall) : nat :=
  length (filter (λ o, send_result o = true) (outcomes send_function seen new)).

(** What a part of a run adds to the calls and to the counters: [n]
    messages, and one success for every call that returned true. *)
Definition adds (send_function : SendPort) (n : nat) (st r : SMSScheduler.t * World)
  : Prop :=
  ∃ new, sent r.2 = (sent st.2 ++ new)%list
    ∧ total_messages (SMSScheduler.stats r.1)
      = (total_messages (SMSScheduler.stats st.1) + Z.of_nat n)%Z
    ∧ total_success (SMSScheduler.stats r.1)
      = (total_success (SMSScheduler.stats st.1)
         + Z.of_nat (deliveries send_function (sent st.2) new))%Z.

(** Every call of the send function that is followed by another call for
    the same message id had not returned true. *)
Definition delivered_at_most_once (send_function : SendPort) (calls : list SendCall)
  : Prop :=
  ∀ i j ci cj,
    calls !! i = Some ci → calls !! j = Some cj → (i < j)%nat →
    Message.message_id (call_message ci) = Message.message_id (call_message cj) →
    send_result (send_function (take i calls) (call_message ci)) = false.

(** A call for the message id has returned true. *)
Definition succeeded (send_function : SendPort) (calls : list SendCall) (id : string)
  : Prop :=
  ∃ i c, calls !! i = Some c ∧ Message.message_id (call_message c) = id
         ∧ send_result (send_function (take i calls) (call_message c)) = true.

(** What a run without a repeated id maintains about deliveries; [seen]
    holds the ids met so far. *)
Record once_inv (send_function : SendPort) (seen : list string)
    (st : SMSScheduler.t * World) : Prop := {
  once_keyed : index_keyed st.1;
  once_gone : ∀ id, succeeded send_function (sent st.2) id →
                SMSScheduler.message_map st.1 !! id = None;
  once_calls : delivered_at_most_once send_function (sent st.2);
  once_seen : ∀ id, send_times id (sent st.2) ≠ [] → id ∈ seen;
  once_index : ∀ id, is_Some (SMSScheduler.message_map st.1 !! id) → id ∈ seen
}.

(** [a] was not modified before [b]. *)
Definition newer_or_same (a b : S3Object) : Prop := (LastModified b <= LastModified a)%Q.

(** The keys of the bucket are in ascending order, one object per key. *)
Definition keys_ascending (b : list S3Object) : Prop :=
  StronglySorted (λ a o, String.compare (Key a) (Key o) = Lt) b.

(** The object is the record of a finished message, as the logs hold
    them. *)
Definition log_record (o : S3Object) : Prop :=
  ∃ final, Body o = JsonText (MessageState.to_json final)
           ∧ MessageState.status final ≠ PENDING.

(** The store mirrors the index, on a service that does not fail: every
    state of the index is pending and is stored under its key as its JSON
    text, and every other object is a log record. *)
Record mirrored (config : Config) (self : SMSScheduler.t) (s : S3) : Prop := {
  mirror_healthy : faults s = [];
  mirror_keys : keys_ascending (bucket s);
  mirror_keyed : index_keyed self;
  mirror_pending : ∀ id state, SMSScheduler.message_map self !! id = Some state →
    MessageState.status state = PENDING
    ∧ json_exact (Message.metadata (MessageState.message state)) = true
    ∧ Body <$> s3_client.bucket_get (S3PersistenceLayer.state_key config id) (bucket s)
      = Some (JsonText (MessageState.to_json state));
  mirror_others : ∀ o, o ∈ bucket s →
    (∃ id, is_Some (SMSScheduler.message_map self !! id)
           ∧ Key o = S3PersistenceLayer.state_key config id)
    ∨ log_record o
}.

(** The metadata of every message taken in is a value that JSON denotes
    exactly, as a value that came out of [request.json] is. *)
Definition exact_intakes (evs : list Event) : Prop :=
  Forall (λ ev, match ev with
                | Intake _ m => json_exact (Message.metadata m) = true
                | Tick _ => True
                end) evs.

(** Every state of the index is pending and has its heap entry, the pair of
    its next retry time and its id. *)
Definition index_scheduled (self : SMSScheduler.t) : Prop :=
  index_keyed self
  ∧ ∀ id state, SMSScheduler.message_map self !! id = Some state →
      MessageState.status state = PENDING
      ∧ heap_entry state ∈ SMSScheduler.retry_heap self.

(** The send function with its exceptions turned into [False]. *)
Definition without_raising (send_function : SendPort) : SendPort :=
  λ calls message, Returned (send_result (send_function calls message)).

(** ** Data of the further examples *)

(** A started scheduler that has taken [m2] in at clock 1000 and has not
    delivered it: [m2] waits for its first retry. *)
Definition one_waiting : SMSScheduler.t * World :=
  SMSScheduler.newMessage example_config never_delivers
    (SMSScheduler.set_running true SMSScheduler.init) m2
    (set_clock (clock_at 1000 "2024-01-01T00:16:40.000000") empty_world).

(** A stored record of [m2]. *)
Definition m2_state : MessageState.t :=
  MessageState.mk "m2" m2 1 (2001 # 2) PENDING 1000 1000.

(** The identifiers of the examples: [id-] followed by as many [x] as
    identifiers were drawn before. *)
Fixpoint example_uuid4 (n : nat) : string :=
  match n with
  | O => "id-"
  | S n' => example_uuid4 n' ++ "x"
  end.

(** A bulk request for three copies, with metadata of its own. *)
Definition bulk_request : pyvalue :=
  PyDict [("content", PyStr "hello"); ("count", PyInt 3);
          ("metadata", PyDict [("campaign", PyStr "spring")])].

(* ===================================================================== *)
(** * Serialisation: lemmas                                               *)
(* ===================================================================== *)

Lemma dict_get_app_None k (a b : list (string * pyvalue)) :
  dict_get k a = None → dict_get k (a ++ b)%list = dict_get k b.
Proof.
  induction a as [|[k' v] a IH]; simpl; [done|].
  destruct (String.eqb k k'); [done|]. exact IH.
Qed.

Lemma dict_set_fresh k v (d : list (string * pyvalue)) :
  dict_get k d = None → dict_set k v d = (d ++ [(k, v)])%list.
Proof.
  induction d as [|[k' x] d IH]; simpl; [done|].
  destruct (String.eqb k k'); [done|]. intros H. by rewrite IH.
Qed.

Lemma dict_get_snoc_ne k k' v (d : list (string * pyvalue)) :
  String.eqb k k' = false → dict_get k (d ++ [(k', v)])%list = dict_get k d.
Proof.
  intros Hne. induction d as [|[k0 x] d IH]; simpl.
  - by rewrite Hne.
  - destruct (String.eqb k k0); [done|]. exact IH.
Qed.

Lemma dict_of_pairs_distinct_from acc kvs :
  distinct_keys (acc ++ kvs)%list = true →
  fold_left (λ d kv, dict_set kv.1 kv.2 d) kvs acc = (acc ++ kvs)%list.
Proof.
  revert acc. induction kvs as [|[k v] kvs IH]; intros acc Hd; simpl.
  - by rewrite app_nil_r.
  - assert (Hk : dict_get k acc = None).
    { clear IH. induction acc as [|[k0 x] acc IHa]; simpl in *; [done|].
      destruct (dict_get k0 (acc ++ (k, v) :: kvs)%list) eqn:E; [done|].
      destruct (String.eqb k k0) eqn:Ek.
      - apply String.eqb_eq in Ek. subst k0.
        exfalso. clear -E. induction acc as [|[k1 y] acc IH]; simpl in E.
        + by rewrite String.eqb_refl in E.
        + destruct (String.eqb k k1); [done|]. auto.
      - auto. }
    rewrite dict_set_fresh by done.
    rewrite IH; rewrite <- app_assoc; simpl; done.
Qed.

Lemma dict_of_pairs_distinct d : distinct_keys d = true → dict_of_pairs d = d.
Proof. intros H. unfold dict_of_pairs. by rewrite dict_of_pairs_distinct_from. Qed.

Lemma distinct_keys_map (f : pyvalue → pyvalue) d :
  distinct_keys (map (λ kv, let '(k, x) := kv in (k, f x)) d) = distinct_keys d.
Proof.
  assert (Hg : ∀ k d, (dict_get k (map (λ kv : string * pyvalue, let '(k, x) := kv in (k, f x)) d)) = f <$> dict_get k d).
  { intros k d0. induction d0 as [|[k0 x] d0 IH]; simpl; [done|].
    destruct (String.eqb k k0); [done|]. exact IH. }
  induction d as [|[k x] d IH]; simpl; [done|].
  rewrite Hg. destruct (dict_get k d); simpl; [done|]. exact IH.
Qed.

Lemma loads_dumps v : json_exact v = true → loads (dumps v) = v.
Proof.
  induction v as [| | | | |l IH|l IH|d IH] using pyvalue_nested_ind; simpl; try done.
  - intros H. f_equal. rewrite map_map.
    induction IH as [|x l Hx Hl IHl]; simpl in *; [done|].
    apply andb_true_iff in H as [H1 H2]. f_equal; auto.
  - intros H. apply andb_true_iff in H as [Hd H]. f_equal.
    rewrite map_map.
    assert (Hm : map (λ x : string * pyvalue, let '(k, x0) := let '(k, x0) := x in (k, dumps x0) in (k, loads x0)) d = d).
    { clear Hd. induction IH as [|[k x] d Hx Hl IHl]; simpl in *; [done|].
      apply andb_true_iff in H as [H1 H2]. f_equal; auto. by rewrite Hx. }
    rewrite Hm. by apply dict_of_pairs_distinct.
Qed.

Lemma from_dict_to_dict state : MessageState.from_dict (MessageState.to_dict state) = Decoded state.
Proof.
  destruct state as [mid [mmid c md] ac nra st ca ua]. 
  unfold MessageState.from_dict, MessageState.to_dict. simpl.
  assert (E : (0 <=? Z.of_nat ac)%Z = true) by (apply Z.leb_le; lia).
  destruct st; simpl; rewrite E, Nat2Z.id; reflexivity.
Qed.

Lemma from_json_to_json state :
  MessageState.from_json (MessageState.to_json state)
  = Decoded (MessageState.mk (MessageState.message_id state)
      (Message.mk (Message.message_id (MessageState.message state)) (Message.content (MessageState.message state))
         (loads (dumps (Message.metadata (MessageState.message state)))))
      (MessageState.attempt_count state) (MessageState.next_retry_at state) (MessageState.status state)
      (MessageState.created_at state) (MessageState.updated_at state)).
Proof.
  destruct state as [mid [mmid c md] ac nra st ca ua].
  assert (E : (0 <=? Z.of_nat ac)%Z = true) by (apply Z.leb_le; lia).
  unfold MessageState.from_json, MessageState.to_json, MessageState.from_dict, MessageState.to_dict.
  destruct st; simpl; rewrite E, Nat2Z.id; reflexivity.
Qed.

(* ===================================================================== *)
(** * The heap: lemmas                                                    *)
(* ===================================================================== *)

Import heapq.

Lemma entry_ltb_time_le a b : entry_ltb a b = true → (a.1 <= b.1)%Q.
Proof.
  unfold entry_ltb. destruct (a.1 ?= b.1)%Q eqn:E; try done; intros _.
  - apply Qeq_alt in E. rewrite E. apply Qle_refl.
  - apply Qlt_alt in E. by apply Qlt_le_weak.
Qed.

Lemma entry_ltb_false_time_le a b : entry_ltb a b = false → (b.1 <= a.1)%Q.
Proof.
  unfold entry_ltb. destruct (a.1 ?= b.1)%Q eqn:E; try done; intros _.
  - apply Qeq_alt in E. rewrite E. apply Qle_refl.
  - apply Qgt_alt in E. by apply Qlt_le_weak.
Qed.

Lemma extract_min_perm e l :
  (e :: l) ≡ₚ (extract_min e l).1 :: (extract_min e l).2.
Proof.
  revert e. induction l as [|x l IH]; intros e; simpl; [done|].
  specialize (IH x). destruct (extract_min x l) as [m rest]. simpl in *.
  destruct (entry_ltb m e); simpl; [|done].
  rewrite IH. apply Permutation_swap.
Qed.

Lemma extract_min_time_le e l x :
  x ∈ e :: l → ((extract_min e l).1.1 <= x.1)%Q.
Proof.
  revert e x. induction l as [|y l IH]; intros e x Hx; simpl.
  - apply list_elem_of_singleton in Hx as ->. apply Qle_refl.
  - specialize (IH y). destruct (extract_min y l) as [m rest]. simpl in *.
    destruct (entry_ltb m e) eqn:E; simpl.
    + apply elem_of_cons in Hx as [->|Hx]; [by apply entry_ltb_time_le|by apply IH].
    + apply elem_of_cons in Hx as [->|Hx]; [apply Qle_refl|].
      apply entry_ltb_false_time_le in E. specialize (IH x Hx). 
      eapply Qle_trans; eassumption.
Qed.

Lemma top_perm heap e : top heap = Some e → heap ≡ₚ e :: heappop heap.
Proof.
  destruct heap as [|x l]; simpl; [done|]. intros [= <-]. apply extract_min_perm.
Qed.

Lemma top_time_le heap e x : top heap = Some e → x ∈ heap → (e.1 <= x.1)%Q.
Proof.
  destruct heap as [|y l]; simpl; [done|]. intros [= <-]. apply extract_min_time_le.
Qed.

Lemma top_is_Some heap x : x ∈ heap → is_Some (top heap).
Proof. destruct heap; [by intros ?%elem_of_nil|]. simpl. eauto. Qed.

Lemma top_elem heap e : top heap = Some e → e ∈ heap.
Proof. intros H%top_perm. rewrite H. left. Qed.

Lemma heappop_length heap e : top heap = Some e → length heap = S (length (heappop heap)).
Proof. intros H%top_perm. by rewrite H at 1. Qed.

(** ** Keys *)

Lemma length_append (a b : string) :
  String.length (a ++ b) = (String.length a + String.length b)%nat.
Proof.
  induction a as [|c a IH]; [done|].
  change (S (String.length (a ++ b)) = S (String.length a + String.length b)).
  by rewrite IH.
Qed.

Lemma append_inj_r (s a b : string) : a ++ s = b ++ s → a = b.
Proof.
  revert b. induction a as [|c a IH]; intros [|c' b] H.
  - done.
  - apply (f_equal String.length) in H. rewrite !length_append in H.
    cbn [String.length] in H. lia.
  - apply (f_equal String.length) in H. rewrite !length_append in H.
    cbn [String.length] in H. lia.
  - change (String c (a ++ s) = String c' (b ++ s)) in H.
    injection H as -> H. f_equal. by apply IH.
Qed.

Lemma state_key_inj config a b :
  S3PersistenceLayer.state_key config a = S3PersistenceLayer.state_key config b → a = b.
Proof.
  unfold S3PersistenceLayer.state_key. intros H.
  apply String.app_inj in H. apply String.app_inj in H. by apply append_inj_r in H.
Qed.

Lemma namespaces_apart_default bucket_name : namespaces_apart (default_config bucket_name).
Proof. intros stamp id id'. split; intros H; discriminate H. Qed.

Section reasoning.
Variable config : Config.
Variable send_function : SendPort.
Import SMSScheduler.

Lemma newMessage_process self m w :
  newMessage config send_function self m w
  = process config send_function false
      (set_stats (count_intake (stats self))
         (set_message_map
            (<[Message.message_id m := initial_state m (time_time (clock w))]>
               (message_map self)) self))
      (initial_state m (time_time (clock w))) w.
Proof.
  unfold newMessage, process.
  destruct (_attempt_send _ _ _ _) as [[[success state1] self3] w1].
  by destruct success.
Qed.

Lemma wakeup_step_unfold now self w :
  wakeup_step config send_function now self w =
  match heapq.top (retry_heap self) with
  | None => None
  | Some (next_time, message_id) =>
      if QMicromega.Qlt_bool now next_time then None
      else
        match message_map self !! message_id with
        | None => Some (set_retry_heap (heapq.heappop (retry_heap self)) self, w)
        | Some state =>
            if bool_decide (MessageState.status state ≠ PENDING)
            then Some (set_retry_heap (heapq.heappop (retry_heap self)) self, w)
            else Some (process config send_function true (set_retry_heap (heapq.heappop (retry_heap self)) self)
                         state w)
        end
  end.
Proof.
  unfold wakeup_step, process.
  destruct (top _) as [[t id]|]; [|done].
  destruct (QMicromega.Qlt_bool _ _); [done|]. cbn [message_map set_retry_heap].
  destruct (message_map self !! id) as [st|]; [|done].
  destruct (bool_decide _); [done|].
  destruct (_attempt_send _ _ _ _) as [[[success state1] self3] w1].
  destruct success; [by destruct (_handle_success _ _ _ _) as [[? ?] ?]|].
  destruct (_ <=? _)%nat;
    [by destruct (_handle_failure _ _ _ _) as [[? ?] ?]
    |by destruct (_schedule_next_retry _ _ _ _) as [[? ?] ?]].
Qed.

Lemma process_eq check_max self state w :
  let now := time_time (clock w) in
  let id := MessageState.message_id state in
  let st1 := attempted now state in
  let w1 := record_call (the_call state w) w in
  process config send_function check_max self state w =
  match ending_of send_function check_max state w with
  | Delivered =>
      (mk (retry_heap self) (delete id (message_map self)) (running self)
          (count_success (stats self)),
       set_s3 (S3PersistenceLayer.mark_success config id (finished SUCCESS now st1)
                 (clock w) (s3 w)).2 w1)
  | GivenUp =>
      (mk (retry_heap self) (delete id (message_map self)) (running self)
          (count_failure (stats self)),
       set_s3 (S3PersistenceLayer.mark_failed config id (finished FAILED_MAX_RETRIES now st1)
                 (clock w) (s3 w)).2 w1)
  | Retrying =>
      (mk ((MessageState.next_retry_at (scheduled st1), id) :: retry_heap self)
          (<[id := scheduled st1]> (message_map self)) (running self) (stats self),
       set_s3 (S3PersistenceLayer.save_message_state config (scheduled st1)
                 (clock w) (s3 w)).2 w1)
  | Dropped =>
      (mk (retry_heap self) (<[id := st1]> (message_map self)) (running self) (stats self), w1)
  end.
Proof.
  intros now id st1 w1. unfold process, ending_of, _attempt_send.
  assert (Hsame : ∀ o, (match o with
     | Returned success => (success, st1, write_through st1 self, w1)
     | Raised => (false, st1, write_through st1 self, w1) end)
     = (send_result o, st1, write_through st1 self, w1)) by (by intros []).
  fold now. change (record_call _ w) with w1. 
  change (MessageState.set_updated_at now _) with st1.
  rewrite Hsame. clear Hsame.
  destruct (send_result _).
  - unfold _handle_success. simpl.
    destruct (S3PersistenceLayer.mark_success _ _ _ _ _) as [ok s1] eqn:E.
    unfold set_message_map, set_stats, write_through; simpl.
    f_equal. f_equal. by rewrite delete_insert_eq.
  - change (MessageState.attempt_count st1) with (MessageState.attempt_count state + 1)%nat.
    destruct (check_max && _) eqn:Emax.
    + unfold _handle_failure. simpl.
      destruct (S3PersistenceLayer.mark_failed _ _ _ _ _) as [ok s1] eqn:E.
      unfold set_message_map, set_stats, write_through; simpl.
      f_equal. f_equal. by rewrite delete_insert_eq.
    + unfold _schedule_next_retry.
      change (MessageState.attempt_count st1) with (MessageState.attempt_count state + 1)%nat.
      destruct (length _ <=? _)%nat eqn:Elen.
      * unfold write_through, set_message_map. reflexivity.
      * destruct (S3PersistenceLayer.save_message_state _ _ _ _) as [ok s1] eqn:E.
        unfold set_retry_heap, write_through, set_message_map, heappush. simpl.
        f_equal. f_equal. by rewrite insert_insert_eq.
Qed.

(** ** The index is keyed by the ids of its states *)

Lemma index_keyed_init : index_keyed init.
Proof. intros k state. cbn [init message_map]. by rewrite lookup_empty. Qed.

Lemma index_keyed_pop self :
  index_keyed self → index_keyed (set_retry_heap (heapq.heappop (retry_heap self)) self).
Proof. done. Qed.

Lemma process_index_keyed check_max self state w :
  index_keyed self →
  Message.message_id (MessageState.message state) = MessageState.message_id state →
  index_keyed (process config send_function check_max self state w).1.
Proof.
  intros Hk Hm. rewrite process_eq.
  destruct (ending_of _ _ _); intros k st; cbn [fst message_map].
  - intros [_ H]%lookup_delete_Some. by apply Hk.
  - intros [_ H]%lookup_delete_Some. by apply Hk.
  - intros [[<- <-]|[_ H]]%lookup_insert_Some; [done|by apply Hk].
  - intros [[<- <-]|[_ H]]%lookup_insert_Some; [done|by apply Hk].
Qed.

Lemma newMessage_index_keyed self m w :
  index_keyed self → index_keyed (newMessage config send_function self m w).1.
Proof.
  intros Hk. rewrite newMessage_process. apply process_index_keyed; [|done].
  intros k st. cbn [message_map set_stats set_message_map].
  intros [[<- <-]|[_ H]]%lookup_insert_Some; [done|by apply Hk].
Qed.

Lemma wakeup_step_index_keyed now self w r :
  index_keyed self → wakeup_step config send_function now self w = Some r →
  index_keyed r.1.
Proof.
  intros Hk. rewrite wakeup_step_unfold.
  destruct (top _) as [[t id]|]; [|done].
  destruct (QMicromega.Qlt_bool _ _); [done|].
  destruct (message_map self !! id) as [st|] eqn:Est; [|by intros [= <-]].
  destruct (bool_decide _); [by intros [= <-]|].
  intros [= <-]. apply process_index_keyed; [done|].
  destruct (Hk _ _ Est) as [-> ->]. done.
Qed.

Lemma wakeup_loop_invariant (P : t * World → Prop) now :
  (∀ self w r, P (self, w) → wakeup_step config send_function now self w = Some r → P r) →
  ∀ fuel self w, P (self, w) → P (wakeup_loop config send_function fuel now self w).
Proof.
  intros Hstep fuel. induction fuel as [|fuel IH]; intros self w HP; simpl; [done|].
  destruct (wakeup_step _ _ _ _ _) as [[self' w']|] eqn:E; [|done].
  apply IH. by eapply Hstep.
Qed.

(** ** The loop of [wakeup] ends before its fuel does *)

Lemma budget_delete m k state :
  m !! k = Some state → budget m = (attempts_left state + budget (delete k m))%nat.
Proof.
  intros H. unfold budget.
  rewrite (map_fold_delete_L (λ _ st n, attempts_left st + n)%nat 0%nat k state m);
    [done|intros; lia|done].
Qed.

Lemma budget_insert m k state :
  m !! k = None → budget (<[k := state]> m) = (attempts_left state + budget m)%nat.
Proof.
  intros H. unfold budget.
  rewrite (map_fold_insert_L (λ _ st n, attempts_left st + n)%nat 0%nat k state m);
    [done|intros; lia|done].
Qed.

Lemma budget_update m k state state' :
  m !! k = Some state →
  (budget (<[k := state']> m) + attempts_left state
   = budget m + attempts_left state')%nat.
Proof.
  intros H. rewrite <- insert_delete_eq.
  rewrite budget_insert by apply lookup_delete_eq.
  rewrite (budget_delete m k state H). lia.
Qed.

Lemma wakeup_fuel_eq self :
  wakeup_fuel self = (length (retry_heap self) + budget (message_map self))%nat.
Proof. done. Qed.

Lemma wakeup_step_fuel now self w r :
  index_keyed self → wakeup_step config send_function now self w = Some r →
  (wakeup_fuel r.1 < wakeup_fuel self)%nat.
Proof.
  intros Hk. rewrite wakeup_step_unfold.
  destruct (top _) as [[t id]|] eqn:Etop; [|done].
  apply heappop_length in Etop.
  destruct (QMicromega.Qlt_bool _ _); [done|].
  destruct (message_map self !! id) as [st|] eqn:Est;
    [|intros [= <-]; rewrite !wakeup_fuel_eq; cbn [fst retry_heap message_map set_retry_heap]; lia].
  destruct (bool_decide _);
    [intros [= <-]; rewrite !wakeup_fuel_eq; cbn [fst retry_heap message_map set_retry_heap]; lia|].
  intros [= <-]. rewrite process_eq, !wakeup_fuel_eq.
  destruct (Hk _ _ Est) as [Hid _]. rewrite Hid.
  unfold ending_of.
  destruct (send_result _); cbn [fst retry_heap message_map set_retry_heap].
  - rewrite (budget_delete _ _ _ Est). lia.
  - destruct (true && _) eqn:Emax; cbn [fst retry_heap message_map set_retry_heap].
    + rewrite (budget_delete _ _ _ Est). lia.
    + rewrite andb_true_l in Emax. apply Nat.leb_gt in Emax.
      destruct (length _ <=? _)%nat eqn:Elen; cbn [fst retry_heap message_map set_retry_heap].
      * apply Nat.leb_le in Elen. change (length MessageState.RETRY_SCHEDULE) with 6%nat in Elen.
        change MessageState.MAX_ATTEMPTS with 6%nat in Emax. lia.
      * pose proof (budget_update _ _ _ (scheduled (attempted (time_time (clock w)) st)) Est) as Hb.
        unfold attempts_left in Hb at 1 2. cbn [MessageState.attempt_count scheduled attempted
          MessageState.set_next_retry_at MessageState.set_updated_at MessageState.set_attempt_count] in Hb.
        change MessageState.MAX_ATTEMPTS with 6%nat in *. simpl length. lia.
Qed.

Lemma wakeup_loop_exits now fuel self w :
  index_keyed self → (wakeup_fuel self <= fuel)%nat →
  wakeup_step config send_function now
    (wakeup_loop config send_function fuel now self w).1
    (wakeup_loop config send_function fuel now self w).2 = None.
Proof.
  revert self w. induction fuel as [|fuel IH]; intros self w Hk Hf; cbn [wakeup_loop].
  - destruct (wakeup_step config send_function now self w) as [r|] eqn:E; [|done].
    apply wakeup_step_fuel in E; [lia|done].
  - destruct (wakeup_step config send_function now self w) as [[self' w']|] eqn:E; [|done].
    apply IH.
    + by eapply (wakeup_step_index_keyed _ _ _ (self', w')).
    + apply wakeup_step_fuel in E; [simpl in E; lia|done].
Qed.

Lemma wakeup_loop_fuel_irrelevant now fuel self w :
  index_keyed self → (wakeup_fuel self <= fuel)%nat →
  wakeup_loop config send_function fuel now self w
  = wakeup_loop config send_function (wakeup_fuel self) now self w.
Proof.
  remember (wakeup_fuel self) as n eqn:En.
  revert fuel self w En. induction n as [n IH] using lt_wf_ind. intros fuel self w En Hk Hf.
  destruct fuel as [|fuel], n as [|n]; simpl; try done; try lia.
  - destruct (wakeup_step _ _ _ _ _) as [r|] eqn:E; [|done].
    apply wakeup_step_fuel in E; [lia|done].
  - destruct (wakeup_step _ _ _ _ _) as [[self' w']|] eqn:E; [|done].
    pose proof (wakeup_step_fuel _ _ _ _ Hk E) as Hlt. simpl in Hlt.
    pose proof (wakeup_step_index_keyed _ _ _ _ Hk E) as Hk'. simpl in Hk'.
    rewrite (IH (wakeup_fuel self')) by (done || lia).
    symmetry. rewrite (IH (wakeup_fuel self')) by (done || lia). done.
Qed.
(** ** Invariants of whole runs *)

Lemma wakeup_invariant (P : t * World → Prop) self w :
  (∀ self w r, P (self, w) →
     wakeup_step config send_function (time_time (clock w)) self w = Some r → 
     clock r.2 = clock w ∧ P r) →
  P (self, w) → P (wakeup config send_function self w).
Proof.
  intros Hstep HP. unfold wakeup. destruct (negb _); [done|].
  set (now := time_time (clock w)).
  assert (H : ∀ fuel self' w', clock w' = clock w → P (self', w') →
              P (wakeup_loop config send_function fuel now self' w')).
  { intros fuel. induction fuel as [|fuel IH]; intros self' w' Hc HP'; simpl; [done|].
    destruct (wakeup_step _ _ _ _ _) as [[self2 w2]|] eqn:E; [|done].
    unfold now in E. rewrite <- Hc in E.
    destruct (Hstep _ _ _ HP' E) as [Hc2 HP2]. simpl in Hc2.
    apply IH; [congruence|done]. }
  by apply H.
Qed.

Lemma run_invariant (P : t * World → Prop) :
  (∀ self w c m, P (self, w) → P (newMessage config send_function self m (set_clock c w))) →
  (∀ self w c, P (self, w) → P (wakeup config send_function self (set_clock c w))) →
  ∀ evs st, P st → P (run config send_function st evs).
Proof.
  intros Hnew Hwake evs. induction evs as [|ev evs IH]; intros [self w] HP; simpl; [done|].
  apply IH. destruct ev; simpl; auto.
Qed.

(** ** P3 *)

Lemma process_stats check_max self state w :
  stats (process config send_function check_max self state w).1 =
  match ending_of send_function check_max state w with
  | Delivered => count_success (stats self)
  | GivenUp => count_failure (stats self)
  | Retrying | Dropped => stats self
  end.
Proof. rewrite process_eq. by destruct (ending_of send_function _ _ _). Qed.

Lemma process_clock check_max self state w :
  clock (process config send_function check_max self state w).2 = clock w.
Proof. rewrite process_eq. by destruct (ending_of send_function _ _ _). Qed.

Lemma process_running check_max self state w :
  running (process config send_function check_max self state w).1 = running self.
Proof. rewrite process_eq. by destruct (ending_of send_function _ _ _). Qed.

Lemma wakeup_step_clock now self w r :
  wakeup_step config send_function now self w = Some r → clock r.2 = clock w.
Proof.
  rewrite wakeup_step_unfold.
  destruct (heapq.top _) as [[t id]|]; [|done].
  destruct (QMicromega.Qlt_bool _ _); [done|].
  destruct (message_map self !! id) as [st|]; [|by intros [= <-]].
  destruct (bool_decide _); intros [= <-]; [done|apply process_clock].
Qed.

Lemma process_balanced check_max self state w :
  stats_balanced (stats self) → stats_balanced (stats (process config send_function check_max self state w).1).
Proof.
  rewrite process_stats. unfold stats_balanced.
  destruct (ending_of send_function _ _ _); simpl; lia.
Qed.

Lemma newMessage_balanced self m w :
  stats_balanced (stats self) →
  stats_balanced (stats (newMessage config send_function self m w).1).
Proof.
  intros H. rewrite newMessage_process. apply process_balanced.
  unfold stats_balanced in *. simpl. lia.
Qed.

Lemma wakeup_step_balanced now self w r :
  stats_balanced (stats self) →
  wakeup_step config send_function now self w = Some r → stats_balanced (stats r.1).
Proof.
  intros H. rewrite wakeup_step_unfold.
  destruct (heapq.top _) as [[t id]|]; [|done].
  destruct (QMicromega.Qlt_bool _ _); [done|].
  destruct (message_map self !! id) as [st|]; [|by intros [= <-]].
  destruct (bool_decide _); intros [= <-]; [done|by apply process_balanced].
Qed.

Lemma run_balanced st evs :
  stats_balanced (stats st.1) → stats_balanced (stats (run config send_function st evs).1).
Proof.
  apply (run_invariant (λ st, stats_balanced (stats st.1))).
  - intros self w c m H. by apply newMessage_balanced.
  - intros self w c H. apply (wakeup_invariant (λ st, stats_balanced (stats st.1))); [|done].
    intros self' w' r HP E. split; [by eapply wakeup_step_clock|by eapply wakeup_step_balanced].
Qed.

Lemma recover_states_stats now pending self :
  stats (foldl (recover_state now) self pending) = stats self.
Proof.
  revert self. induction pending as [|state pending IH]; intros self; simpl; [done|].
  by rewrite IH.
Qed.

(** ** P2 *)

Lemma process_counts_index check_max self state w :
  is_Some (message_map self !! MessageState.message_id state) →
  in_progress_counts_index self →
  in_progress_counts_index (process config send_function check_max self state w).1.
Proof.
  intros Hst H. unfold in_progress_counts_index in *. rewrite process_eq.
  assert (Hpos : size (message_map self) ≠ 0%nat).
  { destruct Hst as [st Hst]. intros H0%map_size_empty_inv. by rewrite H0 in Hst. }
  destruct (ending_of _ _ _); cbn [fst stats message_map count_success count_failure in_progress].
  - rewrite map_size_delete_Some by done. lia.
  - rewrite map_size_delete_Some by done. lia.
  - by rewrite map_size_insert_Some.
  - by rewrite map_size_insert_Some.
Qed.

Lemma newMessage_counts_index self m w :
  message_map self !! Message.message_id m = None →
  in_progress_counts_index self →
  in_progress_counts_index (newMessage config send_function self m w).1.
Proof.
  intros Hfresh H. rewrite newMessage_process. apply process_counts_index.
  - cbn [message_map set_stats set_message_map initial_state MessageState.message_id].
    rewrite lookup_insert_eq. eauto.
  - unfold in_progress_counts_index in *.
    cbn [message_map set_stats set_message_map stats count_intake in_progress].
    rewrite map_size_insert_None by done. lia.
Qed.

Lemma wakeup_step_counts_index now self w r :
  index_keyed self → in_progress_counts_index self →
  wakeup_step config send_function now self w = Some r →
  in_progress_counts_index r.1.
Proof.
  intros Hk H. rewrite wakeup_step_unfold.
  destruct (heapq.top _) as [[t id]|]; [|done].
  destruct (QMicromega.Qlt_bool _ _); [done|].
  destruct (message_map self !! id) as [st|] eqn:Est; [|by intros [= <-]].
  destruct (bool_decide _); intros [= <-]; [done|].
  apply process_counts_index; [|done].
  destruct (Hk _ _ Est) as [-> _]. cbn [message_map set_retry_heap]. eauto.
Qed.

Lemma wakeup_index_keyed self w :
  index_keyed self → index_keyed (wakeup config send_function self w).1.
Proof.
  intros Hk. apply (wakeup_invariant (λ st, index_keyed st.1)); [|done].
  intros self' w' r HP E. split; [by eapply wakeup_step_clock|by eapply wakeup_step_index_keyed].
Qed.

Lemma wakeup_counts_index self w :
  index_keyed self → in_progress_counts_index self →
  in_progress_counts_index (wakeup config send_function self w).1.
Proof.
  intros Hk H.
  apply (wakeup_invariant (λ st, index_keyed st.1 ∧ in_progress_counts_index st.1)); [|done].
  intros self' w' r [HP1 HP2] E. split; [by eapply wakeup_step_clock|]. split.
  - by eapply wakeup_step_index_keyed.
  - by eapply wakeup_step_counts_index.
Qed.

(** ** P5 *)

Lemma send_times_snoc id calls c :
  send_times id (calls ++ [c])
  = (send_times id calls
     ++ (if decide (Message.message_id (call_message c) = id) then [call_time c] else []))%list.
Proof.
  unfold send_times. rewrite filter_app, fmap_app. f_equal.
  rewrite filter_cons, filter_nil. by destruct (decide _).
Qed.

Lemma entries_of_cons id e heap :
  entries_of id (e :: heap)
  = if decide (e.2 = id) then e :: entries_of id heap else entries_of id heap.
Proof. unfold entries_of. by rewrite filter_cons. Qed.

Lemma entries_of_pop_other id heap t k :
  heapq.top heap = Some (t, k) → k ≠ id →
  entries_of id (heapq.heappop heap) ≡ₚ entries_of id heap.
Proof.
  intros Htop Hne. apply top_perm in Htop. unfold entries_of.
  rewrite Htop at 2. rewrite filter_cons. simpl. by destruct (decide (k = id)).
Qed.

Lemma entries_of_pop_self heap t k x :
  heapq.top heap = Some (t, k) → entries_of k heap = [x] →
  x = (t, k) ∧ entries_of k (heapq.heappop heap) = [].
Proof.
  intros Htop Hx. apply top_perm in Htop.
  assert (Hp : entries_of k heap ≡ₚ (t, k) :: entries_of k (heapq.heappop heap)).
  { unfold entries_of. rewrite Htop at 1. rewrite filter_cons. simpl.
    by rewrite decide_True. }
  rewrite Hx in Hp. symmetry in Hp. apply Permutation_singleton_r in Hp.
  by injection Hp as <- ->.
Qed.

Lemma elem_of_heappop heap e x :
  heapq.top heap = Some e → x ∈ heapq.heappop heap → x ∈ heap.
Proof. intros Htop%top_perm Hx. rewrite Htop. by right. Qed.

Lemma process_sent check_max self state w :
  sent (process config send_function check_max self state w).2 = (sent w ++ [the_call state w])%list.
Proof. rewrite process_eq. by destruct (ending_of send_function _ _ _). Qed.

Lemma process_heap check_max self state w :
  retry_heap (process config send_function check_max self state w).1 =
  match ending_of send_function check_max state w with
  | Retrying =>
      (MessageState.next_retry_at (scheduled (attempted (time_time (clock w)) state)),
       MessageState.message_id state) :: retry_heap self
  | _ => retry_heap self
  end.
Proof. rewrite process_eq. by destruct (ending_of send_function _ _ _). Qed.

Lemma process_map check_max self state w :
  message_map (process config send_function check_max self state w).1 =
  match ending_of send_function check_max state w with
  | Delivered | GivenUp => delete (MessageState.message_id state) (message_map self)
  | Retrying =>
      <[MessageState.message_id state := scheduled (attempted (time_time (clock w)) state)]>
        (message_map self)
  | Dropped =>
      <[MessageState.message_id state := attempted (time_time (clock w)) state]>
        (message_map self)
  end.
Proof. rewrite process_eq. by destruct (ending_of send_function _ _ _). Qed.












(** ** The calls of one intake *)










(** ** The requests of the persistence layer *)

Lemma request_requests r s :
  requests (s3_client.request r s).2 = (requests s ++ [r])%list.
Proof. done. Qed.

Lemma put_object_requests key b now s :
  requests (s3_client.put_object key b now s).2 = (requests s ++ [PutObject key b])%list.
Proof. unfold s3_client.put_object. simpl. by destruct (hd false (faults s)). Qed.

Lemma put_object_ok key b now s :
  (s3_client.put_object key b now s).1 = negb (hd false (faults s)).
Proof. unfold s3_client.put_object. simpl. by destruct (hd false (faults s)). Qed.

Lemma delete_object_requests key s :
  requests (s3_client.delete_object key s).2 = (requests s ++ [DeleteObject key])%list.
Proof. unfold s3_client.delete_object. simpl. by destruct (hd false (faults s)). Qed.

Lemma save_message_state_requests state c s :
  requests (S3PersistenceLayer.save_message_state config state c s).2
  = (requests s
     ++ [PutObject (S3PersistenceLayer.state_key config (MessageState.message_id state))
           (JsonText (MessageState.to_json state))])%list.
Proof. apply put_object_requests. Qed.

Lemma mark_with_requests prefix id state c s :
  requests (S3PersistenceLayer.mark_with config prefix id state c s).2
  = (requests s
     ++ PutObject (S3PersistenceLayer.log_key prefix (utcnow_isoformat c) id)
          (JsonText (MessageState.to_json state))
        :: (if hd false (faults s) then []
            else [DeleteObject (S3PersistenceLayer.state_key config id)]))%list.
Proof.
  unfold S3PersistenceLayer.mark_with.
  pose proof (put_object_requests
    (S3PersistenceLayer.log_key prefix (utcnow_isoformat c) id)
    (JsonText (MessageState.to_json state)) (time_time c) s) as Hr.
  pose proof (put_object_ok
    (S3PersistenceLayer.log_key prefix (utcnow_isoformat c) id)
    (JsonText (MessageState.to_json state)) (time_time c) s) as Hok.
  destruct (s3_client.put_object _ _ _ _) as [ok s1]. simpl in Hr, Hok. subst ok.
  destruct (hd false (faults s)); simpl; [done|].
  unfold S3PersistenceLayer._delete_state. rewrite delete_object_requests, Hr.
  by rewrite <- app_assoc.
Qed.

Lemma process_s3_requests check_max self state w :
  requests (s3 (process config send_function check_max self state w).2)
  = (requests (s3 w) ++ process_requests config send_function check_max state w)%list.
Proof.
  rewrite process_eq. unfold process_requests.
  destruct (ending_of _ _ _); cbn [snd s3 set_s3 record_call].
  - apply mark_with_requests.
  - apply mark_with_requests.
  - by rewrite save_message_state_requests.
  - by rewrite app_nil_r.
Qed.


(** ** One message that never succeeds *)

Lemma process_other_view check_max self state w id :
  MessageState.message_id state ≠ id →
  Message.message_id (MessageState.message state) ≠ id →
  message_map (process config send_function check_max self state w).1 !! id = message_map self !! id
  ∧ entries_of id (retry_heap (process config send_function check_max self state w).1)
    = entries_of id (retry_heap self)
  ∧ send_times id (sent (process config send_function check_max self state w).2) = send_times id (sent w).
Proof.
  intros Hid Hmid. rewrite process_map, process_heap, process_sent, send_times_snoc.
  simpl. rewrite decide_False by done. rewrite app_nil_r.
  destruct (ending_of send_function _ _ _); repeat split;
    rewrite ?lookup_delete_ne, ?lookup_insert_ne by done; try done.
  rewrite entries_of_cons. simpl. by rewrite decide_False.
Qed.

Lemma failure_logged_app m reqs new :
  failure_logged config m reqs → failure_logged config m (reqs ++ new).
Proof.
  intros (stamp & final & Hin & H). exists stamp, final. split; [|done].
  apply elem_of_app. by left.
Qed.

Lemma schedule_le_16 k :
  (nth k MessageState.RETRY_SCHEDULE 0 <= 16)%Q.
Proof.
  do 6 (destruct k as [|k]; [by apply Qle_bool_iff|]).
  destruct k; by apply Qle_bool_iff.
Qed.

Section one_message.
Variable m : Message.t.
Variable t0 : Q.
Variable n0 : nat.
Hypothesis never_succeeds : ∀ calls, send_function calls m ≠ Returned true.

Local Abbreviation id := (Message.message_id m).

Lemma never_succeeds_result calls : send_result (send_function calls m) = false.
Proof.
  specialize (never_succeeds calls).
  by destruct (send_function calls m) as [[]|].
Qed.

Lemma newMessage_on_its_way self w :
  index_keyed self → running self = true →
  entries_of id (retry_heap self) = [] →
  length (send_times id (sent w)) = n0 →
  time_time (clock w) = t0 →
  on_its_way config m t0 n0 (newMessage config send_function self m w).
Proof.
  intros Hk Hrun Hnone Hn0 Ht0. split; [by apply newMessage_index_keyed|].
  rewrite newMessage_process. split; [by rewrite process_running|].
  left. exists 1%nat. unfold retrying.
  rewrite process_map, process_heap, process_sent, send_times_snoc.
  assert (Hend : ∀ st, MessageState.message st = m →
            MessageState.attempt_count st = 0%nat → ending_of send_function false st w = Retrying).
  { intros st Hm Hc. unfold ending_of.
    by rewrite Hm, Hc, never_succeeds_result. }
  rewrite !Hend by done.
  cbn [fst snd message_map retry_heap set_stats set_message_map initial_state
       MessageState.message_id MessageState.message the_call call_message call_time
       scheduled attempted MessageState.set_next_retry_at MessageState.set_updated_at
       MessageState.set_attempt_count MessageState.attempt_count MessageState.created_at
       MessageState.next_retry_at MessageState.status MessageState.updated_at].
  rewrite lookup_insert_eq, decide_True by done. rewrite entries_of_cons. simpl.
  rewrite decide_True by done. rewrite Hnone, length_app, Hn0, Ht0. simpl.
  repeat split; try lia. by eexists.
Qed.

Lemma on_its_way_frame (st r : SMSScheduler.t * World) :
  message_map r.1 !! id = message_map st.1 !! id →
  entries_of id (retry_heap r.1) ≡ₚ entries_of id (retry_heap st.1) →
  send_times id (sent r.2) = send_times id (sent st.2) →
  (∃ new, requests (s3 r.2) = (requests (s3 st.2) ++ new)%list) →
  index_keyed r.1 → running r.1 = true →
  on_its_way config m t0 n0 st →
  on_its_way config m t0 n0 r ∧ (exhausted config m n0 st → exhausted config m n0 r).
Proof.
  intros Hmap Hheap Hsent [new Hreq] Hkr Hrunr (_ & _ & Hphase).
  assert (Hex : exhausted config m n0 st → exhausted config m n0 r).
  { intros (Hin & Hent & Hlen & Hlog). unfold exhausted.
    rewrite Hmap, Hsent, Hreq. rewrite Hent in Hheap.
    apply Permutation_nil_r in Hheap. repeat split; try done.
    by apply failure_logged_app. }
  split; [|done]. split; [done|]. split; [done|].
  destruct Hphase as [[n (Hn & [upd Hin] & Hent & Hlen)]|Hdone]; [|right; by apply Hex].
  left. exists n. unfold retrying. rewrite Hmap, Hsent.
  rewrite Hent in Hheap. apply Permutation_singleton_r in Hheap.
  repeat split; try done; try lia. by eexists.
Qed.

(** One turn of the loop keeps the message on its way, and given up once it
    is given up. *)
Lemma wakeup_step_on_its_way self w r :
  on_its_way config m t0 n0 (self, w) →
  wakeup_step config send_function (time_time (clock w)) self w = Some r →
  on_its_way config m t0 n0 r ∧ (exhausted config m n0 (self, w) → exhausted config m n0 r).
Proof.
  intros (Hk & Hrun & Hphase) Hstep.
  assert (Hk' : index_keyed r.1) by (by eapply wakeup_step_index_keyed).
  revert Hstep. rewrite wakeup_step_unfold.
  destruct (heapq.top _) as [[due k]|] eqn:Etop; [|done].
  destruct (QMicromega.Qlt_bool _ _) eqn:Elt; [done|].
  destruct (decide (k = id)) as [->|Hne].
  - (* the entry of the message *)
    destruct Hphase as [[n (Hn & [upd Hin] & Hent & Hlen)]|(Hin & Hent & Hlen & Hlog)];
      cbn [fst snd] in *.
    2: { apply top_elem in Etop.
         assert (Hmem : (due, id) ∈ entries_of id (retry_heap self))
           by (by apply list_elem_of_filter).
         rewrite Hent in Hmem. by apply elem_of_nil in Hmem. }
    rewrite Hin. rewrite bool_decide_eq_false_2 by (by intros ?).
    destruct (entries_of_pop_self _ _ _ _ Etop Hent) as [_ Hgone].
    intros [= <-]. split; [|intros [Hnot _]; simpl in Hnot; congruence].
    split; [done|]. split; [by rewrite process_running|].
    set (state := MessageState.mk id m n _ PENDING t0 upd) in *.
    assert (Hend : ending_of send_function true state w = if decide (n = 5%nat) then GivenUp else Retrying).
    { unfold ending_of. cbn [state MessageState.message MessageState.attempt_count].
      rewrite never_succeeds_result.
      change MessageState.MAX_ATTEMPTS with 6%nat.
      change (length MessageState.RETRY_SCHEDULE) with 6%nat.
      destruct (decide (n = 5%nat)) as [->|Hn5]; [done|].
      assert (E : (6 <=? n + 1)%nat = false) by (apply Nat.leb_gt; lia).
      by rewrite E. }
    destruct (decide (n = 5%nat)) as [->|Hn5].
    + right. unfold exhausted.
      rewrite process_map, process_heap, process_sent, send_times_snoc,
        process_s3_requests, Hend.
      cbn [fst snd message_map retry_heap set_retry_heap the_call call_message state
           MessageState.message MessageState.message_id].
      rewrite lookup_delete_eq, decide_True by done.
      rewrite length_app, Hlen. simpl.
      repeat split; try done; try lia.
      unfold process_requests. rewrite Hend.
      eexists _, _. split; [apply elem_of_app; right; left|]. done.
    + left. exists (S n). unfold retrying.
      rewrite process_map, process_heap, process_sent, send_times_snoc, Hend.
      subst state.
      unfold scheduled, attempted, MessageState.set_next_retry_at,
        MessageState.set_updated_at, MessageState.set_attempt_count.
      cbn [fst snd message_map retry_heap set_retry_heap the_call call_message
           MessageState.message MessageState.message_id
           MessageState.attempt_count MessageState.created_at
           MessageState.next_retry_at MessageState.status MessageState.updated_at].
      rewrite !Nat.add_1_r.
      rewrite lookup_insert_eq, decide_True by done. rewrite entries_of_cons. cbn [snd].
      rewrite decide_True by done. rewrite Hgone, length_app, Hlen. cbn [length].
      repeat split; try lia. by eexists.
  - (* an entry of another message *)
    assert (Hpop : entries_of id (heapq.heappop (retry_heap self))
                   ≡ₚ entries_of id (retry_heap self))
      by (by eapply entries_of_pop_other).
    assert (Hview : ∀ r : SMSScheduler.t * World,
      (message_map r.1 !! id = message_map self !! id
       ∧ entries_of id (retry_heap r.1) = entries_of id (heapq.heappop (retry_heap self))
       ∧ send_times id (sent r.2) = send_times id (sent w)
       ∧ ∃ new, requests (s3 r.2) = (requests (s3 w) ++ new)%list) →
      index_keyed r.1 → running r.1 = true →
      on_its_way config m t0 n0 r ∧ (exhausted config m n0 (self, w) → exhausted config m n0 r)).
    { intros r' (Hmap & Hheap & Hsent & Hreq) Hkr Hrunr.
      apply (on_its_way_frame (self, w) r'); try done.
      by rewrite Hheap. }
    destruct (message_map self !! k) as [st|] eqn:Est.
    + destruct (bool_decide _).
      * intros [= <-]. apply Hview; [|done|done]. simpl. repeat split. exists []. by rewrite app_nil_r.
      * intros [= <-]. destruct (Hk _ _ Est) as [Hid Hmid].
        destruct (process_other_view true (set_retry_heap (heapq.heappop (retry_heap self)) self)
                    st w id) as (H1 & H2 & H3); [congruence|congruence|].
        apply Hview; [|by apply process_index_keyed; [|congruence]
                      |by rewrite process_running].
        repeat split; try done. rewrite process_s3_requests. by eexists.
    + intros [= <-]. apply Hview; [|done|done]. simpl. repeat split. exists []. by rewrite app_nil_r.
Qed.

Lemma retrying_is_due self w k :
  retrying m t0 n0 k (self, w) →
  (t0 + 16 <= time_time (clock w))%Q →
  wakeup_step config send_function (time_time (clock w)) self w ≠ None.
Proof.
  intros (Hn & _ & Hent & _) Hlate. cbn [fst] in Hent.
  assert (Hmem : ((t0 + nth k MessageState.RETRY_SCHEDULE 0)%Q, id) ∈ retry_heap self).
  { assert (H : ((t0 + nth k MessageState.RETRY_SCHEDULE 0)%Q, id)
                 ∈ entries_of id (retry_heap self)) by (rewrite Hent; left).
    by apply list_elem_of_filter in H as [_ H]. }
  destruct (top_is_Some _ _ Hmem) as [[due k'] Etop].
  pose proof (top_time_le _ _ _ Etop Hmem) as Hle. cbn [fst] in Hle.
  pose proof (schedule_le_16 k) as H16.
  rewrite wakeup_step_unfold, Etop.
  assert (Elt : QMicromega.Qlt_bool (time_time (clock w)) due = false).
  { destruct (QMicromega.Qlt_bool _ _) eqn:E; [|done].
    apply QMicromega.Qlt_bool_iff in E. lra. }
  rewrite Elt. destruct (message_map self !! k'); [|done]. by destruct (bool_decide _).
Qed.

Lemma wakeup_on_its_way self w :
  on_its_way config m t0 n0 (self, w) →
  on_its_way config m t0 n0 (wakeup config send_function self w)
  ∧ (exhausted config m n0 (self, w)
     → exhausted config m n0 (wakeup config send_function self w))
  ∧ ((t0 + 16 <= time_time (clock w))%Q
     → exhausted config m n0 (wakeup config send_function self w)).
Proof.
  intros Hway.
  assert (Hinv : on_its_way config m t0 n0 (wakeup config send_function self w)
                 ∧ (exhausted config m n0 (self, w)
                    → exhausted config m n0 (wakeup config send_function self w))).
  { apply (wakeup_invariant
             (λ st, on_its_way config m t0 n0 st
                    ∧ (exhausted config m n0 (self, w) → exhausted config m n0 st)));
      [|done].
    intros self' w' r [Hw He] E. split; [by eapply wakeup_step_clock|].
    destruct (wakeup_step_on_its_way _ _ _ Hw E) as [Hw' He']. auto. }
  destruct Hinv as [Hw He]. split; [done|]. split; [done|].
  intros Hlate. destruct Hway as (Hk & Hrun & _).
  pose proof (wakeup_loop_exits (time_time (clock w)) (wakeup_fuel self) self w Hk
                (Nat.le_refl _)) as Hexit.
  assert (Heq : wakeup config send_function self w
                = wakeup_loop config send_function (wakeup_fuel self)
                    (time_time (clock w)) self w).
  { unfold wakeup. cbn [fst] in Hrun. by rewrite Hrun. }
  rewrite <- Heq in Hexit.
  assert (Hclock : clock (wakeup config send_function self w).2 = clock w).
  { apply (wakeup_invariant (λ st, clock st.2 = clock w)); [|done].
    intros self' w' r Hc E. split; [by eapply wakeup_step_clock|].
    rewrite <- Hc. by eapply wakeup_step_clock. }
  destruct (wakeup config send_function self w) as [self' w'] eqn:Ew.
  destruct Hw as (_ & _ & [[k Hretry]|Hdone]); [|done].
  exfalso. cbn [fst snd] in *.
  apply (retrying_is_due self' w' k Hretry); rewrite Hclock; done.
Qed.

Lemma newMessage_other_on_its_way self w m' :
  Message.message_id m' ≠ id →
  on_its_way config m t0 n0 (self, w) →
  on_its_way config m t0 n0 (newMessage config send_function self m' w)
  ∧ (exhausted config m n0 (self, w)
     → exhausted config m n0 (newMessage config send_function self m' w)).
Proof.
  intros Hne Hway. pose proof Hway as (Hk & Hrun & _). cbn [fst] in Hk, Hrun.
  apply (on_its_way_frame (self, w)); try done;
    rewrite ?newMessage_process.
  - destruct (process_other_view false
      (set_stats (count_intake (stats self))
         (set_message_map
            (<[Message.message_id m' := initial_state m' (time_time (clock w))]>
               (message_map self)) self))
      (initial_state m' (time_time (clock w))) w id) as (H1 & H2 & H3); [done|done|].
    rewrite H1. cbn [message_map set_stats set_message_map fst].
    by rewrite lookup_insert_ne.
  - destruct (process_other_view false
      (set_stats (count_intake (stats self))
         (set_message_map
            (<[Message.message_id m' := initial_state m' (time_time (clock w))]>
               (message_map self)) self))
      (initial_state m' (time_time (clock w))) w id) as (H1 & H2 & H3); [done|done|].
    by rewrite H2.
  - destruct (process_other_view false
      (set_stats (count_intake (stats self))
         (set_message_map
            (<[Message.message_id m' := initial_state m' (time_time (clock w))]>
               (message_map self)) self))
      (initial_state m' (time_time (clock w))) w id) as (H1 & H2 & H3); [done|done|].
    by rewrite H3.
  - rewrite process_s3_requests. by eexists.
  - by apply newMessage_index_keyed.
  - by rewrite process_running.
Qed.

Lemma on_its_way_set_clock self w c :
  on_its_way config m t0 n0 (self, w) → on_its_way config m t0 n0 (self, set_clock c w).
Proof. done. Qed.

Lemma run_on_its_way evs : ∀ st,
  on_its_way config m t0 n0 st →
  (∀ id', id' ∈ intake_ids evs → id' ≠ id) →
  on_its_way config m t0 n0 (run config send_function st evs)
  ∧ (exhausted config m n0 st
     ∨ Exists (λ ev, match ev with
                     | Tick c => (t0 + 16 <= time_time c)%Q
                     | Intake _ _ => False
                     end) evs
     → exhausted config m n0 (run config send_function st evs)).
Proof.
  induction evs as [|ev evs IH]; intros [self w] Hway Hids.
  - split; [done|]. intros [H|H]; [done|]. by apply Exists_nil in H.
  - change (run config send_function (self, w) (ev :: evs)) with (run config send_function (step config send_function (self, w) ev) evs).
    assert (Hstep : on_its_way config m t0 n0 (step config send_function (self, w) ev)
              ∧ (exhausted config m n0 (self, w) → exhausted config m n0 (step config send_function (self, w) ev))
              ∧ (match ev with
                 | Tick c => (t0 + 16 <= time_time c)%Q
                 | Intake _ _ => False
                 end → exhausted config m n0 (step config send_function (self, w) ev))).
    { destruct ev as [c m'|c]; cbn [step fst snd].
      - destruct (newMessage_other_on_its_way self (set_clock c w) m') as [H1 H2].
        + apply Hids. cbn [intake_ids omap]. left.
        + done.
        + split; [done|]. split; [done|]. done.
      - destruct (wakeup_on_its_way self (set_clock c w)) as (H1 & H2 & H3); [done|].
        split; [done|]. split; [done|]. done. }
    destruct Hstep as (H1 & H2 & H3).
    destruct (IH (step config send_function (self, w) ev) H1) as [H4 H5].
    { intros id' Hin. apply Hids. destruct ev; cbn [intake_ids omap]; [by right|done]. }
    split; [done|]. intros [Hdone|Hex]; apply H5.
    + left. by apply H2.
    + apply Exists_cons in Hex as [Hev|Hex]; [left; by apply H3|by right].
Qed.
End one_message.
(** ** A message delivered at its first attempt *)

Lemma never_saved_app id reqs1 reqs2 :
  never_saved config id reqs1 → never_saved config id reqs2 →
  never_saved config id (reqs1 ++ reqs2).
Proof.
  intros H1 H2 b [Hin|Hin]%elem_of_app; [by apply (H1 b)|by apply (H2 b)].
Qed.

Lemma process_requests_never_saved check_max state w id :
  namespaces_apart config →
  MessageState.message_id state ≠ id →
  never_saved config id (process_requests config send_function check_max state w).
Proof.
  intros Hapart Hne b. unfold process_requests.
  assert (Herase : PutObject (S3PersistenceLayer.state_key config id) b
            ∉ (if hd false (faults (s3 w)) then []
               else [DeleteObject (S3PersistenceLayer.state_key config
                                     (MessageState.message_id state))])).
  { destruct (hd false (faults (s3 w))); [by intros ?%elem_of_nil|].
    by intros ?%list_elem_of_singleton. }
  destruct (ending_of _ _ _ _).
  - intros [H|H]%elem_of_cons; [|done]. injection H as H _.
    by destruct (Hapart (utcnow_isoformat (clock w)) id (MessageState.message_id state)).
  - intros [H|H]%elem_of_cons; [|done]. injection H as H _.
    by destruct (Hapart (utcnow_isoformat (clock w)) id (MessageState.message_id state)).
  - intros H%list_elem_of_singleton. injection H as H _.
    by apply state_key_inj in H.
  - by intros ?%elem_of_nil.
Qed.

Section left_alone.
Variable id : string.
Variable base : list S3Request.
Hypothesis apart : namespaces_apart config.

Lemma process_left_alone check_max self state w :
  left_alone config id base (self, w) →
  MessageState.message_id state ≠ id →
  Message.message_id (MessageState.message state) = MessageState.message_id state →
  left_alone config id base (process config send_function check_max self state w).
Proof.
  intros (Hk & Hnone & later & Hreq & Hnever) Hne Hmid. cbn [fst snd] in *.
  destruct (process_other_view check_max self state w id)
    as (H1 & _ & _); [done|congruence|].
  split; [by apply process_index_keyed|]. split; [by rewrite H1|].
  exists (later ++ process_requests config send_function check_max state w)%list.
  rewrite process_s3_requests, Hreq, <- app_assoc. split; [done|].
  apply never_saved_app; [done|by apply process_requests_never_saved].
Qed.

Lemma newMessage_left_alone self m w :
  Message.message_id m ≠ id →
  left_alone config id base (self, w) →
  left_alone config id base (newMessage config send_function self m w).
Proof.
  intros Hne (Hk & Hnone & Hlater). cbn [fst snd] in *.
  rewrite newMessage_process. apply process_left_alone; [|done|done].
  split; [|split; [|done]]; cbn [fst message_map set_stats set_message_map].
  - intros k st. cbn [fst message_map set_stats set_message_map].
    intros [[<- <-]|[_ H]]%lookup_insert_Some; [done|by apply Hk].
  - by rewrite lookup_insert_ne.
Qed.

Lemma wakeup_step_left_alone now self w r :
  left_alone config id base (self, w) →
  wakeup_step config send_function now self w = Some r →
  left_alone config id base r.
Proof.
  intros Hleft. pose proof Hleft as (Hk & Hnone & Hlater). cbn [fst snd] in *.
  rewrite wakeup_step_unfold.
  destruct (heapq.top _) as [[due k]|]; [|done].
  destruct (QMicromega.Qlt_bool _ _); [done|].
  destruct (message_map self !! k) as [st|] eqn:Est; [|by intros [= <-]].
  destruct (bool_decide _); intros [= <-]; [done|].
  destruct (Hk _ _ Est) as [Hid Hmid].
  apply process_left_alone; [done| |congruence].
  rewrite Hid. intros ->. congruence.
Qed.

Lemma wakeup_left_alone self w :
  left_alone config id base (self, w) →
  left_alone config id base (wakeup config send_function self w).
Proof.
  intros Hleft. apply (wakeup_invariant (left_alone config id base)); [|done].
  intros self' w' r HP E. split; [by eapply wakeup_step_clock|].
  by eapply wakeup_step_left_alone.
Qed.

Lemma run_left_alone evs : ∀ st,
  left_alone config id base st →
  (∀ id', id' ∈ intake_ids evs → id' ≠ id) →
  left_alone config id base (run config send_function st evs).
Proof.
  induction evs as [|ev evs IH]; intros [self w] Hleft Hids; [done|].
  change (run config send_function (self, w) (ev :: evs))
    with (run config send_function (step config send_function (self, w) ev) evs).
  apply IH.
  - destruct ev as [c m|c]; cbn [step fst snd].
    + apply newMessage_left_alone; [|done]. apply Hids. cbn [intake_ids omap]. left.
    + by apply wakeup_left_alone.
  - intros id' Hin. apply Hids. destruct ev; cbn [intake_ids omap]; [by right|done].
Qed.
End left_alone.
End reasoning.

Section recovery.
Variable config : Config.
Import SMSScheduler.

(** ** Recovery *)

Lemma bucket_get_unique (o : S3Object) (b : list S3Object) :
  NoDup (Key <$> b) → o ∈ b → s3_client.bucket_get (Key o) b = Some o.
Proof.
  unfold s3_client.bucket_get. induction b as [|x b IH]; intros Hnd Hin.
  - by apply elem_of_nil in Hin.
  - rewrite fmap_cons in Hnd. apply NoDup_cons in Hnd as [Hx Hnd]. simpl.
    destruct (String.eqb (Key x) (Key o)) eqn:E.
    + apply String.eqb_eq in E. apply elem_of_cons in Hin as [->|Hin]; [done|].
      exfalso. apply Hx. rewrite E. by apply list_elem_of_fmap_2.
    + apply elem_of_cons in Hin as [->|Hin]; [by rewrite String.eqb_refl in E|].
      by apply IH.
Qed.

Lemma omap_cons {A B} (f : A → option B) (x : A) (l : list A) :
  omap f (x :: l) = match f x with Some y => y :: omap f l | None => omap f l end.
Proof. done. Qed.

Lemma drop_S_tl {A} (n : nat) (l : list A) : drop (S n) l = drop n (tl l).
Proof. by destruct l; [destruct n|]. Qed.

Lemma load_page_objects_spec objs : ∀ states s,
  (∀ o, o ∈ objs → s3_client.bucket_get (Key o) (bucket s) = Some o) →
  Forall typed_record objs →
  S3PersistenceLayer.load_page_objects objs states s
  = Some ((states ++ omap fetched (zip objs (flags (length objs) (faults s))))%list,
          after_gets objs s).
Proof.
  induction objs as [|o objs IH]; intros states s Hget Htyped.
  - simpl. rewrite app_nil_r. unfold after_gets. simpl. rewrite app_nil_r, drop_0.
    by destruct s.
  - apply Forall_cons in Htyped as [Ho Htyped].
    cbn [S3PersistenceLayer.load_page_objects].
    unfold s3_client.get_object. cbn [s3_client.request fst snd].
    assert (Hafter : ∀ s1, bucket s1 = bucket s → faults s1 = tl (faults s) →
              requests s1 = (requests s ++ [GetObject (Key o)])%list →
              after_gets objs s1 = after_gets (o :: objs) s).
    { intros s1 Hb Hf Hr. unfold after_gets. rewrite Hb, Hf, Hr. f_equal.
      - cbn [length]. by rewrite drop_S_tl.
      - rewrite fmap_cons, <- app_assoc. reflexivity. }
    assert (Hget' : ∀ s1, bucket s1 = bucket s → ∀ o', o' ∈ objs →
              s3_client.bucket_get (Key o') (bucket s1) = Some o').
    { intros s1 -> o' Hin. apply Hget. by right. }
    cbn [length flags zip zip_with]. rewrite omap_cons.
    destruct (hd false (faults s)) eqn:Efault.
    + rewrite IH; [|by apply Hget'|done]. cbn [fetched snd faults]. f_equal. f_equal.
      by apply Hafter.
    + cbn [bucket faults]. rewrite (Hget o) by left. cbn [fmap option_fmap option_map].
      unfold fetched at 1. cbn [fst snd]. unfold pending_record.
      unfold typed_record in Ho.
      destruct (Body o) as [|j].
      * rewrite IH; [|by apply Hget'|done]. cbn [faults]. f_equal. f_equal. by apply Hafter.
      * destruct (MessageState.from_json j) as [state| |]; [| |done].
        -- destruct (bool_decide _).
           ++ rewrite IH; [|by apply Hget'|done]. cbn [faults]. rewrite <- app_assoc.
              f_equal. f_equal. by apply Hafter.
           ++ rewrite IH; [|by apply Hget'|done]. cbn [faults]. f_equal. f_equal.
              by apply Hafter.
        -- rewrite IH; [|by apply Hget'|done]. cbn [faults]. f_equal. f_equal.
           by apply Hafter.
Qed.

Lemma flags_nil n : flags n [] = repeat false n.
Proof. induction n as [|n IH]; [done|]. simpl. by rewrite IH. Qed.

Lemma omap_fetched_healthy objs :
  omap fetched (zip objs (repeat false (length objs))) = omap pending_record objs.
Proof.
  induction objs as [|o objs IH]; [done|].
  cbn [length repeat zip zip_with]. rewrite !omap_cons, IH. done.
Qed.



Lemma readable_cons s page pages :
  readable s (concat (page :: pages)) → readable s page ∧ readable s (concat pages).
Proof.
  intros [Hget Htyped]. cbn [concat] in *. apply Forall_app in Htyped as [H1 H2].
  repeat split; try done; intros o Ho; apply Hget, elem_of_app; auto.
Qed.

Lemma readable_bucket s s' objs : bucket s' = bucket s → readable s objs → readable s' objs.
Proof. intros Hb [Hget Htyped]. split; [|done]. by rewrite Hb. Qed.


(** The enumeration on a service that does not fail. *)
Lemma load_pages_healthy pages : ∀ states s,
  faults s = [] →
  readable s (concat pages) →
  ∃ s',
    S3PersistenceLayer.load_pages config pages states s
    = Some ((states ++ omap pending_record (concat pages))%list, s')
    ∧ bucket s' = bucket s.
Proof.
  induction pages as [|page pages IH]; intros states s Hf Hread.
  - exists s. by rewrite app_nil_r.
  - apply readable_cons in Hread as [Hpage Hrest].
    cbn [S3PersistenceLayer.load_pages s3_client.request]. rewrite Hf. cbn [hd tl].
    destruct page as [|o page].
    + destruct (IH states
          {| bucket := bucket s; faults := [];
             requests := (requests s
                          ++ [ListObjectsV2 (S3_STATE_PREFIX config) None])%list |})
        as (s' & Hload & Hb); [done|by eapply readable_bucket|].
      exists s'. by split.
    + destruct Hpage as [Hget Htyped].
      rewrite load_page_objects_spec by done. cbn [faults].
      rewrite flags_nil, omap_fetched_healthy.
      destruct (IH (states ++ omap pending_record (o :: page))%list
          (after_gets (o :: page)
             {| bucket := bucket s; faults := [];
                requests := (requests s
                             ++ [ListObjectsV2 (S3_STATE_PREFIX config) None])%list |}))
        as (s' & Hload & Hb);
        [unfold after_gets; cbn [faults]; by rewrite drop_nil|by eapply readable_bucket|].
      exists s'. split; [|done]. rewrite Hload. f_equal. f_equal.
      cbn [concat]. by rewrite omap_app, app_assoc.
Qed.



Lemma concat_chunks fuel : ∀ l : list S3Object,
  (length l <= fuel)%nat → concat (s3_client.chunks fuel l) = l.
Proof.
  induction fuel as [|fuel IH]; intros l Hlen.
  - destruct l; [done|simpl in Hlen; lia].
  - destruct l as [|o l]; [done|].
    cbn [s3_client.chunks concat]. rewrite IH.
    + apply take_drop.
    + rewrite length_drop. unfold s3_client.page_size. simpl in *. lia.
Qed.

Lemma concat_paginate prefix s :
  concat (s3_client.paginate prefix s) = s3_client.under_prefix prefix (bucket s).
Proof.
  unfold s3_client.paginate.
  destruct (s3_client.under_prefix prefix (bucket s)) as [|o l] eqn:E; [done|].
  by apply concat_chunks.
Qed.



Lemma readable_listing s prefix :
  NoDup (Key <$> bucket s) →
  Forall typed_record (s3_client.under_prefix prefix (bucket s)) →
  readable s (s3_client.under_prefix prefix (bucket s)).
Proof.
  intros Hnd Htyped. split; [|done]. intros o Ho.
  apply bucket_get_unique; [done|]. unfold s3_client.under_prefix in Ho.
  by apply list_elem_of_filter in Ho as [_ Ho].
Qed.

(** ** The folds of recovery *)

Lemma recover_states_fold now pending : ∀ self,
  let self' := foldl (recover_state now) self pending in
  message_map self'
  = foldl (λ m state, <[MessageState.message_id state := state]> m) (message_map self)
      (adjusted now <$> pending)
  ∧ retry_heap self'
    = (reverse (heap_entry <$> (adjusted now <$> pending)) ++ retry_heap self)%list
  ∧ running self' = running self.
Proof.
  induction pending as [|state pending IH]; intros self; [done|].
  cbn [foldl fmap list_fmap]. rewrite reverse_cons.
  destruct (IH (recover_state now self state)) as (H1 & H2 & H3).
  cbv zeta. rewrite H1, H2, H3. repeat split. by rewrite <- app_assoc.
Qed.

Lemma adjusted_message_id now state :
  MessageState.message_id (adjusted now state) = MessageState.message_id state.
Proof. unfold adjusted. by destruct (QMicromega.Qlt_bool _ _). Qed.

End recovery.

(** ** The recent records *)

Lemma elem_of_insert_by_last_modified x o l :
  x ∈ insert_by_last_modified o l ↔ x = o ∨ x ∈ l.
Proof.
  induction l as [|y l IH]; simpl.
  - rewrite list_elem_of_singleton, elem_of_nil. tauto.
  - destruct (Qle_bool _ _).
    + by rewrite elem_of_cons.
    + rewrite !elem_of_cons, IH. tauto.
Qed.

Lemma elem_of_sorted_last_modified_desc x l :
  x ∈ sorted_last_modified_desc l ↔ x ∈ l.
Proof.
  unfold sorted_last_modified_desc. induction l as [|y l IH]; simpl; [done|].
  by rewrite elem_of_insert_by_last_modified, elem_of_cons, IH.
Qed.

Lemma fetch_documents_healthy objs : ∀ results s,
  faults s = [] →
  (∀ o, o ∈ objs → s3_client.bucket_get (Key o) (bucket s) = Some o) →
  (S3PersistenceLayer.fetch_documents objs results s).1
  = (results ++ omap document objs)%list.
Proof.
  induction objs as [|o objs IH]; intros results s Hf Hget.
  - simpl. by rewrite app_nil_r.
  - cbn [S3PersistenceLayer.fetch_documents]. unfold s3_client.get_object.
    cbn [s3_client.request]. rewrite Hf. cbn [hd tl bucket].
    rewrite (Hget o) by left. cbn [fmap option_fmap option_map].
    rewrite omap_cons. unfold document at 1.
    destruct (Body o) as [|j].
    + rewrite IH; [done|done|]. intros o' Ho'. apply Hget. by right.
    + rewrite IH; [by rewrite <- app_assoc|done|]. intros o' Ho'. apply Hget. by right.
Qed.

(** On a service that does not fail, [_get_recent_from_prefix] reads the
    objects of the first [limit] keys under the prefix, in key order, and
    returns their documents from the last modified to the first. *)
Lemma get_recent_reads_first_keys prefix limit s :
  faults s = [] → NoDup (Key <$> bucket s) →
  (S3PersistenceLayer._get_recent_from_prefix prefix limit s).1
  = omap document
      (take limit
         (sorted_last_modified_desc
            (take (Nat.min limit s3_client.page_size)
               (s3_client.under_prefix prefix (bucket s))))).
Proof.
  intros Hf Hnd. unfold S3PersistenceLayer._get_recent_from_prefix,
    s3_client.list_objects_v2. cbn [s3_client.request]. rewrite Hf. cbn [hd bucket].
  destruct (take _ (s3_client.under_prefix prefix (bucket s))) as [|o l] eqn:E.
  - by destruct limit.
  - rewrite fetch_documents_healthy; [done|done|].
    intros o' Ho'. apply bucket_get_unique; [done|]. cbn [bucket].
    apply (proj1 (elem_of_take _ _ _)) in Ho' as (i & Ho' & _).
    apply list_elem_of_lookup_2 in Ho'.
    apply (proj1 (elem_of_sorted_last_modified_desc _ _)) in Ho'. rewrite <- E in Ho'.
    apply (proj1 (elem_of_take _ _ _)) in Ho' as (i' & Ho' & _).
    apply list_elem_of_lookup_2 in Ho'. unfold s3_client.under_prefix in Ho'.
    by apply list_elem_of_filter in Ho' as [_ Ho'].
Qed.


(* ===================================================================== *)
(** * The properties of the specification                                 *)
(* ===================================================================== *)

(** C1.  A message for which the send function never returns true (it
    returns false or raises) is taken in on a running scheduler that has no
    heap entry for its id.  After any further intakes of other ids and any
    ticks, one of them at a clock that is 16 s or more past the intake, the
    send function has been called exactly six times for it, its id is in
    neither the index nor the heap, and its last state went to the failure
    log with status FAILED_MAX_RETRIES and [attempt_count = 6]. *)
Theorem all_attempts_fail_exhausts
    (config : Config) (send_function : SendPort) (self : SMSScheduler.t) (w : World)
    (c0 : Clock) (m : Message.t) (evs : list Event) :
  index_keyed self →
  SMSScheduler.running self = true →
  entries_of (Message.message_id m) (SMSScheduler.retry_heap self) = [] →
  (∀ calls, send_function calls m ≠ Returned true) →
  (∀ id, id ∈ intake_ids evs → id ≠ Message.message_id m) →
  Exists (λ ev, match ev with
                | Tick c => (time_time c0 + 16 <= time_time c)%Q
                | Intake _ _ => False
                end) evs →
  let r := run config send_function (self, w) (Intake c0 m :: evs) in
  length (send_times (Message.message_id m) (sent r.2))
  = (length (send_times (Message.message_id m) (sent w)) + 6)%nat
  ∧ SMSScheduler.message_map r.1 !! Message.message_id m = None
  ∧ entries_of (Message.message_id m) (SMSScheduler.retry_heap r.1) = []
  ∧ failure_logged config m (requests (s3 r.2)).
Proof.
  intros Hk Hrun Hnone Hnever Hids Hlate r.
  set (n0 := length (send_times (Message.message_id m) (sent w))).
  assert (Hway : on_its_way config m (time_time c0) n0
                   (SMSScheduler.newMessage config send_function self m (set_clock c0 w))).
  { by apply newMessage_on_its_way. }
  destruct (run_on_its_way config send_function m (time_time c0) n0 Hnever evs _ Hway Hids)
    as [_ Hdone].
  destruct Hdone as (H1 & H2 & H3 & H4); [by right|].
  done.
Qed.

Lemma all_attempts_fail_exhausts_witness :
  let r :=
    run example_config never_delivers
      (SMSScheduler.set_running true SMSScheduler.init, empty_world)
      [Intake (clock_at 1000 "a") m2; Tick (clock_at (2001 # 2) "b");
       Tick (clock_at 1016 "c")] in
  length (send_times "m2" (sent r.2)) = 6%nat
  ∧ SMSScheduler.message_map r.1 !! "m2" = None
  ∧ entries_of "m2" (SMSScheduler.retry_heap r.1) = []
  ∧ failure_logged example_config m2 (requests (s3 r.2)).
Proof.
  apply (all_attempts_fail_exhausts example_config never_delivers
           (SMSScheduler.set_running true SMSScheduler.init) empty_world
           (clock_at 1000 "a") m2
           [Tick (clock_at (2001 # 2) "b"); Tick (clock_at 1016 "c")]).
  - exact index_keyed_init.
  - reflexivity.
  - reflexivity.
  - intros calls H. discriminate H.
  - intros id H. by apply elem_of_nil in H.
  - apply Exists_cons. right. apply Exists_cons. left.
    by apply Qle_bool_iff.
Defined.

(** C6.  One call of [_attempt_send] adds exactly one to [attempt_count] and
    sets [updated_at] to the clock, whether the send function returns true,
    returns false or raises; what it returns is the boolean of the send
    function, and [false] when the send function raised, the exception not
    leaving [_attempt_send].  The other fields of the state are untouched,
    the index holds the updated state, and the call is on record. *)
Theorem attempt_send_counts_every_outcome
    (send_function : SendPort) (self : SMSScheduler.t) (state : MessageState.t)
    (w : World) :
  let outcome := send_function (sent w) (MessageState.message state) in
  let '(success, state1, self1, w1) :=
    SMSScheduler._attempt_send send_function self state w in
  MessageState.attempt_count state1 = (MessageState.attempt_count state + 1)%nat
  ∧ MessageState.updated_at state1 = time_time (clock w)
  ∧ match outcome with
    | Returned true => success = true
    | Returned false => success = false
    | Raised => success = false
    end
  ∧ state1 = attempted (time_time (clock w)) state
  ∧ SMSScheduler.message_map self1 !! MessageState.message_id state = Some state1
  ∧ sent w1 = (sent w ++ [the_call state w])%list.
Proof.
  unfold SMSScheduler._attempt_send. cbv zeta.
  destruct (send_function (sent w) (MessageState.message state)) as [[]|];
    cbn [SMSScheduler.write_through SMSScheduler.set_message_map
         SMSScheduler.message_map];
    rewrite lookup_insert_eq; repeat split.
Qed.

(** C2.  On a state whose attempt has just failed and whose attempt count,
    already incremented, is below [MAX_ATTEMPTS], [_schedule_next_retry] sets
    [next_retry_at] to [created_at + RETRY_SCHEDULE[attempt_count]], pushes
    [(next_retry_at, message_id)] onto the retry heap, and leaves the state
    PENDING; the index holds the rescheduled state. *)
Theorem schedule_next_retry_from_created_at
    (config : Config) (self : SMSScheduler.t) (state : MessageState.t) (w : World)
    (delay : Q) :
  (MessageState.attempt_count state < MessageState.MAX_ATTEMPTS)%nat →
  MessageState.status state = PENDING →
  MessageState.RETRY_SCHEDULE !! MessageState.attempt_count state = Some delay →
  let '(state1, self1, w1) := SMSScheduler._schedule_next_retry config self state w in
  MessageState.next_retry_at state1 = (MessageState.created_at state + delay)%Q
  ∧ SMSScheduler.retry_heap self1
    = heapq.heappush (SMSScheduler.retry_heap self)
        (MessageState.next_retry_at state1, MessageState.message_id state)
  ∧ MessageState.status state1 = PENDING
  ∧ MessageState.attempt_count state1 = MessageState.attempt_count state
  ∧ MessageState.created_at state1 = MessageState.created_at state
  ∧ SMSScheduler.message_map self1 !! MessageState.message_id state = Some state1.
Proof.
  intros Hlt Hst Hdelay. unfold SMSScheduler._schedule_next_retry.
  change MessageState.MAX_ATTEMPTS with 6%nat in Hlt.
  assert (Hguard : (length MessageState.RETRY_SCHEDULE
                    <=? MessageState.attempt_count state)%nat = false)
    by (apply Nat.leb_gt; exact Hlt).
  rewrite Hguard.
  destruct (S3PersistenceLayer.save_message_state _ _ _ _) as [ok s1].
  assert (Hnth : nth (MessageState.attempt_count state) MessageState.RETRY_SCHEDULE 0%Q
                 = delay) by (by apply nth_lookup_Some with (d := 0%Q) in Hdelay).
  rewrite Hnth.
  cbn [SMSScheduler.write_through SMSScheduler.set_message_map
       SMSScheduler.set_retry_heap SMSScheduler.message_map SMSScheduler.retry_heap
       MessageState.set_next_retry_at MessageState.next_retry_at
       MessageState.message_id MessageState.status MessageState.attempt_count
       MessageState.created_at].
  rewrite lookup_insert_eq. repeat split; done.
Qed.

Lemma schedule_next_retry_from_created_at_witness :
  let state := attempted 1000 (initial_state (Message.mk "m2" "hi" PyNone) 1000) in
  let w := {| clock := {| time_time := 1000; utcnow_isoformat := "T" |};
              s3 := {| bucket := []; faults := []; requests := [] |};
              sent := [] |} in
  let '(state1, self1, _) :=
    SMSScheduler._schedule_next_retry (default_config "b") SMSScheduler.init state w in
  MessageState.next_retry_at state1 = (1000 + (1 # 2))%Q
  ∧ SMSScheduler.retry_heap self1 = [((1000 + (1 # 2))%Q, "m2")].
Proof.
  pose proof (schedule_next_retry_from_created_at (default_config "b")
                SMSScheduler.init
                (attempted 1000 (initial_state (Message.mk "m2" "hi" PyNone) 1000))
                {| clock := {| time_time := 1000; utcnow_isoformat := "T" |};
                   s3 := {| bucket := []; faults := []; requests := [] |};
                   sent := [] |}
                (1 # 2)%Q) as H.
  cbv zeta.
  destruct (SMSScheduler._schedule_next_retry _ _ _ _) as [[state1 self1] w1].
  destruct H as (H1 & H2 & _); [vm_compute; lia|reflexivity|reflexivity|].
  split; [exact H1|]. rewrite H2, H1. reflexivity.
Defined.

(** C3, as stated, fails.  A first session takes [m2] in and leaves its
    pending record in the bucket; a new scheduler is then started on that
    bucket.  Recovery counts the record in [in_progress] and in no other
    counter. *)
Lemma stats_unbalanced_after_recovery :
  let w1 :=
    (run example_config never_delivers (SMSScheduler.init, empty_world)
       [Intake (clock_at 1000 "2024-01-01T00:16:40.000000") m2]).2 in
  match SMSScheduler.start example_config SMSScheduler.init
          (set_clock (clock_at 2000 "2024-01-01T00:33:20.000000") w1) with
  | Some (self, _) =>
      SMSScheduler.stats self
      = {| total_messages := 0; total_success := 0; total_failed := 0;
           in_progress := 1 |}
      ∧ ¬ stats_balanced (SMSScheduler.stats self)
  | None => False
  end.
Proof.
  vm_compute. split; [reflexivity|]. intros H. discriminate H.
Qed.

(** C3, amended.  [newMessage] and [wakeup] keep
    [total_messages = total_success + total_failed + in_progress]: it holds
    at every quiescent point of a run of intakes and ticks that starts where
    it holds, as it does in a new scheduler.  [start] leaves
    [total_messages], [total_success] and [total_failed] as they are, so
    after it the equation holds exactly when recovery has not changed
    [in_progress]. *)
Theorem stats_balanced_by_intake_and_tick
    (config : Config) (send_function : SendPort) (self : SMSScheduler.t)
    (w : World) (evs : list Event) :
  stats_balanced (SMSScheduler.stats self) →
  stats_balanced (SMSScheduler.stats (run config send_function (self, w) evs).1)
  ∧ match SMSScheduler.start config self w with
    | Some (self', _) =>
        total_messages (SMSScheduler.stats self')
        = total_messages (SMSScheduler.stats self)
        ∧ total_success (SMSScheduler.stats self')
          = total_success (SMSScheduler.stats self)
        ∧ total_failed (SMSScheduler.stats self')
          = total_failed (SMSScheduler.stats self)
        ∧ (stats_balanced (SMSScheduler.stats self')
           ↔ in_progress (SMSScheduler.stats self')
             = in_progress (SMSScheduler.stats self))
    | None => True
    end.
Proof.
  intros Hb. split; [by apply run_balanced|].
  unfold SMSScheduler.start.
  destruct (SMSScheduler.running self); [done|].
  unfold SMSScheduler._recover_from_s3.
  destruct (S3PersistenceLayer.load_all_pending_states _ _) as [[pending s1]|]; [|done].
  cbn [SMSScheduler.stats SMSScheduler.set_running SMSScheduler.set_stats
       total_messages total_success total_failed in_progress].
  rewrite recover_states_stats.
  repeat split; unfold stats_balanced in *;
    cbn [total_messages total_success total_failed in_progress]; lia.
Qed.

Lemma stats_balanced_by_intake_and_tick_witness :
  stats_balanced
    (SMSScheduler.stats
       (run example_config never_delivers
          (SMSScheduler.set_running true SMSScheduler.init, empty_world)
          [Intake (clock_at 1000 "a") m2; Tick (clock_at 1001 "b")]).1).
Proof.
  apply (stats_balanced_by_intake_and_tick example_config never_delivers
           (SMSScheduler.set_running true SMSScheduler.init) empty_world).
  reflexivity.
Defined.

(** C4, as stated, fails: the same message taken in twice is one entry of
    the index and two in [in_progress]. *)
Lemma in_progress_leaks_on_duplicate_intake :
  let self :=
    (run example_config never_delivers
       (SMSScheduler.set_running true SMSScheduler.init, empty_world)
       [Intake (clock_at 1000 "a") m2; Intake (clock_at 1000 "a") m2]).1 in
  in_progress (SMSScheduler.stats self) = 2%Z
  ∧ size (SMSScheduler.message_map self) = 1%nat
  ∧ ¬ in_progress_counts_index self.
Proof.
  vm_compute. repeat split. intros H. discriminate H.
Qed.

(** C4, amended.  After any sequence of intake and tick events in which no
    message_id is taken in while it is in the index, [in_progress] is the
    number of entries of the index. *)
Theorem in_progress_counts_index_when_fresh
    (config : Config) (send_function : SendPort) (self : SMSScheduler.t)
    (w : World) (evs : list Event) :
  index_keyed self →
  in_progress_counts_index self →
  intakes_fresh config send_function (self, w) evs →
  in_progress_counts_index (run config send_function (self, w) evs).1.
Proof.
  revert self w. induction evs as [|ev evs IH]; intros self w Hk Hc Hf; [done|].
  destruct Hf as [Hev Hf].
  change (run config send_function (self, w) (ev :: evs))
    with (run config send_function (step config send_function (self, w) ev) evs).
  destruct (step config send_function (self, w) ev) as [self' w'] eqn:E.
  apply IH; [| |done]; destruct ev as [c m|c]; cbn [step fst snd] in E.
  - replace self' with (SMSScheduler.newMessage config send_function self m (set_clock c w)).1
      by (by rewrite E). by apply newMessage_index_keyed.
  - replace self' with (SMSScheduler.wakeup config send_function self (set_clock c w)).1
      by (by rewrite E). by apply wakeup_index_keyed.
  - replace self' with (SMSScheduler.newMessage config send_function self m (set_clock c w)).1
      by (by rewrite E). by apply newMessage_counts_index.
  - replace self' with (SMSScheduler.wakeup config send_function self (set_clock c w)).1
      by (by rewrite E). by apply wakeup_counts_index.
Qed.

Lemma in_progress_counts_index_when_fresh_witness :
  in_progress_counts_index
    (run example_config never_delivers
       (SMSScheduler.set_running true SMSScheduler.init, empty_world)
       [Intake (clock_at 1000 "a") m2; Tick (clock_at 1001 "b");
        Intake (clock_at 1001 "b") (Message.mk "m3" "again" PyNone)]).1.
Proof.
  apply in_progress_counts_index_when_fresh.
  - apply index_keyed_init.
  - reflexivity.
  - vm_compute. repeat split.
Defined.






(** The discard, on a run of the code.  The listing of [crowded_bucket]
    takes two pages.  When no request fails, the pending record of the first
    page is loaded.  When the listing request of the second page fails,
    after the first page has been read without a failure, nothing is
    loaded. *)
Lemma recovery_discards_the_first_page :
  length (s3_client.paginate "state" (s3 (crowded_world []))) = 2%nat
  ∧ fst <$> S3PersistenceLayer.load_all_pending_states example_config
              (s3 (crowded_world []))
    = Some [crowded_state]
  ∧ fst <$> S3PersistenceLayer.load_all_pending_states example_config
              (s3 (crowded_world (repeat false (S s3_client.page_size) ++ [true])))
    = Some [].
Proof. split; [|split]; by vm_compute. Qed.

(** C8.  The code at a failing input.  Three messages are delivered at
    1000, 1001 and 1002; the success log holds their three records, whose
    keys are in the order of their times.  [get_recent_success(2)] asks the
    service for two keys and is given the first two in key order, the two
    oldest records: it returns [b] and [a], and not [c] and [b], the two
    records modified last. *)
Theorem recent_success_misses_the_newest :
  (λ o, (Key o, LastModified o))
    <$> s3_client.under_prefix "success" (bucket (s3 three_delivered))
  = [("success/2024-01-01T00:16:40.000000_a.json", 1000%Q);
     ("success/2024-01-01T00:16:41.000000_b.json", 1001%Q);
     ("success/2024-01-01T00:16:42.000000_c.json", 1002%Q)]
  ∧ document_id <$> (SMSScheduler.get_recent_success example_config 2 three_delivered).1
    = [Some "b"; Some "a"].
Proof. split; reflexivity. Qed.

(** C9, as stated, fails: [from_json] does not give [tuple_state] back from
    its JSON text.  The tuple [(1, 2)] is written as the array [[1, 2]] and
    read as the list [[1, 2]]: the state that comes back holds a list where
    [tuple_state] holds a tuple, and in Python a list is not [==] to a
    tuple.  [from_dict] does give [tuple_state] back from its dict. *)
Lemma roundtrip_json_tuple_counterexample :
  MessageState.from_dict (MessageState.to_dict tuple_state) = Decoded tuple_state
  ∧ MessageState.from_json (MessageState.to_json tuple_state)
    = Decoded (MessageState.mk "m1"
                 (Message.mk "m1" "hi" (PyDict [("tags", PyList [PyInt 1; PyInt 2])]))
                 1 1000 PENDING 1000 1000)
  ∧ MessageState.from_json (MessageState.to_json tuple_state) ≠ Decoded tuple_state.
Proof.
  split; [reflexivity|]. split; [reflexivity|].
  intros H. discriminate H.
Qed.

(** C9, amended.  The numbers of the model are the integers and the finite
    floats; not-a-number, which is not [==] to itself, is outside of it.  On
    these states, [from_dict] gives back every state from its [to_dict],
    whatever its metadata; and [from_json] gives back from its [to_json]
    every state whose metadata is a value that JSON denotes exactly: built
    from None, booleans, numbers, strings, lists and dicts, without tuples.
    The state that comes back is the state itself, field by field, and so
    [==] to it. *)
Theorem roundtrip_json_exact (state : MessageState.t) :
  MessageState.from_dict (MessageState.to_dict state) = Decoded state
  ∧ (json_exact (Message.metadata (MessageState.message state)) = true →
     MessageState.from_json (MessageState.to_json state) = Decoded state).
Proof.
  split; [apply from_dict_to_dict|]. intros Hexact.
  rewrite from_json_to_json, (loads_dumps _ Hexact).
  by destruct state as [? [] ? ? ? ? ?].
Qed.

Lemma roundtrip_json_exact_witness :
  let state :=
    MessageState.mk "m1"
      (Message.mk "m1" "hi"
         (PyDict [("bulk_index", PyInt 3); ("tags", PyList [PyStr "a"; PyNone])]))
      2 1002 PENDING 1000 (2001 # 2) in
  MessageState.from_dict (MessageState.to_dict tuple_state) = Decoded tuple_state
  ∧ MessageState.from_json (MessageState.to_json state) = Decoded state.
Proof.
  cbv zeta. split.
  - exact (proj1 (roundtrip_json_exact tuple_state)).
  - apply roundtrip_json_exact. reflexivity.
Defined.

(** C10.  A message whose first attempt, made by [newMessage], succeeds: the
    requests that [newMessage] sends to the store are the put to the success
    log and, when that put did not fail, the delete of the pending key; the
    id is out of the index.  In whatever follows, ticks and intakes of other
    ids, no request writes the pending record of that id:
    [save_message_state] is not called for it.  The key spaces of the logs
    and of the pending records are taken to be apart, as the default
    prefixes make them. *)
Theorem first_success_writes_no_pending_record
    (config : Config) (send_function : SendPort) (self : SMSScheduler.t) (w : World)
    (c0 : Clock) (m : Message.t) (evs : list Event) :
  namespaces_apart config →
  index_keyed self →
  send_function (sent w) m = Returned true →
  (∀ id, id ∈ intake_ids evs → id ≠ Message.message_id m) →
  let id := Message.message_id m in
  let now := time_time c0 in
  let final := finished SUCCESS now (attempted now (initial_state m now)) in
  let r1 := SMSScheduler.newMessage config send_function self m (set_clock c0 w) in
  let r := run config send_function r1 evs in
  requests (s3 r1.2)
  = (requests (s3 w)
     ++ PutObject (S3PersistenceLayer.log_key (S3_SUCCESS_PREFIX config)
                     (utcnow_isoformat c0) id)
          (JsonText (MessageState.to_json final))
        :: (if hd false (faults (s3 w)) then []
            else [DeleteObject (S3PersistenceLayer.state_key config id)]))%list
  ∧ SMSScheduler.message_map r1.1 !! id = None
  ∧ SMSScheduler.message_map r.1 !! id = None
  ∧ ∃ news, requests (s3 r.2) = (requests (s3 w) ++ news)%list
            ∧ never_saved config id news.
Proof.
  intros Hapart Hk Hsend Hids id now final r1 r.
  assert (Hend : ending_of send_function false (initial_state m now) (set_clock c0 w)
                 = Delivered).
  { unfold ending_of. cbn [initial_state MessageState.message sent set_clock].
    by rewrite Hsend. }
  assert (Hreq : requests (s3 r1.2)
    = (requests (s3 w)
       ++ PutObject (S3PersistenceLayer.log_key (S3_SUCCESS_PREFIX config)
                       (utcnow_isoformat c0) id)
            (JsonText (MessageState.to_json final))
          :: (if hd false (faults (s3 w)) then []
              else [DeleteObject (S3PersistenceLayer.state_key config id)]))%list).
  { unfold r1. rewrite newMessage_process, process_s3_requests.
    unfold process_requests. cbn [clock set_clock time_time]. fold now.
    by rewrite Hend. }
  assert (Hgone : SMSScheduler.message_map r1.1 !! id = None).
  { unfold r1. rewrite newMessage_process, process_map.
    cbn [clock set_clock time_time]. fold now. rewrite Hend.
    apply lookup_delete_eq. }
  assert (Hleft : left_alone config id (requests (s3 w)) r1).
  { split; [by apply newMessage_index_keyed|]. split; [done|].
    eexists. split; [exact Hreq|].
    intros b [H|H]%elem_of_cons.
    - injection H as H _. by destruct (Hapart (utcnow_isoformat c0) id id).
    - destruct (hd false (faults (s3 w))); [by apply elem_of_nil in H|].
      by apply list_elem_of_singleton in H. }
  split; [done|]. split; [done|].
  destruct (run_left_alone config send_function id (requests (s3 w)) Hapart evs r1 Hleft Hids)
    as (_ & H1 & H2).
  done.
Qed.

Lemma first_success_writes_no_pending_record_witness :
  let r1 :=
    SMSScheduler.newMessage example_config always_delivers
      (SMSScheduler.set_running true SMSScheduler.init)
      (Message.mk "m1" "hi" PyNone) (set_clock (clock_at 1000 "a") empty_world) in
  let r :=
    run example_config always_delivers r1
      [Tick (clock_at (2001 # 2) "b"); Intake (clock_at 1001 "c") m2;
       Tick (clock_at 1002 "d")] in
  SMSScheduler.message_map r1.1 !! "m1" = None
  ∧ never_saved example_config "m1" (requests (s3 r.2)).
Proof.
  destruct (first_success_writes_no_pending_record example_config always_delivers
              (SMSScheduler.set_running true SMSScheduler.init) empty_world
              (clock_at 1000 "a") (Message.mk "m1" "hi" PyNone)
              [Tick (clock_at (2001 # 2) "b"); Intake (clock_at 1001 "c") m2;
               Tick (clock_at 1002 "d")])
    as (_ & Hgone & _ & news & Hreq & Hnever).
  - apply namespaces_apart_default.
  - exact index_keyed_init.
  - reflexivity.
  - intros id ->%list_elem_of_singleton. done.
  - split; [exact Hgone|]. cbv zeta. rewrite Hreq. exact Hnever.
Defined.

(* ===================================================================== *)
(** * Further properties of the code                                      *)
(* ===================================================================== *)

Import SMSScheduler.

(** ** models.py: records read back from their JSON text *)

Lemma dict_get_dict_set k k' v (d : list (string * pyvalue)) :
  dict_get k' (dict_set k v d) = if String.eqb k' k then Some v else dict_get k' d.
Proof.
  induction d as [|[k0 x] d IH]; simpl.
  - done.
  - destruct (String.eqb k k0) eqn:E; simpl.
    + apply String.eqb_eq in E. subst k0. by destruct (String.eqb k' k).
    + rewrite IH. destruct (String.eqb k' k0) eqn:E0; [|done].
      apply String.eqb_eq in E0. subst k0.
      destruct (String.eqb k' k) eqn:E1; [|done].
      apply String.eqb_eq in E1. subst k'. by rewrite String.eqb_refl in E.
Qed.

Lemma distinct_keys_dict_set k v d :
  distinct_keys d = true → distinct_keys (dict_set k v d) = true.
Proof.
  induction d as [|[k0 x] d IH]; simpl; [done|].
  destruct (dict_get k0 d) eqn:E0; [done|]. intros Hd.
  destruct (String.eqb k k0) eqn:E; simpl.
  - by rewrite E0.
  - rewrite dict_get_dict_set, E0.
    destruct (String.eqb k0 k) eqn:E1; [|by apply IH].
    apply String.eqb_eq in E1. subst k0. by rewrite String.eqb_refl in E.
Qed.

Lemma values_exact_dict_set k v d :
  json_exact v = true →
  forallb (λ kv : string * pyvalue, let '(_, x) := kv in json_exact x) d = true →
  forallb (λ kv : string * pyvalue, let '(_, x) := kv in json_exact x) (dict_set k v d) = true.
Proof.
  intros Hv. induction d as [|[k0 x] d IH]; simpl.
  - by rewrite Hv.
  - intros [Hx Hd]%andb_true_iff. destruct (String.eqb k k0); simpl.
    + by rewrite Hv.
    + by rewrite Hx, IH.
Qed.

Lemma dict_of_pairs_exact kvs :
  Forall (λ kv : string * pyvalue, json_exact kv.2 = true) kvs →
  json_exact (PyDict (dict_of_pairs kvs)) = true.
Proof.
  unfold dict_of_pairs.
  assert (Hgen : ∀ acc, json_exact (PyDict acc) = true →
            Forall (λ kv : string * pyvalue, json_exact kv.2 = true) kvs →
            json_exact (PyDict (fold_left (λ d kv, dict_set kv.1 kv.2 d) kvs acc)) = true).
  { induction kvs as [|[k v] kvs IH]; intros acc Hacc Hall; simpl; [done|].
    apply Forall_cons in Hall as [Hv Hall]. apply IH; [|done].
    simpl in Hacc |- *. apply andb_true_iff in Hacc as [H1 H2].
    by rewrite distinct_keys_dict_set, values_exact_dict_set. }
  by apply Hgen.
Qed.

(** What [json.loads] returns is a value that JSON denotes exactly. *)
Lemma loads_exact j : json_exact (loads j) = true.
Proof.
  induction j as [| | | | |l IH|d IH] using json_nested_ind; simpl; try done.
  - induction IH as [|x l Hx Hl IHl]; simpl; [done|]. by rewrite Hx, IHl.
  - apply (dict_of_pairs_exact (map (λ kv, let '(k, x) := kv in (k, loads x)) d)).
    induction IH as [|[k x] d Hx Hl IHl]; simpl; [done|]. by constructor.
Qed.

Lemma dict_get_exact k d v :
  json_exact (PyDict d) = true → dict_get k d = Some v → json_exact v = true.
Proof.
  simpl. intros [_ H]%andb_true_iff. induction d as [|[k0 x] d IH]; simpl in *; [done|].
  apply andb_true_iff in H as [Hx Hd].
  destruct (String.eqb k k0); [by intros [= <-]|by apply IH].
Qed.

Lemma Message_from_dict_exact data m :
  json_exact data = true → Message.from_dict data = Decoded m →
  json_exact (Message.metadata m) = true.
Proof.
  intros Hexact. destruct data as [| | | | | | |d]; try done. simpl.
  destruct (negb (forallb Message.known_field d)); [done|].
  destruct (dict_get "message_id" d) as [[]|]; try done;
  destruct (dict_get "content" d) as [[]|]; try done.
  intros [= <-]. simpl.
  destruct (dict_get "metadata" d) as [v|] eqn:E; [|done].
  by apply (dict_get_exact "metadata" d).
Qed.

Lemma from_dict_exact data state :
  json_exact data = true → MessageState.from_dict data = Decoded state →
  json_exact (Message.metadata (MessageState.message state)) = true.
Proof.
  intros Hexact. destruct data as [| | | | | | |d]; try done.
  unfold MessageState.from_dict.
  destruct (dict_get "message_id" d) as [mid|]; [|done].
  destruct (dict_get "message" d) as [msg|] eqn:Emsg; [|done].
  destruct (dict_get "attempt_count" d) as [ac|]; [|done].
  destruct (dict_get "next_retry_at" d) as [nra|]; [|done].
  destruct (dict_get "status" d) as [stv|]; [|done].
  destruct (dict_get "created_at" d) as [ca|]; [|done].
  destruct (dict_get "updated_at" d) as [ua|]; [|done].
  destruct (Message.from_dict msg) as [m| |] eqn:Em;
    destruct (MessageStatus.of_value stv) as [s|]; try done.
  destruct (MessageState.as_str mid), (MessageState.as_count ac),
    (MessageState.as_float nra), (MessageState.as_float ca),
    (MessageState.as_float ua); try done.
  intros [= <-]. simpl.
  apply (Message_from_dict_exact msg); [|done].
  by apply (dict_get_exact "message" d).
Qed.

(** X1.  A state that [from_json] has read from any JSON text is written by
    [to_json] to a text from which [from_json] reads the same state again:
    what has been decoded once survives every further round trip. *)
Theorem from_json_reencodes (j : json) (state : MessageState.t) :
  MessageState.from_json j = Decoded state →
  MessageState.from_json (MessageState.to_json state) = Decoded state.
Proof.
  intros Hdec.
  assert (Hexact : json_exact (Message.metadata (MessageState.message state)) = true)
    by (apply (from_dict_exact (loads j)); [apply loads_exact|exact Hdec]).
  rewrite from_json_to_json, (loads_dumps _ Hexact).
  by destruct state as [? [] ? ? ? ? ?].
Qed.

Lemma from_json_reencodes_witness :
  MessageState.from_json (MessageState.to_json m2_state) = Decoded m2_state.
Proof.
  apply (from_json_reencodes (MessageState.to_json m2_state)). reflexivity.
Defined.

Lemma eqb_not_elem (k k' : string) (l : list string) :
  k ∉ l → k' ∈ l → String.eqb k' k = false.
Proof.
  intros Hk Hk'. destruct (String.eqb k' k) eqn:E; [|done].
  apply String.eqb_eq in E. by subst k'.
Qed.

(** X2.  [MessageState.from_dict] reads the seven fields by name and
    ignores any other key of the record, whereas a key of the embedded
    message that is no field of [Message] makes it raise: [Message.from_dict]
    passes every key to the constructor. *)
Theorem unknown_keys_of_a_record
    (d dm : list (string * pyvalue)) (k k' : string) (v : pyvalue) :
  k ∉ state_fields →
  k' ∉ message_fields →
  MessageState.from_dict (PyDict (dict_set k v d)) = MessageState.from_dict (PyDict d)
  ∧ MessageState.from_dict (PyDict (dict_set "message" (PyDict (dict_set k' v dm)) d))
    = DecodeRaises.
Proof.
  intros Hk Hk'. split.
  - unfold MessageState.from_dict. rewrite !dict_get_dict_set.
    rewrite !(eqb_not_elem k _ state_fields Hk); [done|unfold state_fields; set_solver..].
  - assert (Hm : Message.from_dict (PyDict (dict_set k' v dm)) = DecodeRaises).
    { simpl. replace (forallb Message.known_field (dict_set k' v dm)) with false; [done|].
      symmetry. apply not_true_is_false. intros Hall.
      rewrite forallb_forall in Hall.
      assert (Hin : In (k', v) (dict_set k' v dm)).
      { clear. induction dm as [|[k0 x] dm IH]; simpl; [by left|].
        destruct (String.eqb k' k0) eqn:E; [|by right].
        apply String.eqb_eq in E. subst k0. by left. }
      specialize (Hall _ Hin). unfold Message.known_field in Hall. simpl in Hall.
      apply Hk'. unfold message_fields.
      apply orb_true_iff in Hall as [[H|H]%orb_true_iff|H];
        apply String.eqb_eq in H; subst k'; set_solver. }
    unfold MessageState.from_dict. rewrite !dict_get_dict_set. simpl String.eqb.
    cbv iota. rewrite Hm.
    by repeat (match goal with |- context [dict_get ?a ?b] => destruct (dict_get a b) end).
Qed.

Lemma unknown_keys_of_a_record_witness :
  let d := [("message_id", PyStr "m2"); ("message", Message.to_dict m2);
            ("attempt_count", PyInt 1); ("next_retry_at", PyFloat (2001 # 2));
            ("status", PyStr "PENDING"); ("created_at", PyFloat 1000);
            ("updated_at", PyFloat 1000)] in
  let dm := [("message_id", PyStr "m2"); ("content", PyStr "hello")] in
  MessageState.from_dict (PyDict (dict_set "priority" (PyInt 7) d))
  = MessageState.from_dict (PyDict d)
  ∧ MessageState.from_dict
      (PyDict (dict_set "message" (PyDict (dict_set "priority" (PyInt 7) dm)) d))
    = DecodeRaises.
Proof.
  cbv zeta. apply unknown_keys_of_a_record.
  - unfold state_fields. intros H.
    repeat (apply elem_of_cons in H as [H|H]; [discriminate H|]).
    by apply elem_of_nil in H.
  - unfold message_fields. intros H.
    repeat (apply elem_of_cons in H as [H|H]; [discriminate H|]).
    by apply elem_of_nil in H.
Defined.

(** ** models.py and scheduler.py: the next retry time *)

(** X3.  [_schedule_next_retry] and [calculate_next_retry_time] agree.  When
    the latter gives a time, the former sets [next_retry_at] to it and pushes
    it with the id onto the heap; when the latter gives [None], the attempts
    being used up, the former returns at once: the state, the scheduler and
    the store are left as they are. *)
Theorem schedule_agrees_with_calculate_next_retry_time
    (config : Config) (self : t) (state : MessageState.t) (w : World) :
  match MessageState.calculate_next_retry_time state with
  | Some due =>
      let '(state1, self1, w1) := _schedule_next_retry config self state w in
      MessageState.next_retry_at state1 = due
      ∧ retry_heap self1 = (due, MessageState.message_id state) :: retry_heap self
      ∧ MessageState.calculate_next_retry_time state1 = Some due
  | None => _schedule_next_retry config self state w = (state, self, w)
  end.
Proof.
  unfold MessageState.calculate_next_retry_time, _schedule_next_retry.
  change (length MessageState.RETRY_SCHEDULE) with MessageState.MAX_ATTEMPTS.
  destruct (MessageState.MAX_ATTEMPTS <=? MessageState.attempt_count state)%nat eqn:E; [done|].
  destruct (S3PersistenceLayer.save_message_state _ _ _ _) as [ok s1].
  cbn [retry_heap set_retry_heap heapq.heappush MessageState.next_retry_at
       MessageState.set_next_retry_at MessageState.attempt_count
       MessageState.created_at MessageState.message_id].
  by rewrite E.
Qed.

(** ** scheduler.py: ticks, and what the store and the index decide *)

Section delivery.
Variable config : Config.
Variable send_function : SendPort.

Lemma wakeup_running self w :
  running (wakeup config send_function self w).1 = running self.
Proof.
  apply (wakeup_invariant config send_function (λ st, running st.1 = running self)); [|done].
  intros s1 w1 r Hs Hstep. split; [by apply (wakeup_step_clock config send_function) in Hstep|].
  rewrite wakeup_step_unfold in Hstep.
  destruct (heapq.top (retry_heap s1)) as [[nt mid]|]; [|done].
  destruct (QMicromega.Qlt_bool _ nt); [done|].
  destruct (message_map s1 !! mid) as [st|]; [|by injection Hstep as <-].
  destruct (bool_decide _); [by injection Hstep as <-|].
  injection Hstep as <-. by rewrite process_running.
Qed.

Lemma wakeup_clock self w : clock (wakeup config send_function self w).2 = clock w.
Proof.
  apply (wakeup_invariant config send_function (λ st, clock st.2 = clock w)); [|done].
  intros s1 w1 r Hs Hstep.
  apply (wakeup_step_clock config send_function) in Hstep. split; [done|]. simpl in *. congruence.
Qed.

Lemma wakeup_exits self w :
  index_keyed self → running self = true →
  wakeup_step config send_function (time_time (clock w))
    (wakeup config send_function self w).1 (wakeup config send_function self w).2 = None.
Proof.
  intros Hk Hrun. unfold wakeup. rewrite Hrun. simpl.
  by apply wakeup_loop_exits.
Qed.

Lemma wakeup_heap_not_due (self : t) (w : World) :
  index_keyed self → running self = true →
  ∀ e, e ∈ retry_heap (wakeup config send_function self w).1 →
       (time_time (clock w) < e.1)%Q.
Proof.
  intros Hk Hrun e He. pose proof (wakeup_exits self w Hk Hrun) as Hexit.
  rewrite wakeup_step_unfold in Hexit.
  destruct (heapq.top _) as [[nt mid]|] eqn:Etop.
  - destruct (QMicromega.Qlt_bool _ nt) eqn:Elt.
    + apply QMicromega.Qlt_bool_iff in Elt.
      pose proof (top_time_le _ _ _ Etop He) as Hle. simpl in Hle.
      eapply Qlt_le_trans; eauto.
    + destruct (message_map _ !! mid); [|done]. by destruct (bool_decide _).
  - destruct (top_is_Some _ _ He) as [x Hx]. congruence.
Qed.

(** X4.  A second [wakeup] at the same reading of the clock does nothing:
    the first one has attended to every entry that was due, those it pushed
    itself included. *)
Theorem wakeup_twice_is_wakeup_once (self : t) (w : World) :
  index_keyed self →
  let r := wakeup config send_function self w in
  wakeup config send_function r.1 r.2 = r.
Proof.
  intros Hk r. destruct (running self) eqn:Hrun.
  - pose proof (wakeup_exits self w Hk Hrun) as Hexit. fold r in Hexit.
    unfold wakeup at 1. unfold r at 1. rewrite wakeup_running, Hrun. simpl.
    unfold r at 2. rewrite wakeup_clock. fold r.
    destruct (wakeup_fuel r.1); simpl; [by destruct r|]. rewrite Hexit. by destruct r.
  - subst r. unfold wakeup. rewrite Hrun. simpl. by rewrite Hrun.
Qed.

(** X5.  After [stop], ticks do nothing, however many and whatever the
    clock: the scheduler keeps its heap, its index and its counters, the send
    function is not called and the store gets no request. *)
Theorem stopped_scheduler_ignores_ticks (self : t) (w : World) (evs : list Event) :
  forallb is_tick evs = true →
  let r := run config send_function (stop self, w) evs in
  r.1 = stop self ∧ s3 r.2 = s3 w ∧ sent r.2 = sent w.
Proof.
  revert w. induction evs as [|[c m|c] evs IH]; intros w Hall; simpl in *; [done|done|].
  unfold wakeup. simpl. destruct (IH (set_clock c w) Hall) as (H1 & H2 & H3). done.
Qed.

Lemma process_same_delivery check_max self state w s' :
  (process config send_function check_max self state (set_s3 s' w)).1
  = (process config send_function check_max self state w).1
  ∧ ∃ s'', (process config send_function check_max self state (set_s3 s' w)).2
           = set_s3 s'' (process config send_function check_max self state w).2.
Proof.
  pose proof (process_eq config send_function check_max self state w) as H1.
  pose proof (process_eq config send_function check_max self state (set_s3 s' w)) as H2.
  cbv zeta in H1, H2. rewrite H1, H2.
  change (ending_of send_function check_max state (set_s3 s' w))
    with (ending_of send_function check_max state w).
  destruct (ending_of send_function check_max state w); (split; [reflexivity|]);
    eexists; unfold set_s3, record_call; simpl; reflexivity.
Qed.

Lemma wakeup_loop_same_delivery now fuel : ∀ self w s',
  (wakeup_loop config send_function fuel now self (set_s3 s' w)).1
  = (wakeup_loop config send_function fuel now self w).1
  ∧ ∃ s'', (wakeup_loop config send_function fuel now self (set_s3 s' w)).2
           = set_s3 s'' (wakeup_loop config send_function fuel now self w).2.
Proof.
  induction fuel as [|fuel IH]; intros self w s'; simpl.
  - split; [done|]. by exists s'.
  - rewrite !wakeup_step_unfold.
    destruct (heapq.top (retry_heap self)) as [[nt mid]|]; [|split; [done|by exists s']].
    destruct (QMicromega.Qlt_bool now nt); [split; [done|by exists s']|].
    destruct (message_map self !! mid) as [st|]; [|apply IH].
    destruct (bool_decide _); [apply IH|].
    destruct (process_same_delivery true (set_retry_heap (heapq.heappop (retry_heap self)) self) st w s')
      as [E1 [s'' E2]].
    destruct (process config send_function true _ st (set_s3 s' w)) as [p1 p2].
    destruct (process config send_function true _ st w) as [q1 q2].
    simpl in E1, E2. subst p1 p2. apply IH.
Qed.

(** X6.  The store has no influence on delivery.  Whatever the bucket holds
    and whichever requests the service fails, a run of intakes and ticks
    makes the same calls of the send function and leaves the same heap,
    index and counters: [newMessage] and [wakeup] catch every exception of
    the persistence layer and read nothing from the store. *)
Theorem store_does_not_affect_delivery (self : t) (w : World) (s' : S3) (evs : list Event) :
  let r := run config send_function (self, w) evs in
  let r' := run config send_function (self, set_s3 s' w) evs in
  r'.1 = r.1 ∧ sent r'.2 = sent r.2 ∧ clock r'.2 = clock r.2.
Proof.
  cbv zeta. revert self w s'. induction evs as [|ev evs IH]; intros self w s'; simpl; [done|].
  assert (Hstep : (step config send_function (self, set_s3 s' w) ev).1
                  = (step config send_function (self, w) ev).1
                  ∧ ∃ s'', (step config send_function (self, set_s3 s' w) ev).2
                           = set_s3 s'' (step config send_function (self, w) ev).2).
  { destruct ev as [c m|c]; simpl.
    - rewrite !newMessage_process.
      apply (process_same_delivery false _ _ (set_clock c w) s').
    - unfold wakeup. destruct (negb (running self)); [split; [done|by exists s']|].
      apply (wakeup_loop_same_delivery _ _ self (set_clock c w) s'). }
  destruct Hstep as [E1 [s'' E2]].
  destruct (step config send_function (self, set_s3 s' w) ev) as [p1 p2].
  destruct (step config send_function (self, w) ev) as [q1 q2].
  simpl in E1, E2. subst p1 p2. apply IH.
Qed.

Lemma wakeup_step_other_sends now self w r id :
  index_keyed self → message_map self !! id = None →
  wakeup_step config send_function now self w = Some r →
  message_map r.1 !! id = None ∧ send_times id (sent r.2) = send_times id (sent w).
Proof.
  intros Hk Hno Hstep. rewrite wakeup_step_unfold in Hstep.
  destruct (heapq.top (retry_heap self)) as [[nt mid]|]; [|done].
  destruct (QMicromega.Qlt_bool now nt); [done|].
  destruct (message_map self !! mid) as [st|] eqn:Est; [|by injection Hstep as <-].
  destruct (bool_decide _); [by injection Hstep as <-|].
  injection Hstep as <-. destruct (Hk _ _ Est) as [Hid Hmid].
  assert (Hne : mid ≠ id) by (intros ->; congruence).
  destruct (process_other_view config send_function true
              (set_retry_heap (heapq.heappop (retry_heap self)) self) st w id)
    as (Hm & _ & Hs); [congruence..|].
  rewrite Hm. done.
Qed.

(** X7.  The scheduler sends only what is in its index.  A message id that
    is not in the index, because it was delivered, given up or never taken
    in, gets no call of the send function and does not come back into the
    index, whatever ticks and intakes of other ids follow. *)
Theorem message_out_of_the_index_is_not_sent
    (self : t) (w : World) (id : string) (evs : list Event) :
  index_keyed self →
  message_map self !! id = None →
  (∀ id', id' ∈ intake_ids evs → id' ≠ id) →
  let r := run config send_function (self, w) evs in
  send_times id (sent r.2) = send_times id (sent w)
  ∧ message_map r.1 !! id = None.
Proof.
  intros Hk Hno Hids r. subst r.
  assert (Hinv : ∀ evs st,
    (index_keyed st.1 ∧ message_map st.1 !! id = None
     ∧ send_times id (sent st.2) = send_times id (sent w)) →
    (∀ id', id' ∈ intake_ids evs → id' ≠ id) →
    let r := run config send_function st evs in
    index_keyed r.1 ∧ message_map r.1 !! id = None
    ∧ send_times id (sent r.2) = send_times id (sent w)).
  { clear. induction evs as [|ev evs IH]; intros [self w0] (Hk & Hno & Hs) Hids; simpl in *.
    - done.
    - apply IH.
      + destruct ev as [c m|c]; simpl.
        * assert (Hne : Message.message_id m ≠ id) by (apply Hids; simpl; left).
          split; [by apply newMessage_index_keyed|].
          rewrite newMessage_process.
          destruct (process_other_view config send_function false
            (set_stats (count_intake (stats self))
               (set_message_map
                  (<[Message.message_id m := initial_state m (time_time (clock (set_clock c w0)))]>
                     (message_map self)) self))
            (initial_state m (time_time (clock (set_clock c w0)))) (set_clock c w0) id)
            as (Hm & _ & Hs'); [done|done|].
          rewrite Hm, Hs'. simpl. by rewrite lookup_insert_ne.
        * split; [by apply wakeup_index_keyed|].
          apply (wakeup_invariant config send_function
            (λ st, index_keyed st.1 ∧ message_map st.1 !! id = None
                   ∧ send_times id (sent st.2) = send_times id (sent w))); [|done].
          intros s1 w1 r (Hk1 & Hno1 & Hs1) Hstep. split.
          { by apply (wakeup_step_clock config send_function) in Hstep. }
          split; [by eapply wakeup_step_index_keyed|].
          destruct (wakeup_step_other_sends _ _ _ _ id Hk1 Hno1 Hstep) as [H1 H2].
          split; [done|]. rewrite H2. exact Hs1.
      + intros id' Hin. apply Hids. destruct ev as [c m|c]; simpl; [by right|done]. }
  destruct (Hinv evs (self, w)) as (_ & H1 & H2); done.
Qed.
End delivery.

Lemma wakeup_twice_is_wakeup_once_witness :
  let c := clock_at (2001 # 2) "2024-01-01T00:16:40.500000" in
  let r := wakeup example_config never_delivers one_waiting.1 (set_clock c one_waiting.2) in
  wakeup example_config never_delivers r.1 r.2 = r.
Proof.
  cbv zeta. apply wakeup_twice_is_wakeup_once.
  unfold one_waiting. apply newMessage_index_keyed. exact index_keyed_init.
Defined.

Lemma stopped_scheduler_ignores_ticks_witness :
  let evs := [Tick (clock_at (2001 # 2) "2024-01-01T00:16:40.500000");
              Tick (clock_at 1016 "2024-01-01T00:16:56.000000")] in
  let r := run example_config never_delivers (stop one_waiting.1, one_waiting.2) evs in
  r.1 = stop one_waiting.1 ∧ s3 r.2 = s3 one_waiting.2 ∧ sent r.2 = sent one_waiting.2.
Proof.
  cbv zeta. apply stopped_scheduler_ignores_ticks. reflexivity.
Defined.

Lemma message_out_of_the_index_is_not_sent_witness :
  let evs := [Tick (clock_at (2001 # 2) "2024-01-01T00:16:40.500000");
              Intake (clock_at 1001 "2024-01-01T00:16:41.000000")
                (Message.mk "m3" "again" PyNone);
              Tick (clock_at 1016 "2024-01-01T00:16:56.000000")] in
  let r := run example_config never_delivers one_waiting evs in
  send_times "m1" (sent r.2) = send_times "m1" (sent one_waiting.2)
  ∧ message_map r.1 !! "m1" = None.
Proof.
  cbv zeta.
  apply (message_out_of_the_index_is_not_sent example_config never_delivers
           one_waiting.1 one_waiting.2 "m1").
  - unfold one_waiting. apply newMessage_index_keyed. exact index_keyed_init.
  - reflexivity.
  - intros id ->%list_elem_of_singleton. done.
Defined.

Lemma outcomes_app send_function seen a b :
  outcomes send_function seen (a ++ b)
  = (outcomes send_function seen a ++ outcomes send_function (seen ++ a) b)%list.
Proof.
  revert seen. induction a as [|c a IH]; intros seen; simpl.
  - by rewrite app_nil_r.
  - rewrite IH. by rewrite <- app_assoc.
Qed.

Lemma deliveries_app send_function seen a b :
  deliveries send_function seen (a ++ b)
  = (deliveries send_function seen a + deliveries send_function (seen ++ a) b)%nat.
Proof. unfold deliveries. by rewrite outcomes_app, filter_app, length_app. Qed.

(** ** scheduler.py: the counters and the deliveries *)

Section counting.
Variable config : Config.
Variable send_function : SendPort.

Lemma adds_refl st : adds send_function 0 st st.
Proof. exists []. rewrite app_nil_r. unfold deliveries. simpl. split; [done|]. lia. Qed.

Lemma adds_trans n1 n2 st1 st2 st3 :
  adds send_function n1 st1 st2 → adds send_function n2 st2 st3 → adds send_function (n1 + n2) st1 st3.
Proof.
  intros (new1 & Hs1 & Hm1 & Hc1) (new2 & Hs2 & Hm2 & Hc2).
  exists (new1 ++ new2)%list. rewrite Hs2, Hs1, <- app_assoc. split; [done|].
  rewrite deliveries_app, Hm2, Hm1, Hc2, Hc1, Hs1. lia.
Qed.

Lemma process_adds check_max self state w :
  adds send_function 0 (self, w) (process config send_function check_max self state w).
Proof.
  exists [the_call state w]. rewrite process_sent, process_stats. split; [done|].
  assert (Hd : deliveries send_function (sent w) [the_call state w]
               = if send_result (send_function (sent w) (MessageState.message state))
                 then 1%nat else 0%nat).
  { unfold deliveries. cbn [outcomes the_call call_message].
    destruct (send_result _) eqn:E.
    - by rewrite filter_cons_True.
    - by rewrite filter_cons_False by (by rewrite E). }
  cbn [fst snd]. rewrite Hd. unfold ending_of.
  destruct (send_result _); [cbn; split; lia|].
  destruct (andb _ _); [cbn; split; lia|].
  destruct (Nat.leb _ _); cbn; split; lia.
Qed.

Lemma wakeup_adds self w : adds send_function 0 (self, w) (wakeup config send_function self w).
Proof.
  apply (wakeup_invariant config send_function (adds send_function 0 (self, w))); [|apply adds_refl].
  intros s1 w1 r Hadd Hstep. split; [by apply (wakeup_step_clock config send_function) in Hstep|].
  rewrite wakeup_step_unfold in Hstep.
  destruct (heapq.top (retry_heap s1)) as [[nt mid]|]; [|done].
  destruct (QMicromega.Qlt_bool _ nt); [done|].
  destruct (message_map s1 !! mid) as [st|]; [|by injection Hstep as <-].
  destruct (bool_decide _); [by injection Hstep as <-|].
  injection Hstep as <-.
  apply (adds_trans 0 0 _ (s1, w1)); [done|].
  destruct (process_adds true (set_retry_heap (heapq.heappop (retry_heap s1)) s1) st w1)
    as (new & H1 & H2 & H3).
  by exists new.
Qed.

Lemma newMessage_adds self m w : adds send_function 1 (self, w) (newMessage config send_function self m w).
Proof.
  rewrite newMessage_process.
  destruct (process_adds false
    (set_stats (count_intake (stats self))
       (set_message_map
          (<[Message.message_id m := initial_state m (time_time (clock w))]>
             (message_map self)) self))
    (initial_state m (time_time (clock w))) w) as (new & H1 & H2 & H3).
  exists new. split; [done|]. rewrite H2, H3. simpl. split; lia.
Qed.

Lemma run_adds evs : ∀ st,
  adds send_function (length (intake_ids evs)) st (run config send_function st evs).
Proof.
  induction evs as [|ev evs IH]; intros [self w]; simpl; [apply adds_refl|].
  destruct ev as [c m|c]; simpl.
  - apply (adds_trans 1 _ _ (newMessage config send_function self m (set_clock c w))); [|apply IH].
    destruct (newMessage_adds self m (set_clock c w)) as (new & H1 & H2 & H3).
    by exists new.
  - apply (adds_trans 0 _ _ (wakeup config send_function self (set_clock c w))); [|apply IH].
    destruct (wakeup_adds self (set_clock c w)) as (new & H1 & H2 & H3).
    by exists new.
Qed.

(** X8.  What the counters count.  Over any run of intakes and ticks,
    [total_messages] grows by the number of calls of [newMessage], and
    [total_success] by the number of calls of the send function that
    returned true; a call that returned false or raised counts for
    nothing. *)
Theorem counters_count_intakes_and_deliveries (self : t) (w : World) (evs : list Event) :
  let r := run config send_function (self, w) evs in
  ∃ new,
    sent r.2 = (sent w ++ new)%list
    ∧ total_messages (stats r.1)
      = (total_messages (stats self) + Z.of_nat (length (intake_ids evs)))%Z
    ∧ total_success (stats r.1)
      = (total_success (stats self)
         + Z.of_nat (deliveries send_function (sent w) new))%Z.
Proof. apply (run_adds evs (self, w)). Qed.

Lemma succeeded_snoc calls c id :
  succeeded send_function (calls ++ [c]) id →
  succeeded send_function calls id
  ∨ (Message.message_id (call_message c) = id
     ∧ send_result (send_function calls (call_message c)) = true).
Proof.
  intros (i & c' & Hi & Hid & Hres).
  destruct (decide (i < length calls)%nat) as [Hlt|Hge].
  - left. exists i, c'. rewrite lookup_app_l in Hi by done.
    rewrite take_app_le in Hres by lia. done.
  - right. assert (i = length calls) as ->.
    { apply lookup_lt_Some in Hi. rewrite length_app in Hi. simpl in Hi. lia. }
    rewrite list_lookup_middle in Hi by done. injection Hi as <-.
    rewrite take_app_length in Hres. done.
Qed.

Lemma delivered_at_most_once_snoc calls c :
  delivered_at_most_once send_function calls →
  ¬ succeeded send_function calls (Message.message_id (call_message c)) →
  delivered_at_most_once send_function (calls ++ [c]).
Proof.
  intros Hd Hnot i j ci cj Hi Hj Hlt Hid.
  assert (Hjlt : (j < length (calls ++ [c]))%nat) by (by apply lookup_lt_Some in Hj).
  rewrite length_app in Hjlt. simpl in Hjlt.
  rewrite lookup_app_l in Hi by lia. rewrite take_app_le by lia.
  destruct (decide (j < length calls)%nat) as [Hj'|Hj'].
  - rewrite lookup_app_l in Hj by done. by apply (Hd i j ci cj).
  - assert (j = length calls) as -> by lia.
    rewrite list_lookup_middle in Hj by done. injection Hj as <-.
    apply not_true_is_false. intros Hres. apply Hnot. by exists i, ci.
Qed.

Lemma send_times_nonempty_snoc id calls c :
  send_times id (calls ++ [c]) ≠ [] →
  send_times id calls ≠ [] ∨ Message.message_id (call_message c) = id.
Proof.
  rewrite send_times_snoc. case_decide; [by right|]. rewrite app_nil_r. by left.
Qed.

Lemma process_once_inv check_max seen self state w :
  let id := MessageState.message_id state in
  once_inv send_function seen (self, w) →
  message_map self !! id = Some state →
  ¬ succeeded send_function (sent w) id →
  once_inv send_function seen (process config send_function check_max self state w).
Proof.
  intros id [Hk Hgone Hcalls Hseen Hindex] Hst Hnot. simpl in *.
  destruct (Hk _ _ Hst) as [_ Hmid]. fold id in Hmid.
  assert (Hcall : Message.message_id (call_message (the_call state w)) = id) by done.
  split.
  - by apply process_index_keyed.
  - intros id' Hs. rewrite process_sent in Hs. rewrite process_map.
    apply succeeded_snoc in Hs as [Hs|[Hid Hres]].
    + assert (Hne : id ≠ id') by (intros <-; done).
      fold id. specialize (Hgone _ Hs).
      destruct (ending_of _ _ _ _);
        by rewrite ?lookup_delete_ne, ?lookup_insert_ne by done.
    + rewrite Hcall in Hid. subst id'. unfold ending_of. simpl in Hres. rewrite Hres.
      fold id. by rewrite lookup_delete_eq.
  - rewrite process_sent. apply delivered_at_most_once_snoc; [done|]. by rewrite Hcall.
  - intros id' Hs. rewrite process_sent in Hs.
    apply send_times_nonempty_snoc in Hs as [Hs|Hid]; [by apply Hseen|].
    rewrite Hcall in Hid. subst id'. apply Hindex. by rewrite Hst.
  - intros id' Hin. rewrite process_map in Hin. fold id in Hin.
    destruct (decide (id' = id)) as [->|Hne]; [apply Hindex; by rewrite Hst|].
    apply Hindex.
    destruct (ending_of _ _ _ _);
      by rewrite ?lookup_delete_ne, ?lookup_insert_ne in Hin by done.
Qed.

Lemma once_inv_set_clock seen self w c :
  once_inv send_function seen (self, w) → once_inv send_function seen (self, set_clock c w).
Proof. by intros []. Qed.

Lemma wakeup_once_inv seen self w :
  once_inv send_function seen (self, w) → once_inv send_function seen (wakeup config send_function self w).
Proof.
  apply (wakeup_invariant config send_function (once_inv send_function seen)).
  intros s1 w1 r Hinv Hstep.
  split; [by apply (wakeup_step_clock config send_function) in Hstep|].
  rewrite wakeup_step_unfold in Hstep.
  destruct (heapq.top (retry_heap s1)) as [[nt mid]|]; [|done].
  destruct (QMicromega.Qlt_bool _ nt); [done|].
  destruct (message_map s1 !! mid) as [st|] eqn:Est;
    [|injection Hstep as <-; by destruct Hinv].
  destruct (bool_decide _); [injection Hstep as <-; by destruct Hinv|].
  injection Hstep as <-.
  destruct (once_keyed _ _ _ Hinv _ _ Est) as [Hid _]. simpl in Hid.
  apply process_once_inv.
  - by destruct Hinv.
  - simpl. by rewrite Hid.
  - rewrite Hid. intros Hs. apply (once_gone _ _ _ Hinv) in Hs. simpl in Hs. congruence.
Qed.

Lemma newMessage_once_inv seen self m w :
  once_inv send_function seen (self, w) → Message.message_id m ∉ seen →
  once_inv send_function (Message.message_id m :: seen) (newMessage config send_function self m w).
Proof.
  intros [Hk Hgone Hcalls Hseen Hindex] Hfresh. simpl in *.
  rewrite newMessage_process. apply process_once_inv.
  - split; simpl.
    + unfold index_keyed. simpl. intros k st.
      destruct (decide (k = Message.message_id m)) as [->|Hne].
      * rewrite lookup_insert_eq. by intros [= <-].
      * rewrite lookup_insert_ne by done. apply Hk.
    + intros id Hs. assert (Hne : Message.message_id m ≠ id).
      { intros <-. apply Hfresh, Hseen. destruct Hs as (i & c & Hi & Hid & _).
        unfold send_times. intros Hnil. apply fmap_nil_inv in Hnil.
        assert (Hin : c ∈ filter (λ c, Message.message_id (call_message c) = Message.message_id m) (sent w)).
        { apply list_elem_of_filter. split; [done|]. by eapply list_elem_of_lookup_2. }
        rewrite Hnil in Hin. by apply elem_of_nil in Hin. }
      rewrite lookup_insert_ne by done. by apply Hgone.
    + done.
    + intros id Hs. right. by apply Hseen.
    + intros id. destruct (decide (id = Message.message_id m)) as [->|Hne]; [by left|].
      rewrite lookup_insert_ne by done. right. by apply Hindex.
  - simpl. by rewrite lookup_insert_eq.
  - simpl. intros (i & c & Hi & Hid & _). apply Hfresh, Hseen.
    unfold send_times. intros Hnil. apply fmap_nil_inv in Hnil.
    assert (Hin : c ∈ filter (λ c, Message.message_id (call_message c) = Message.message_id m) (sent w)).
    { apply list_elem_of_filter. split; [done|]. by eapply list_elem_of_lookup_2. }
    rewrite Hnil in Hin. by apply elem_of_nil in Hin.
Qed.

Lemma run_once_inv evs : ∀ st (seen : list string),
  once_inv send_function seen st →
  NoDup (intake_ids evs) →
  (∀ id, id ∈ intake_ids evs → id ∉ seen) →
  ∃ seen', once_inv send_function seen' (run config send_function st evs).
Proof.
  induction evs as [|ev evs IH]; intros [self w] seen Hinv Hnd Hfresh; simpl.
  - by exists seen.
  - destruct ev as [c m|c]; simpl in *.
    + apply NoDup_cons in Hnd as [Hnotin Hnd].
      apply (IH _ (Message.message_id m :: seen)); [|done|].
      * apply newMessage_once_inv; [by apply once_inv_set_clock|]. apply Hfresh. by left.
      * intros id Hin [->|Hs]%elem_of_cons; [done|]. apply (Hfresh id); [by right|done].
    + apply (IH _ seen); [|done|done].
      apply wakeup_once_inv. by apply once_inv_set_clock.
Qed.

(** X9.  No second delivery.  In a run from an empty index in which no
    message id is taken in twice, a call of the send function that returned
    true is the last call for its message id: every call that is followed by
    another call for the same id had returned false or raised. *)
Theorem no_message_is_delivered_twice (self : t) (w : World) (evs : list Event) :
  message_map self = ∅ →
  sent w = [] →
  NoDup (intake_ids evs) →
  delivered_at_most_once send_function (sent (run config send_function (self, w) evs).2).
Proof.
  intros Hmap Hsent Hnd.
  destruct (run_once_inv evs (self, w) []) as [seen' Hinv]; [|done|set_solver|by destruct Hinv].
  split; simpl.
  - intros k st. by rewrite Hmap, lookup_empty.
  - intros id _. by rewrite Hmap, lookup_empty.
  - intros i j ci cj Hi. by rewrite Hsent in Hi.
  - intros id. by rewrite Hsent.
  - intros id. rewrite Hmap, lookup_empty. by intros [? ?].
Qed.
End counting.

Lemma no_message_is_delivered_twice_witness :
  let deliver_second : SendPort :=
    λ calls _, Returned (bool_decide (length calls = 1%nat)) in
  let evs := [Intake (clock_at 1000 "2024-01-01T00:16:40.000000") m2;
              Tick (clock_at (2001 # 2) "2024-01-01T00:16:40.500000");
              Tick (clock_at 1016 "2024-01-01T00:16:56.000000")] in
  delivered_at_most_once deliver_second
    (sent (run example_config deliver_second
             (set_running true init, empty_world) evs).2).
Proof.
  cbv zeta. apply no_message_is_delivered_twice.
  - reflexivity.
  - reflexivity.
  - apply NoDup_singleton.
Defined.

(** ** persistence.py: what the requests do to the bucket *)

Lemma compare_Eq_eq (a b : string) : String.compare a b = Eq → a = b.
Proof. apply String.compare_eq_iff. Qed.

Lemma compare_refl (a : string) : String.compare a a = Eq.
Proof.
  pose proof (String.compare_antisym a a) as H.
  by destruct (String.compare a a).
Qed.

Lemma bucket_get_put_eq o b :
  s3_client.bucket_get (Key o) (s3_client.bucket_put o b) = Some o.
Proof.
  unfold s3_client.bucket_get.
  induction b as [|o' b IH]; simpl.
  - by rewrite String.eqb_refl.
  - destruct (String.compare (Key o) (Key o')) eqn:E; simpl.
    + by rewrite String.eqb_refl.
    + by rewrite String.eqb_refl.
    + destruct (String.eqb (Key o') (Key o)) eqn:E'; [|done].
      apply String.eqb_eq in E'. rewrite E', compare_refl in E. done.
Qed.

Lemma bucket_get_put_ne k o b :
  k ≠ Key o →
  s3_client.bucket_get k (s3_client.bucket_put o b) = s3_client.bucket_get k b.
Proof.
  intros Hne. unfold s3_client.bucket_get.
  assert (Ho : String.eqb (Key o) k = false).
  { destruct (String.eqb (Key o) k) eqn:E; [|done]. apply String.eqb_eq in E. done. }
  induction b as [|o' b IH]; simpl.
  - by rewrite Ho.
  - destruct (String.compare (Key o) (Key o')) eqn:E; simpl.
    + rewrite Ho. apply compare_Eq_eq in E. rewrite <- E, Ho. done.
    + by rewrite Ho.
    + by rewrite IH.
Qed.

Lemma bucket_get_delete_eq k b :
  s3_client.bucket_get k (s3_client.bucket_delete k b) = None.
Proof.
  unfold s3_client.bucket_get, s3_client.bucket_delete.
  induction b as [|o b IH]; [done|].
  destruct (decide (Key o = k)) as [E|E].
  - by rewrite filter_cons_False by (intros ?; done).
  - rewrite filter_cons_True by done. simpl.
    destruct (String.eqb (Key o) k) eqn:E'; [|done]. by apply String.eqb_eq in E'.
Qed.

Lemma bucket_get_delete_ne k k' b :
  k ≠ k' →
  s3_client.bucket_get k (s3_client.bucket_delete k' b) = s3_client.bucket_get k b.
Proof.
  intros Hne. unfold s3_client.bucket_get, s3_client.bucket_delete.
  induction b as [|o b IH]; [done|].
  destruct (decide (Key o = k')) as [E|E].
  - rewrite filter_cons_False by (intros ?; done). simpl.
    destruct (String.eqb (Key o) k) eqn:E'; [|done].
    apply String.eqb_eq in E'. congruence.
  - rewrite filter_cons_True by done. simpl. by rewrite IH.
Qed.

Section persistence.
Variable config : Config.

(** X10.  On a service that does not fail, [load_message_state] gives back
    the state that [save_message_state] has stored, for every state whose
    metadata JSON denotes exactly, and the saving does not change what is
    loaded for any other id. *)
Theorem saved_state_is_loaded_back (state : MessageState.t) (c : Clock) (s : S3) :
  faults s = [] →
  json_exact (Message.metadata (MessageState.message state)) = true →
  let r := S3PersistenceLayer.save_message_state config state c s in
  r.1 = true
  ∧ (S3PersistenceLayer.load_message_state config (MessageState.message_id state) r.2).1
    = Some (Some state)
  ∧ ∀ id, id ≠ MessageState.message_id state →
      (S3PersistenceLayer.load_message_state config id r.2).1
      = (S3PersistenceLayer.load_message_state config id s).1.
Proof.
  intros Hf Hexact r. subst r.
  unfold S3PersistenceLayer.save_message_state, S3PersistenceLayer.load_message_state,
    s3_client.put_object, s3_client.get_object, s3_client.request.
  rewrite Hf. cbn [hd tl fst snd bucket faults s3_client.with_bucket].
  split; [done|]. split.
  - pose proof (bucket_get_put_eq
      {| Key := S3PersistenceLayer.state_key config (MessageState.message_id state);
         Body := JsonText (MessageState.to_json state);
         LastModified := time_time c |} (bucket s)) as Hget.
    cbn [Key] in Hget. rewrite Hget. cbn [fmap option_fmap option_map Body].
    rewrite from_json_to_json, (loads_dumps _ Hexact).
    cbn [fst]. destruct state as [? [] ? ? ? ? ?]. reflexivity.
  - intros id Hne. rewrite bucket_get_put_ne
      by (cbn [Key]; intros E; by apply state_key_inj in E).
    destruct (s3_client.bucket_get _ (bucket s)) as [[k [|j] lm]|];
      cbn [fmap option_fmap option_map Body fst]; try reflexivity.
    by destruct (MessageState.from_json j).
Qed.

(** X11.  [mark_success] and [mark_failed], on key spaces that are apart.
    When the write to the log fails, the exception is raised again and the
    bucket is as before: nothing is written and the pending record is not
    deleted.  When the write succeeds, the log holds the record, and the
    pending record is gone unless the delete fails, which is not reported;
    no other key is touched. *)
Theorem mark_moves_the_record
    (failed : bool) (id : string) (state : MessageState.t) (c : Clock) (s : S3) :
  namespaces_apart config →
  let prefix := if failed then S3_FAILED_PREFIX config else S3_SUCCESS_PREFIX config in
  let log := S3PersistenceLayer.log_key prefix (utcnow_isoformat c) id in
  let pending := S3PersistenceLayer.state_key config id in
  let r := if failed then S3PersistenceLayer.mark_failed config id state c s
           else S3PersistenceLayer.mark_success config id state c s in
  (hd false (faults s) = true → r.1 = false ∧ bucket r.2 = bucket s)
  ∧ (hd false (faults s) = false →
     r.1 = true
     ∧ Body <$> s3_client.bucket_get log (bucket r.2)
       = Some (JsonText (MessageState.to_json state))
     ∧ s3_client.bucket_get pending (bucket r.2)
       = (if hd false (tl (faults s)) then s3_client.bucket_get pending (bucket s)
          else None)
     ∧ ∀ k, k ≠ log → k ≠ pending →
         s3_client.bucket_get k (bucket r.2) = s3_client.bucket_get k (bucket s)).
Proof.
  intros Hapart prefix log pending r.
  assert (Hr : r = S3PersistenceLayer.mark_with config prefix id state c s)
    by (subst r prefix; by destruct failed).
  assert (Hne : log ≠ pending) by (subst log prefix; destruct failed; apply Hapart).
  rewrite Hr. clear Hr r.
  unfold S3PersistenceLayer.mark_with,
    S3PersistenceLayer._delete_state, s3_client.put_object, s3_client.delete_object,
    s3_client.request.
  fold log pending. cbn [faults bucket requests s3_client.with_bucket].
  split; intros Hf; rewrite Hf; cbn [fst snd bucket]; [done|].
  split; [done|].
  cbn [fst snd bucket s3_client.with_bucket faults hd tl].
  destruct (hd false (tl (faults s))) eqn:Hf2;
    cbn [fst snd bucket s3_client.with_bucket faults].
  - split; [|split].
    + pose proof (bucket_get_put_eq
        {| Key := log; Body := JsonText (MessageState.to_json state);
           LastModified := time_time c |} (bucket s)) as Hget.
      cbn [Key] in Hget. by rewrite Hget.
    + by rewrite bucket_get_put_ne by (cbn [Key]; done).
    + intros k Hk1 Hk2. by rewrite bucket_get_put_ne by (cbn [Key]; done).
  - split; [|split].
    + rewrite bucket_get_delete_ne by done.
      pose proof (bucket_get_put_eq
        {| Key := log; Body := JsonText (MessageState.to_json state);
           LastModified := time_time c |} (bucket s)) as Hget.
      cbn [Key] in Hget. by rewrite Hget.
    + apply bucket_get_delete_eq.
    + intros k Hk1 Hk2. rewrite bucket_get_delete_ne by done.
      by rewrite bucket_get_put_ne by (cbn [Key]; done).
Qed.

(** ** persistence.py: the recent records *)

Lemma fetch_documents_length objs : ∀ results s,
  (length (S3PersistenceLayer.fetch_documents objs results s).1
   <= length results + length objs)%nat.
Proof.
  induction objs as [|o objs IH]; intros results s; simpl; [lia|].
  destruct (s3_client.get_object (Key o) s) as [[[|j]|] s1].
  - specialize (IH results s1). lia.
  - specialize (IH (results ++ [loads j])%list s1). rewrite length_app in IH. simpl in IH. lia.
  - specialize (IH results s1). lia.
Qed.

(** X12.  [_get_recent_from_prefix] returns at most [limit] documents,
    whatever the bucket holds and whichever requests fail; with it
    [get_recent_success] and [get_recent_failed]. *)
Theorem recent_records_are_at_most_limit (prefix : string) (limit : nat) (s : S3) :
  (length (S3PersistenceLayer._get_recent_from_prefix prefix limit s).1 <= limit)%nat.
Proof.
  unfold S3PersistenceLayer._get_recent_from_prefix.
  destruct (s3_client.list_objects_v2 prefix limit s) as [[[contents|]|] s1]; simpl; try lia.
  pose proof (fetch_documents_length (take limit (sorted_last_modified_desc contents)) [] s1) as H.
  rewrite length_take in H. simpl in H. lia.
Qed.

Lemma insert_by_last_modified_perm o l : insert_by_last_modified o l ≡ₚ o :: l.
Proof.
  induction l as [|o' l IH]; simpl; [done|].
  destruct (Qle_bool _ _); [done|]. rewrite IH. apply Permutation_swap.
Qed.

Lemma sorted_last_modified_desc_perm l : sorted_last_modified_desc l ≡ₚ l.
Proof.
  induction l as [|o l IH]; simpl; [done|].
  unfold sorted_last_modified_desc in *. simpl.
  by rewrite insert_by_last_modified_perm, IH.
Qed.

Lemma insert_by_last_modified_sorted o l :
  StronglySorted newer_or_same l → StronglySorted newer_or_same (insert_by_last_modified o l).
Proof.
  induction l as [|o' l IH]; simpl; intros Hs.
  - repeat constructor.
  - destruct (Qle_bool (LastModified o') (LastModified o)) eqn:E.
    + apply Qle_bool_iff in E. constructor; [done|].
      apply StronglySorted_inv in Hs as [Hs Hall].
      constructor; [done|].
      eapply Forall_impl; [exact Hall|]. intros x Hx. unfold newer_or_same in *.
      eapply Qle_trans; eauto.
    + apply StronglySorted_inv in Hs as [Hs Hall].
      constructor; [by apply IH|].
      apply Forall_forall. intros x Hx.
      apply elem_of_insert_by_last_modified in Hx as [->|Hx].
      * unfold newer_or_same. apply Qlt_le_weak. apply Qnot_le_lt. intros Hle.
        apply Qle_bool_iff in Hle. congruence.
      * by apply (proj1 (Forall_forall _ _) Hall).
Qed.

Lemma sorted_last_modified_desc_sorted l :
  StronglySorted newer_or_same (sorted_last_modified_desc l).
Proof.
  induction l as [|o l IH]; simpl; [constructor|].
  by apply insert_by_last_modified_sorted.
Qed.

(** X13.  When the namespace holds no more objects than [limit], and no
    more than one listing returns, [_get_recent_from_prefix] on a service
    that does not fail returns the documents of all of them, the most
    recently modified first. *)
Theorem recent_records_when_they_fit (prefix : string) (limit : nat) (s : S3) :
  let listing := s3_client.under_prefix prefix (bucket s) in
  faults s = [] →
  NoDup (Key <$> bucket s) →
  (length listing <= limit)%nat →
  (length listing <= s3_client.page_size)%nat →
  ∃ objects,
    objects ≡ₚ listing
    ∧ StronglySorted newer_or_same objects
    ∧ (S3PersistenceLayer._get_recent_from_prefix prefix limit s).1
      = omap document objects.
Proof.
  intros listing Hf Hnd Hlimit Hpage.
  exists (sorted_last_modified_desc listing). split; [|split].
  - apply sorted_last_modified_desc_perm.
  - apply sorted_last_modified_desc_sorted.
  - rewrite get_recent_reads_first_keys by done. fold listing.
    rewrite (take_ge listing) by lia.
    rewrite take_ge; [done|].
    by rewrite (Permutation_length (sorted_last_modified_desc_perm listing)).
Qed.
End persistence.

Lemma saved_state_is_loaded_back_witness :
  let c := clock_at (2001 # 2) "2024-01-01T00:16:40.500000" in
  let r := S3PersistenceLayer.save_message_state example_config m2_state c
             (s3 empty_world) in
  r.1 = true
  ∧ (S3PersistenceLayer.load_message_state example_config
       (MessageState.message_id m2_state) r.2).1 = Some (Some m2_state)
  ∧ ∀ id, id ≠ MessageState.message_id m2_state →
      (S3PersistenceLayer.load_message_state example_config id r.2).1
      = (S3PersistenceLayer.load_message_state example_config id (s3 empty_world)).1.
Proof.
  cbv zeta. apply saved_state_is_loaded_back; reflexivity.
Defined.

Lemma mark_moves_the_record_witness :
  let c := clock_at 1016 "2024-01-01T00:16:56.000000" in
  let s := s3 one_waiting.2 in
  let log := S3PersistenceLayer.log_key "failed" (utcnow_isoformat c) "m2" in
  let pending := S3PersistenceLayer.state_key example_config "m2" in
  let r := S3PersistenceLayer.mark_failed example_config "m2" m2_state c s in
  (hd false (faults s) = true → r.1 = false ∧ bucket r.2 = bucket s)
  ∧ (hd false (faults s) = false →
     r.1 = true
     ∧ Body <$> s3_client.bucket_get log (bucket r.2)
       = Some (JsonText (MessageState.to_json m2_state))
     ∧ s3_client.bucket_get pending (bucket r.2)
       = (if hd false (tl (faults s)) then s3_client.bucket_get pending (bucket s)
          else None)
     ∧ ∀ k, k ≠ log → k ≠ pending →
         s3_client.bucket_get k (bucket r.2) = s3_client.bucket_get k (bucket s)).
Proof.
  cbv zeta.
  apply (mark_moves_the_record example_config true "m2" m2_state
           (clock_at 1016 "2024-01-01T00:16:56.000000") (s3 one_waiting.2)).
  apply namespaces_apart_default.
Defined.

Lemma recent_records_when_they_fit_witness :
  ∃ objects,
    objects ≡ₚ s3_client.under_prefix "success" (bucket (s3 three_delivered))
    ∧ StronglySorted newer_or_same objects
    ∧ (S3PersistenceLayer._get_recent_from_prefix "success" 5 (s3 three_delivered)).1
      = omap document objects.
Proof.
  apply recent_records_when_they_fit.
  - reflexivity.
  - apply (bool_decide_unpack _). vm_compute. exact I.
  - vm_compute. lia.
  - vm_compute. lia.
Defined.

(** ** scheduler.py and persistence.py: the store mirrors the index *)

Lemma compare_Lt_trans (a b c : string) :
  String.compare a b = Lt → String.compare b c = Lt → String.compare a c = Lt.
Proof.
  intros H1 H2.
  apply (proj2 (OrderedTypeEx.String_as_OT.cmp_lt a c)).
  eapply OrderedTypeEx.String_as_OT.lt_trans;
    apply (proj1 (OrderedTypeEx.String_as_OT.cmp_lt _ _)); eassumption.
Qed.

Lemma compare_Gt_Lt (a b : string) : String.compare a b = Gt → String.compare b a = Lt.
Proof. intros H. rewrite String.compare_antisym, H. done. Qed.

Lemma elem_of_bucket_put x o b :
  x ∈ s3_client.bucket_put o b → x = o ∨ x ∈ b.
Proof.
  induction b as [|o' b IH]; simpl.
  - intros ->%list_elem_of_singleton. by left.
  - destruct (String.compare (Key o) (Key o')).
    + intros [->|H]%elem_of_cons; [by left|]. right. by right.
    + intros [->|H]%elem_of_cons; [by left|]. by right.
    + intros [->|H]%elem_of_cons; [right; by left|].
      destruct (IH H) as [->|Hin]; [by left|]. right. by right.
Qed.

Lemma bucket_put_ascending o b :
  keys_ascending b → keys_ascending (s3_client.bucket_put o b).
Proof.
  unfold keys_ascending. induction b as [|o' b IH]; simpl; intros Hs.
  - repeat constructor.
  - apply StronglySorted_inv in Hs as [Hs Hall].
    destruct (String.compare (Key o) (Key o')) eqn:E.
    + apply compare_Eq_eq in E. constructor; [done|]. by rewrite E.
    + constructor; [by constructor|]. constructor; [done|].
      eapply Forall_impl; [exact Hall|]. intros x Hx. by eapply compare_Lt_trans.
    + constructor; [by apply IH|].
      apply Forall_forall. intros x Hx. apply elem_of_bucket_put in Hx as [->|Hx].
      * by apply compare_Gt_Lt.
      * by apply (proj1 (Forall_forall _ _) Hall).
Qed.

Lemma bucket_delete_ascending k b :
  keys_ascending b → keys_ascending (s3_client.bucket_delete k b).
Proof.
  unfold keys_ascending, s3_client.bucket_delete. induction b as [|o b IH]; intros Hs; [done|].
  apply StronglySorted_inv in Hs as [Hs Hall].
  destruct (decide (Key o ≠ k)) as [E|E].
  - rewrite filter_cons_True by done. constructor; [by apply IH|].
    apply Forall_forall. intros x Hx. apply list_elem_of_filter in Hx as [_ Hx].
    by apply (proj1 (Forall_forall _ _) Hall).
  - rewrite filter_cons_False by done. by apply IH.
Qed.

Lemma keys_ascending_NoDup b : keys_ascending b → NoDup (Key <$> b).
Proof.
  unfold keys_ascending. induction 1 as [|o b Hs IH Hall]; simpl; constructor; [|done].
  intros Hin. apply list_elem_of_fmap in Hin as (x & Hk & Hx).
  pose proof (proj1 (Forall_forall _ _) Hall x Hx) as Hlt. simpl in Hlt.
  rewrite Hk, compare_refl in Hlt. done.
Qed.

Lemma bucket_get_elem k b o :
  s3_client.bucket_get k b = Some o → o ∈ b ∧ Key o = k.
Proof.
  unfold s3_client.bucket_get. induction b as [|o' b IH]; simpl; [done|].
  destruct (String.eqb (Key o') k) eqn:E.
  - intros [= <-]. apply String.eqb_eq in E. split; [by left|done].
  - intros H. destruct (IH H). split; [by right|done].
Qed.

Section mirror.
Variable config : Config.
Variable send_function : SendPort.
Hypothesis apart : namespaces_apart config.

Lemma ending_of_not_dropped check_max state w :
  check_max = true ∨ MessageState.attempt_count state = 0%nat →
  ending_of send_function check_max state w ≠ Dropped.
Proof.
  intros Hc. unfold ending_of.
  destruct (send_result _); [done|].
  change (length MessageState.RETRY_SCHEDULE) with MessageState.MAX_ATTEMPTS.
  destruct Hc as [->|Hz].
  - rewrite andb_true_l. by destruct (Nat.leb _ _).
  - rewrite Hz. change (MessageState.MAX_ATTEMPTS <=? 0 + 1)%nat with false.
    by rewrite andb_false_r.
Qed.

Lemma mark_with_healthy prefix id state c s :
  faults s = [] →
  faults (S3PersistenceLayer.mark_with config prefix id state c s).2 = []
  ∧ bucket (S3PersistenceLayer.mark_with config prefix id state c s).2
    = s3_client.bucket_delete (S3PersistenceLayer.state_key config id)
        (s3_client.bucket_put
           {| Key := S3PersistenceLayer.log_key prefix (utcnow_isoformat c) id;
              Body := JsonText (MessageState.to_json state);
              LastModified := time_time c |} (bucket s)).
Proof.
  intros Hf. unfold S3PersistenceLayer.mark_with, S3PersistenceLayer._delete_state,
    s3_client.put_object, s3_client.delete_object, s3_client.request.
  rewrite Hf. done.
Qed.

Lemma save_message_state_healthy state c s :
  faults s = [] →
  faults (S3PersistenceLayer.save_message_state config state c s).2 = []
  ∧ bucket (S3PersistenceLayer.save_message_state config state c s).2
    = s3_client.bucket_put
        {| Key := S3PersistenceLayer.state_key config (MessageState.message_id state);
           Body := JsonText (MessageState.to_json state);
           LastModified := time_time c |} (bucket s).
Proof.
  intros Hf. unfold S3PersistenceLayer.save_message_state,
    s3_client.put_object, s3_client.request.
  rewrite Hf. done.
Qed.

(** A finished state goes to a log and leaves the store of pending
    records. *)
Lemma finish_mirrored prefix self id final c s :
  (∀ stamp id' id'', S3PersistenceLayer.log_key prefix stamp id'
                     ≠ S3PersistenceLayer.state_key config id'') →
  MessageState.status final ≠ PENDING →
  faults s = [] → keys_ascending (bucket s) → index_keyed self →
  (∀ id0 state0, id0 ≠ id → message_map self !! id0 = Some state0 →
     MessageState.status state0 = PENDING
     ∧ json_exact (Message.metadata (MessageState.message state0)) = true
     ∧ Body <$> s3_client.bucket_get (S3PersistenceLayer.state_key config id0) (bucket s)
       = Some (JsonText (MessageState.to_json state0))) →
  (∀ o, o ∈ bucket s →
     (∃ id0, is_Some (message_map self !! id0)
             ∧ Key o = S3PersistenceLayer.state_key config id0)
     ∨ log_record o) →
  ∀ self', index_keyed self' → message_map self' = delete id (message_map self) →
  mirrored config self' (S3PersistenceLayer.mark_with config prefix id final c s).2.
Proof.
  intros Hlog Hfinal Hf Hkeys Hk Hpending Hothers self' Hk' Hmap.
  destruct (mark_with_healthy prefix id final c s Hf) as [Hf' Hb].
  split.
  - done.
  - rewrite Hb. by apply bucket_delete_ascending, bucket_put_ascending.
  - done.
  - intros id0 state0. rewrite Hmap. intros Hin.
    apply lookup_delete_Some in Hin as [Hne Hin].
    destruct (Hpending id0 state0) as (H1 & H2 & H3); [done..|].
    split; [done|]. split; [done|].
    rewrite Hb, bucket_get_delete_ne
      by (intros E; by apply state_key_inj in E).
    rewrite bucket_get_put_ne; [done|]. cbn [Key]. intros E. symmetry in E. by apply Hlog in E.
  - intros o. rewrite Hb. intros Hin.
    apply list_elem_of_filter in Hin as [Hkey Hin].
    apply elem_of_bucket_put in Hin as [->|Hin].
    + right. by exists final.
    + destruct (Hothers o Hin) as [(id0 & Hsome & Hkey0)|Hl]; [|by right].
      left. exists id0. split; [|done]. rewrite Hmap.
      rewrite lookup_delete_ne; [done|]. intros <-. done.
Qed.

Lemma process_mirrored check_max self state w :
  let id := MessageState.message_id state in
  check_max = true ∨ MessageState.attempt_count state = 0%nat →
  faults (s3 w) = [] → keys_ascending (bucket (s3 w)) → index_keyed self →
  message_map self !! id = Some state →
  MessageState.status state = PENDING →
  json_exact (Message.metadata (MessageState.message state)) = true →
  (∀ id0 state0, id0 ≠ id → message_map self !! id0 = Some state0 →
     MessageState.status state0 = PENDING
     ∧ json_exact (Message.metadata (MessageState.message state0)) = true
     ∧ Body <$> s3_client.bucket_get (S3PersistenceLayer.state_key config id0)
                  (bucket (s3 w))
       = Some (JsonText (MessageState.to_json state0))) →
  (∀ o, o ∈ bucket (s3 w) →
     (∃ id0, is_Some (message_map self !! id0)
             ∧ Key o = S3PersistenceLayer.state_key config id0)
     ∨ log_record o) →
  mirrored config (process config send_function check_max self state w).1
    (s3 (process config send_function check_max self state w).2).
Proof.
  intros id Hc Hf Hkeys Hk Hst Hpend Hexact Hpending Hothers.
  assert (Hmid : Message.message_id (MessageState.message state) = id)
    by (by destruct (Hk _ _ Hst)).
  pose proof (process_index_keyed config send_function check_max self state w Hk Hmid) as Hk'.
  pose proof (process_map config send_function check_max self state w) as Hmap.
  pose proof (ending_of_not_dropped check_max state w Hc) as Hnd.
  pose proof (process_eq config send_function check_max self state w) as Heq.
  cbv zeta in Heq. fold id in Heq, Hmap.
  destruct (ending_of send_function check_max state w) eqn:Eend; [| | |done].
  - (* Delivered *)
    rewrite Heq at 2. cbn [snd s3 set_s3].
    apply (finish_mirrored (S3_SUCCESS_PREFIX config) self id); try done.
    intros stamp id' id''. apply apart.
  - (* GivenUp *)
    rewrite Heq at 2. cbn [snd s3 set_s3].
    apply (finish_mirrored (S3_FAILED_PREFIX config) self id); try done.
    intros stamp id' id''. apply apart.
  - (* Retrying *)
    set (st' := scheduled (attempted (time_time (clock w)) state)) in *.
    destruct (save_message_state_healthy st' (clock w) (s3 w) Hf) as [Hf' Hb].
    change (MessageState.message_id st') with id in Hb.
    rewrite Heq at 2. cbn [snd s3 set_s3].
    split.
    + done.
    + rewrite Hb. by apply bucket_put_ascending.
    + done.
    + intros id0 state0. rewrite Hmap. destruct (decide (id0 = id)) as [->|Hne].
      * rewrite lookup_insert_eq. intros [= <-]. split; [done|]. split; [done|].
        rewrite Hb.
        pose proof (bucket_get_put_eq
          {| Key := S3PersistenceLayer.state_key config id;
             Body := JsonText (MessageState.to_json st');
             LastModified := time_time (clock w) |} (bucket (s3 w))) as Hget.
        cbn [Key] in Hget. by rewrite Hget.
      * rewrite lookup_insert_ne by done. intros Hin.
        destruct (Hpending id0 state0) as (H1 & H2 & H3); [done..|].
        split; [done|]. split; [done|].
        rewrite Hb, bucket_get_put_ne; [done|].
        cbn [Key]. intros E. by apply state_key_inj in E.
    + intros o. rewrite Hb. intros Hin.
      apply elem_of_bucket_put in Hin as [->|Hin].
      * left. exists id. rewrite Hmap, lookup_insert_eq. split; [by eexists|done].
      * destruct (Hothers o Hin) as [(id0 & Hsome & Hkey0)|Hl]; [|by right].
        left. exists id0. split; [|done]. rewrite Hmap.
        destruct (decide (id0 = id)) as [->|Hne];
          [rewrite lookup_insert_eq; by eexists|by rewrite lookup_insert_ne].
Qed.

Lemma newMessage_mirrored self m w :
  json_exact (Message.metadata m) = true →
  mirrored config self (s3 w) →
  mirrored config (newMessage config send_function self m w).1
    (s3 (newMessage config send_function self m w).2).
Proof.
  intros Hexact [Hf Hkeys Hk Hpending Hothers].
  rewrite newMessage_process. apply process_mirrored; try done.
  - by right.
  - unfold index_keyed. simpl. intros k st.
    destruct (decide (k = Message.message_id m)) as [->|Hne].
    + rewrite lookup_insert_eq. by intros [= <-].
    + rewrite lookup_insert_ne by done. apply Hk.
  - simpl. by rewrite lookup_insert_eq.
  - simpl. intros id0 state0 Hne. rewrite lookup_insert_ne by done. apply Hpending.
  - simpl. intros o Hin. destruct (Hothers o Hin) as [(id0 & Hsome & Hkey0)|Hl]; [|by right].
    left. exists id0. split; [|done].
    destruct (decide (id0 = Message.message_id m)) as [->|Hne];
      [rewrite lookup_insert_eq; by eexists|by rewrite lookup_insert_ne].
Qed.

Lemma wakeup_mirrored self w :
  mirrored config self (s3 w) →
  mirrored config (wakeup config send_function self w).1
    (s3 (wakeup config send_function self w).2).
Proof.
  apply (wakeup_invariant config send_function (λ st, mirrored config st.1 (s3 st.2))).
  intros s1 w1 r Hinv Hstep.
  split; [by apply (wakeup_step_clock config send_function) in Hstep|].
  destruct Hinv as [Hf Hkeys Hk Hpending Hothers]. cbn [fst snd] in *.
  rewrite wakeup_step_unfold in Hstep.
  destruct (heapq.top (retry_heap s1)) as [[nt mid]|]; [|done].
  destruct (QMicromega.Qlt_bool _ nt); [done|].
  destruct (message_map s1 !! mid) as [st|] eqn:Est; [|by injection Hstep as <-].
  destruct (bool_decide _); [by injection Hstep as <-|].
  injection Hstep as <-.
  destruct (Hk _ _ Est) as [Hid _].
  destruct (Hpending _ _ Est) as (H1 & H2 & H3).
  apply process_mirrored; try done.
  - by left.
  - cbn. by rewrite Hid.
  - intros id0 state0 _. apply Hpending.
Qed.

(** X14.  On a service that does not fail and with key spaces that are
    apart, the store mirrors the index after every intake and every tick:
    each state of the index is pending and is stored under its key exactly
    as it is in memory, and every other object of the bucket is the log
    record of a finished message.  What [_schedule_next_retry] saves and
    what the two terminal transitions delete keep the pending records in
    step with the index. *)
Theorem store_mirrors_the_index (self : t) (w : World) (evs : list Event) :
  mirrored config self (s3 w) →
  exact_intakes evs →
  let r := run config send_function (self, w) evs in
  mirrored config r.1 (s3 r.2).
Proof.
  cbv zeta. revert self w. induction evs as [|ev evs IH]; intros self w Hm Hex; simpl; [done|].
  apply Forall_cons in Hex as [Hev Hex].
  destruct ev as [c m|c]; simpl.
  - destruct (newMessage config send_function self m (set_clock c w)) as [s1 w1] eqn:E.
    apply IH; [|done].
    pose proof (newMessage_mirrored self m (set_clock c w) Hev Hm) as H. by rewrite E in H.
  - destruct (wakeup config send_function self (set_clock c w)) as [s1 w1] eqn:E.
    apply IH; [|done].
    pose proof (wakeup_mirrored self (set_clock c w) Hm) as H. by rewrite E in H.
Qed.
End mirror.

Lemma mirrored_empty config self s :
  message_map self = ∅ → bucket s = [] → faults s = [] → mirrored config self s.
Proof.
  intros Hm Hb Hf. split.
  - done.
  - unfold keys_ascending. rewrite Hb. constructor.
  - intros k st. by rewrite Hm, lookup_empty.
  - intros id st. by rewrite Hm, lookup_empty.
  - intros o. rewrite Hb. by intros ?%elem_of_nil.
Qed.

Lemma store_mirrors_the_index_witness :
  let evs := [Intake (clock_at 1000 "2024-01-01T00:16:40.000000") m2;
              Tick (clock_at (2001 # 2) "2024-01-01T00:16:40.500000");
              Intake (clock_at 1001 "2024-01-01T00:16:41.000000")
                (Message.mk "m3" "again" (PyDict [("lang", PyStr "en")]));
              Tick (clock_at 1002 "2024-01-01T00:16:42.000000")] in
  let r := run example_config never_delivers (set_running true init, empty_world) evs in
  mirrored example_config r.1 (s3 r.2).
Proof.
  cbv zeta. apply store_mirrors_the_index.
  - apply namespaces_apart_default.
  - by apply mirrored_empty.
  - repeat constructor.
Defined.

Lemma prefix_append (p x : string) : String.prefix p (p ++ x) = true.
Proof.
  induction p as [|a p IH]; simpl.
  - by destruct x.
  - destruct (Ascii.ascii_dec a a); [exact IH|done].
Qed.

Lemma pending_record_of_state o state :
  Body o = JsonText (MessageState.to_json state) →
  MessageState.status state = PENDING →
  json_exact (Message.metadata (MessageState.message state)) = true →
  pending_record o = Some state.
Proof.
  intros Hb Hp Hexact. unfold pending_record.
  rewrite Hb, from_json_to_json, (loads_dumps _ Hexact).
  destruct state as [? [] ? ? ? ? ?]. cbn in Hp. subst. reflexivity.
Qed.

Lemma pending_record_of_log o : log_record o → pending_record o = None.
Proof.
  intros (final & Hb & Hs). unfold pending_record.
  rewrite Hb, from_json_to_json. cbn [MessageState.status].
  by rewrite bool_decide_eq_false_2.
Qed.

Lemma typed_record_of_state o state :
  Body o = JsonText (MessageState.to_json state) → typed_record o.
Proof. intros Hb. unfold typed_record. by rewrite Hb, from_json_to_json. Qed.

Lemma NoDup_fmap_omap {A B C} (f : A → option B) (g : B → C) (l : list A) :
  NoDup l →
  (∀ x y b b', x ∈ l → y ∈ l → f x = Some b → f y = Some b' → g b = g b' → x = y) →
  NoDup (g <$> omap f l).
Proof.
  induction 1 as [|x l Hx Hnd IH]; intros Hinj; simpl; [constructor|].
  destruct (f x) as [b|] eqn:Eb.
  - simpl. constructor.
    + intros Hin. apply list_elem_of_fmap in Hin as (b' & Hg & Hb').
      apply list_elem_of_omap in Hb' as (y & Hy & Ey).
      assert (x = y) by (apply (Hinj x y b b'); [by left|by right|done..]).
      by subst y.
    + apply IH. intros y z ? ? Hy Hz. apply Hinj; by right.
  - apply IH. intros y z ? ? Hy Hz. apply Hinj; by right.
Qed.



Section restart.
Variable config : Config.

Lemma mirrored_object self s o :
  mirrored config self s → o ∈ bucket s →
  (∃ state, message_map self !! MessageState.message_id state = Some state
            ∧ Key o = S3PersistenceLayer.state_key config (MessageState.message_id state)
            ∧ pending_record o = Some state
            ∧ typed_record o)
  ∨ (pending_record o = None ∧ typed_record o).
Proof.
  intros [Hf Hkeys Hk Hpending Hothers] Hin.
  destruct (Hothers o Hin) as [(id & [state Hst] & Hkey)|Hl].
  - left. exists state. destruct (Hk _ _ Hst) as [Hid _].
    destruct (Hpending _ _ Hst) as (Hp & Hexact & Hget).
    pose proof (bucket_get_unique o (bucket s) (keys_ascending_NoDup _ Hkeys) Hin) as Ho.
    rewrite <- Hkey, Ho in Hget. injection Hget as Hbody.
    rewrite Hid. split; [done|]. split; [done|].
    split; [by apply pending_record_of_state|by eapply typed_record_of_state].
  - right. split; [by apply pending_record_of_log|].
    destruct Hl as (final & Hb & _). by eapply typed_record_of_state.
Qed.

Lemma mirrored_pending self s :
  mirrored config self s →
  let pending :=
    omap pending_record (s3_client.under_prefix (S3_STATE_PREFIX config) (bucket s)) in
  NoDup (MessageState.message_id <$> pending)
  ∧ ∀ state, state ∈ pending ↔
             message_map self !! MessageState.message_id state = Some state.
Proof.
  intros Hm pending. pose proof Hm as [Hf Hkeys Hk Hpending Hothers].
  pose proof (keys_ascending_NoDup _ Hkeys) as Hnd.
  split.
  - apply NoDup_fmap_omap.
    + apply NoDup_filter. by apply NoDup_fmap_1 in Hnd.
    + intros x y b b' Hx Hy Ex Ey Hid.
      apply list_elem_of_filter in Hx as [_ Hx]. apply list_elem_of_filter in Hy as [_ Hy].
      destruct (mirrored_object _ _ _ Hm Hx) as [(st & _ & Kx & Px & _)|[Px _]]; [|congruence].
      destruct (mirrored_object _ _ _ Hm Hy) as [(st' & _ & Ky & Py & _)|[Py _]]; [|congruence].
      assert (st = b) by congruence. assert (st' = b') by congruence. subst st st'.
      rewrite Hid in Kx.
      pose proof (bucket_get_unique x _ Hnd Hx) as Gx.
      pose proof (bucket_get_unique y _ Hnd Hy) as Gy.
      rewrite Kx in Gx. rewrite Ky in Gy. congruence.
  - intros state. split.
    + intros Hin. apply list_elem_of_omap in Hin as (o & Ho & Ep).
      apply list_elem_of_filter in Ho as [_ Ho].
      destruct (mirrored_object _ _ _ Hm Ho) as [(st & Hst & _ & Px & _)|[Px _]]; [|congruence].
      assert (st = state) by congruence. by subst st.
    + intros Hst. destruct (Hk _ _ Hst) as [_ _].
      destruct (Hpending _ _ Hst) as (Hp & Hexact & Hget).
      destruct (s3_client.bucket_get _ (bucket s)) as [o|] eqn:Eo; [|done].
      injection Hget as Hbody. apply bucket_get_elem in Eo as [Ho Hkey].
      apply list_elem_of_omap. exists o. split.
      * apply list_elem_of_filter. split; [|done].
        rewrite Hkey. unfold S3PersistenceLayer.state_key. apply prefix_append.
      * by apply pending_record_of_state.
Qed.

End restart.

Lemma one_waiting_mirrored (c : Clock) :
  mirrored example_config one_waiting.1 (s3 (set_clock c one_waiting.2)).
Proof.
  unfold one_waiting.
  apply (newMessage_mirrored example_config never_delivers
           (namespaces_apart_default "sms")); [reflexivity|].
  by apply mirrored_empty.
Qed.


(** ** scheduler.py: the heap entries of the index *)

Lemma elem_of_length_pos {A} (x : A) (l : list A) : x ∈ l → (1 <= length l)%nat.
Proof. destruct l; [by intros ?%elem_of_nil|simpl; lia]. Qed.

Section scheduled.
Variable config : Config.
Variable send_function : SendPort.

Lemma process_scheduled check_max self state w :
  let id := MessageState.message_id state in
  check_max = true ∨ MessageState.attempt_count state = 0%nat →
  index_keyed self →
  message_map self !! id = Some state →
  MessageState.status state = PENDING →
  (∀ id0 state0, id0 ≠ id → message_map self !! id0 = Some state0 →
     MessageState.status state0 = PENDING ∧ heap_entry state0 ∈ retry_heap self) →
  index_scheduled (process config send_function check_max self state w).1.
Proof.
  intros id Hc Hk Hst Hp Hothers.
  assert (Hmid : Message.message_id (MessageState.message state) = id)
    by (by destruct (Hk _ _ Hst)).
  split; [by apply process_index_keyed|].
  pose proof (ending_of_not_dropped send_function check_max state w Hc) as Hnd.
  intros id0 state0. rewrite process_map, process_heap. fold id.
  destruct (ending_of send_function check_max state w) eqn:Eend; [| | |done].
  - intros [Hne Hin]%lookup_delete_Some. by apply (Hothers id0 state0).
  - intros [Hne Hin]%lookup_delete_Some. by apply (Hothers id0 state0).
  - destruct (decide (id0 = id)) as [->|Hne].
    + rewrite lookup_insert_eq. intros [= <-]. split; [done|]. by left.
    + rewrite lookup_insert_ne by done. intros Hin.
      destruct (Hothers _ _ Hne Hin). split; [done|]. by right.
Qed.

Lemma newMessage_scheduled self m w :
  index_scheduled self → index_scheduled (newMessage config send_function self m w).1.
Proof.
  intros [Hk Hs]. rewrite newMessage_process. apply process_scheduled.
  - by right.
  - unfold index_keyed. simpl. intros k st.
    destruct (decide (k = Message.message_id m)) as [->|Hne].
    + rewrite lookup_insert_eq. by intros [= <-].
    + rewrite lookup_insert_ne by done. apply Hk.
  - simpl. by rewrite lookup_insert_eq.
  - done.
  - simpl. intros id0 state0 Hne. rewrite lookup_insert_ne by done. apply Hs.
Qed.

Lemma wakeup_step_scheduled now self w r :
  index_scheduled self → wakeup_step config send_function now self w = Some r →
  index_scheduled r.1.
Proof.
  intros [Hk Hs] Hstep. rewrite wakeup_step_unfold in Hstep.
  destruct (heapq.top (retry_heap self)) as [[nt mid]|] eqn:Etop; [|done].
  destruct (QMicromega.Qlt_bool _ nt); [done|].
  assert (Hpop : ∀ id0 state0, id0 ≠ mid → message_map self !! id0 = Some state0 →
            MessageState.status state0 = PENDING
            ∧ heap_entry state0 ∈ heapq.heappop (retry_heap self)).
  { intros id0 state0 Hne Hin. destruct (Hs _ _ Hin) as [Hp He]. split; [done|].
    pose proof (top_perm _ _ Etop) as Hperm. rewrite Hperm in He.
    apply elem_of_cons in He as [He|He]; [|done].
    destruct (Hk _ _ Hin) as [Hid _]. unfold heap_entry in He. congruence. }
  destruct (message_map self !! mid) as [st|] eqn:Est.
  - destruct (Hs _ _ Est) as [Hp _].
    rewrite bool_decide_eq_false_2 in Hstep by (intros Hn; done).
    injection Hstep as <-. destruct (Hk _ _ Est) as [Hid _].
    apply process_scheduled; try done.
    + by left.
    + simpl. by rewrite Hid.
    + simpl. rewrite Hid. exact Hpop.
  - injection Hstep as <-. split; [by apply index_keyed_pop|].
    simpl. intros id0 state0 Hin. apply (Hpop id0 state0); [|done]. intros ->. congruence.
Qed.

Lemma wakeup_scheduled self w :
  index_scheduled self → index_scheduled (wakeup config send_function self w).1.
Proof.
  apply (wakeup_invariant config send_function (λ st, index_scheduled st.1)).
  intros s1 w1 r Hinv Hstep.
  split; [by apply (wakeup_step_clock config send_function) in Hstep|].
  by eapply wakeup_step_scheduled.
Qed.

(** X16.  No message is stranded.  After every intake and every tick, each
    state of the index is pending and has a heap entry at its
    [next_retry_at] under its id, also when ids are taken in more than
    once. *)
Theorem every_indexed_message_has_its_heap_entry (self : t) (w : World) (evs : list Event) :
  index_scheduled self →
  index_scheduled (run config send_function (self, w) evs).1.
Proof.
  intros Hs.
  apply (run_invariant config send_function (λ st, index_scheduled st.1)); [| |done].
  - intros s1 w1 c m. apply newMessage_scheduled.
  - intros s1 w1 c. apply wakeup_scheduled.
Qed.

(** X17.  A tick leaves nothing due.  After [wakeup] on a running
    scheduler, every heap entry is later than the clock, and every state of
    the index has its next retry after the clock: [is_due] is false for
    it. *)
Theorem tick_leaves_nothing_due (self : t) (w : World) :
  index_scheduled self →
  running self = true →
  let now := time_time (clock w) in
  let r := wakeup config send_function self w in
  (∀ e, e ∈ retry_heap r.1 → (now < e.1)%Q)
  ∧ (∀ id state, message_map r.1 !! id = Some state →
       (now < MessageState.next_retry_at state)%Q
       ∧ MessageState.is_due state now = false).
Proof.
  intros Hs Hrun now r.
  pose proof (wakeup_heap_not_due config send_function self w (proj1 Hs) Hrun) as Hheap.
  fold r now in Hheap.
  split; [done|]. intros id state Hst.
  destruct (wakeup_scheduled self w Hs) as [_ Hs']. fold r in Hs'.
  destruct (Hs' _ _ Hst) as [_ He]. apply Hheap in He. simpl in He.
  split; [done|]. unfold MessageState.is_due.
  apply andb_false_iff. left. apply not_true_is_false. intros Hle.
  apply Qle_bool_iff in Hle. apply Qlt_not_le in He. done.
Qed.

(** X18.  [stop] and then [start] in the same process.  [start] runs the
    recovery again, on top of the heap and the index that the scheduler
    still has: when the store mirrors the index, every message of the index
    comes out with two heap entries or more, the one it had and the one that
    the recovery pushes. *)
Theorem stop_and_start_doubles_the_heap_entries (self : t) (w : World) :
  mirrored config self (s3 w) →
  index_scheduled self →
  ∃ self' s',
    start config (stop self) w = Some (self', set_s3 s' w)
    ∧ ∀ id, is_Some (message_map self !! id) →
        (2 <= length (entries_of id (retry_heap self')))%nat.
Proof.
  intros Hm [_ Hs]. pose proof Hm as [Hf Hkeys Hk Hpending Hothers].
  set (now := time_time (clock w)).
  set (listing := s3_client.under_prefix (S3_STATE_PREFIX config) (bucket (s3 w))).
  set (pending := omap pending_record listing).
  destruct (mirrored_pending config _ _ Hm) as [Hnd Hiff]. fold listing pending in Hnd, Hiff.
  assert (Hread : readable (s3 w) (concat (s3_client.paginate (S3_STATE_PREFIX config) (s3 w)))).
  { rewrite concat_paginate. apply readable_listing; [by apply keys_ascending_NoDup|].
    apply Forall_forall. intros o Ho. apply list_elem_of_filter in Ho as [_ Ho].
    by destruct (mirrored_object config _ _ _ Hm Ho) as [(? & ? & ? & ? & ?)|[? ?]]. }
  destruct (load_pages_healthy config _ [] (s3 w) Hf Hread) as (s' & Hload & Hb).
  rewrite concat_paginate in Hload. fold listing pending in Hload. simpl in Hload.
  destruct (recover_states_fold now pending (stop self)) as (Hmap & Hheap & Hrun).
  set (self1 := foldl (recover_state now) (stop self) pending) in *.
  exists (set_running true
            (set_stats {| total_messages := total_messages (stats self1);
                          total_success := total_success (stats self1);
                          total_failed := total_failed (stats self1);
                          in_progress := Z.of_nat (length pending) |} self1)), s'.
  split.
  - unfold start, _recover_from_s3, S3PersistenceLayer.load_all_pending_states.
    cbn [running stop set_running]. by rewrite Hload.
  - intros id [st Hst]. cbn [retry_heap set_running set_stats]. rewrite Hheap.
    destruct (Hk _ _ Hst) as [Hid _].
    assert (H1 : heap_entry (adjusted now st)
                 ∈ entries_of id (reverse (heap_entry <$> (adjusted now <$> pending)))).
    { apply list_elem_of_filter. split.
      - simpl. by rewrite adjusted_message_id.
      - apply elem_of_reverse, list_elem_of_fmap. exists (adjusted now st). split; [done|].
        apply list_elem_of_fmap. exists st. split; [done|]. apply Hiff. by rewrite Hid. }
    assert (H2 : heap_entry st ∈ entries_of id (retry_heap (stop self))).
    { apply list_elem_of_filter. split; [done|]. by apply (Hs _ _ Hst). }
    apply elem_of_length_pos in H1, H2.
    unfold entries_of in *. rewrite filter_app, length_app.
    apply (Nat.add_le_mono 1 _ 1 _); assumption.
Qed.
End scheduled.

Lemma one_waiting_scheduled : index_scheduled one_waiting.1.
Proof.
  unfold one_waiting. apply newMessage_scheduled. split; [exact index_keyed_init|].
  intros id state H. cbn [message_map set_running init] in H.
  by rewrite lookup_empty in H.
Qed.

Lemma every_indexed_message_has_its_heap_entry_witness :
  let evs := [Tick (clock_at (2001 # 2) "2024-01-01T00:16:40.500000");
              Intake (clock_at 1001 "2024-01-01T00:16:41.000000") m2;
              Tick (clock_at 1003 "2024-01-01T00:16:43.000000")] in
  index_scheduled (run example_config never_delivers one_waiting evs).1.
Proof.
  cbv zeta.
  apply (every_indexed_message_has_its_heap_entry example_config never_delivers
           one_waiting.1 one_waiting.2).
  exact one_waiting_scheduled.
Defined.

Lemma tick_leaves_nothing_due_witness :
  let w := set_clock (clock_at 1003 "2024-01-01T00:16:43.000000") one_waiting.2 in
  let r := wakeup example_config never_delivers one_waiting.1 w in
  (∀ e, e ∈ retry_heap r.1 → (1003 < e.1)%Q)
  ∧ (∀ id state, message_map r.1 !! id = Some state →
       (1003 < MessageState.next_retry_at state)%Q
       ∧ MessageState.is_due state 1003 = false).
Proof.
  cbv zeta.
  apply (tick_leaves_nothing_due example_config never_delivers one_waiting.1
           (set_clock (clock_at 1003 "2024-01-01T00:16:43.000000") one_waiting.2)).
  - exact one_waiting_scheduled.
  - reflexivity.
Defined.

Lemma stop_and_start_doubles_the_heap_entries_witness :
  let w := set_clock (clock_at 1001 "2024-01-01T00:16:41.000000") one_waiting.2 in
  ∃ self' s',
    start example_config (stop one_waiting.1) w = Some (self', set_s3 s' w)
    ∧ ∀ id, is_Some (message_map one_waiting.1 !! id) →
        (2 <= length (entries_of id (retry_heap self')))%nat.
Proof.
  cbv zeta. apply stop_and_start_doubles_the_heap_entries.
  - apply one_waiting_mirrored.
  - exact one_waiting_scheduled.
Defined.

(** ** scheduler.py: a send function that raises *)

Section raising.
Variable config : Config.
Variable send_function : SendPort.

Lemma attempt_send_without_raising self state w :
  _attempt_send (without_raising send_function) self state w
  = _attempt_send send_function self state w.
Proof.
  unfold _attempt_send, without_raising.
  by destruct (send_function (sent w) (MessageState.message state)).
Qed.

Lemma newMessage_without_raising self m w :
  newMessage config (without_raising send_function) self m w
  = newMessage config send_function self m w.
Proof. unfold newMessage. by rewrite attempt_send_without_raising. Qed.

Lemma wakeup_step_without_raising now self w :
  wakeup_step config (without_raising send_function) now self w
  = wakeup_step config send_function now self w.
Proof.
  unfold wakeup_step.
  destruct (heapq.top (retry_heap self)) as [[nt mid]|]; [|done].
  destruct (QMicromega.Qlt_bool now nt); [done|].
  destruct (message_map _ !! mid) as [st|]; [|done].
  destruct (bool_decide _); [done|].
  by rewrite attempt_send_without_raising.
Qed.

Lemma wakeup_without_raising self w :
  wakeup config (without_raising send_function) self w
  = wakeup config send_function self w.
Proof.
  unfold wakeup. destruct (negb (running self)); [done|].
  generalize (wakeup_fuel self) (time_time (clock w)). intros fuel now. revert self w.
  induction fuel as [|fuel IH]; intros self w; simpl; [done|].
  rewrite wakeup_step_without_raising.
  destruct (wakeup_step config send_function _ self w) as [[s1 w1]|]; [|done].
  apply IH.
Qed.

(** X23.  To the scheduler, a send function that raises is one that returns
    [False]: a run of intakes and ticks with the send function is, step by
    step, the run with the send function whose exceptions are turned into
    [False]; the heap, the index, the counters, the calls and the store
    come out the same. *)
Theorem raising_is_failing (st : t * World) (evs : list Event) :
  run config (without_raising send_function) st evs = run config send_function st evs.
Proof.
  revert st. induction evs as [|ev evs IH]; intros st; simpl; [done|].
  rewrite <- IH. f_equal. destruct ev as [c m|c]; simpl.
  - apply newMessage_without_raising.
  - apply wakeup_without_raising.
Qed.
End raising.

(** ** api.py: what the handlers hand to the scheduler *)

Section api.
Variable uuid4 : nat → string.

Lemma bulk_metadata_is_Some i j d :
  is_Some (SchedulerAPI.bulk_metadata i d) → is_Some (SchedulerAPI.bulk_metadata j d).
Proof.
  unfold SchedulerAPI.bulk_metadata.
  destruct (default (PyDict []) (dict_get "metadata" d)); by intros [? ?].
Qed.

Lemma send_bulk_loop_raises d count : ∀ i n messages ids r n',
  SchedulerAPI.send_bulk_loop uuid4 d count i n messages ids = Some (r, None, n') →
  r = messages.
Proof.
  induction count as [|count IH]; intros i n messages ids r n'; simpl; [done|].
  destruct (dict_get "content" d) as [c|] eqn:Ec; [|by intros [= <- _]].
  destruct (SchedulerAPI.bulk_metadata i d) as [md|] eqn:Em; [|by intros [= <- _]].
  destruct c; try done. intros H. exfalso.
  assert (Hgen : ∀ count i n messages ids r n',
    is_Some (SchedulerAPI.bulk_metadata i d) →
    SchedulerAPI.send_bulk_loop uuid4 d count i n messages ids ≠ Some (r, None, n')).
  { clear -Ec. induction count as [|count IH]; intros i n messages ids r n' Hs; simpl; [done|].
    rewrite Ec. destruct (SchedulerAPI.bulk_metadata i d) as [md|] eqn:Em;
      [|by destruct Hs].
    apply IH. apply (bulk_metadata_is_Some i). by rewrite Em. }
  eapply Hgen; [|exact H]. apply (bulk_metadata_is_Some i). by rewrite Em.
Qed.

Lemma send_bulk_loop_returns d count : ∀ i n messages ids r ids' n',
  SchedulerAPI.send_bulk_loop uuid4 d count i n messages ids = Some (r, Some ids', n') →
  n' = (n + count)%nat
  ∧ ids' = (ids ++ (uuid4 <$> seq n count))%list
  ∧ ∃ new, r = (messages ++ new)%list
      ∧ Message.message_id <$> new = uuid4 <$> seq n count
      ∧ ∀ k m, new !! k = Some m →
          dict_get "content" d = Some (PyStr (Message.content m))
          ∧ SchedulerAPI.bulk_metadata (i + k) d = Some (Message.metadata m).
Proof.
  induction count as [|count IH]; intros i n messages ids r ids' n'; simpl.
  - intros [= <- <- <-]. split; [lia|]. split; [by rewrite app_nil_r|].
    exists []. rewrite app_nil_r. done.
  - destruct (dict_get "content" d) as [[| | | |content| | |]|] eqn:Ec;
      destruct (SchedulerAPI.bulk_metadata i d) as [md|] eqn:Em; try done.
    intros H. apply IH in H as (-> & -> & new & -> & Hids & Hk).
    split; [lia|]. split; [by rewrite <- app_assoc|].
    exists ({| Message.message_id := uuid4 n; Message.content := content;
               Message.metadata := md |} :: new).
    split; [by rewrite <- app_assoc|].
    split; [cbn [seq]; rewrite !fmap_cons; by rewrite Hids|].
    intros [|k] m; simpl.
    + intros [= <-]. by rewrite Nat.add_0_r.
    + intros Hm. rewrite Nat.add_succ_r. by apply Hk.
Qed.

(** X19.  [send_bulk] takes in all or nothing.  Either it answers with the
    error and has not called [newMessage] at all, or it answers with
    success and has called [newMessage] once for each of the [count] copies
    (none for a count of zero or less): the copies carry the identifiers
    drawn one after the other, the content of the request and the metadata
    of their turn, and the answer lists their identifiers in order. *)
Theorem send_bulk_takes_in_all_or_nothing
    (request_json : option pyvalue) (n : nat) (h : handled) :
  SchedulerAPI.send_bulk uuid4 request_json n = Some h →
  (reply h = error_400 ∧ taken_in h = [])
  ∨ ∃ d count,
      request_json = Some (PyDict d)
      ∧ SchedulerAPI.range_count (default (PyInt 1) (dict_get "count" d)) = Some count
      ∧ length (taken_in h) = Z.to_nat count
      ∧ Message.message_id <$> taken_in h = uuid4 <$> seq n (Z.to_nat count)
      ∧ (∀ i m, taken_in h !! i = Some m →
           dict_get "content" d = Some (PyStr (Message.content m))
           ∧ SchedulerAPI.bulk_metadata i d = Some (Message.metadata m))
      ∧ reply h
        = jsonify (PyDict [("status", PyStr "success");
                           ("count", default (PyInt 1) (dict_get "count" d));
                           ("message_ids",
                            PyList (PyStr <$> (Message.message_id <$> taken_in h)))])
      ∧ drawn h = (n + Z.to_nat count)%nat.
Proof.
  unfold SchedulerAPI.send_bulk.
  destruct request_json as [data|]; [|intros [= <-]; by left].
  destruct data as [| | | | | | |d]; try (intros [= <-]; by left).
  destruct (SchedulerAPI.range_count _) as [z|] eqn:Ez; [|intros [= <-]; by left].
  destruct (SchedulerAPI.send_bulk_loop uuid4 d (Z.to_nat z) 0 n [] [])
    as [[[messages [ids|]] n']|] eqn:Eloop; [| |done].
  - intros [= <-]. cbn [taken_in reply drawn]. right.
    apply send_bulk_loop_returns in Eloop as (-> & -> & new & -> & Hids & Hk).
    exists d, z. rewrite !app_nil_l. rewrite Hids.
    split; [done|]. split; [done|].
    split; [by rewrite <- (length_fmap Message.message_id), Hids, length_fmap, length_seq|].
    done.
  - intros [= <-]. cbn [taken_in reply drawn]. left.
    by apply send_bulk_loop_raises in Eloop as ->.
Qed.

Lemma dict_get_merge (md : list (string * pyvalue)) : ∀ acc k,
  distinct_keys md = true →
  dict_get k (fold_left (λ acc kv, dict_set kv.1 kv.2 acc) md acc)
  = match dict_get k md with
    | Some v => Some v
    | None => dict_get k acc
    end.
Proof.
  induction md as [|[k0 v0] md IH]; intros acc k Hd; simpl in *; [done|].
  destruct (dict_get k0 md) eqn:E0; [done|].
  rewrite IH by done. rewrite dict_get_dict_set.
  destruct (String.eqb k k0) eqn:E; [|done].
  apply String.eqb_eq in E. subst k0. by rewrite E0.
Qed.

(** X20.  The metadata of the copy of turn [i] holds every item of the
    metadata of the request, and [bulk_index = i] only when the request has
    no [bulk_index] of its own: a [bulk_index] of the request overrides the
    index of the copy. *)
Theorem bulk_metadata_merges_the_request_metadata
    (i : nat) (d md : list (string * pyvalue)) :
  dict_get "metadata" d = Some (PyDict md) →
  distinct_keys md = true →
  ∃ merged,
    SchedulerAPI.bulk_metadata i d = Some (PyDict merged)
    ∧ ∀ k, dict_get k merged
           = match dict_get k md with
             | Some v => Some v
             | None => if String.eqb k "bulk_index" then Some (PyInt (Z.of_nat i))
                       else None
             end.
Proof.
  intros Hmd Hd. unfold SchedulerAPI.bulk_metadata. rewrite Hmd. cbn [default].
  eexists. split; [reflexivity|]. intros k. rewrite dict_get_merge by done.
  destruct (dict_get k md); [done|]. simpl. by destruct (String.eqb k "bulk_index").
Qed.

Lemma fold_dict_set_exact (md : list (string * pyvalue)) : ∀ acc,
  json_exact (PyDict acc) = true →
  forallb (λ kv : string * pyvalue, let '(_, x) := kv in json_exact x) md = true →
  json_exact (PyDict (fold_left (λ acc kv, dict_set kv.1 kv.2 acc) md acc)) = true.
Proof.
  induction md as [|[k v] md IH]; intros acc Hacc Hmd; simpl in *; [done|].
  apply andb_true_iff in Hmd as [Hv Hmd]. apply andb_true_iff in Hacc as [H1 H2].
  apply IH; [|done]. simpl.
  by rewrite distinct_keys_dict_set, values_exact_dict_set.
Qed.

Lemma bulk_metadata_exact i d md :
  json_exact (PyDict d) = true →
  SchedulerAPI.bulk_metadata i d = Some md → json_exact md = true.
Proof.
  intros Hd. unfold SchedulerAPI.bulk_metadata.
  destruct (dict_get "metadata" d) as [v|] eqn:E; cbn [default].
  - pose proof (dict_get_exact _ _ _ Hd E) as Hv.
    destruct v as [| | | | | | |md0]; try done. intros [= <-].
    simpl in Hv. apply andb_true_iff in Hv as [_ Hv]. by apply fold_dict_set_exact.
  - by intros [= <-].
Qed.

Lemma send_bulk_metadata request_json n h m :
  SchedulerAPI.send_bulk uuid4 request_json n = Some h → m ∈ taken_in h →
  ∃ d i, request_json = Some (PyDict d)
         ∧ SchedulerAPI.bulk_metadata i d = Some (Message.metadata m).
Proof.
  unfold SchedulerAPI.send_bulk.
  destruct request_json as [data|]; [|intros [= <-]; by intros ?%elem_of_nil].
  destruct data as [| | | | | | |d]; try (intros [= <-]; by intros ?%elem_of_nil).
  destruct (SchedulerAPI.range_count _) as [z|] eqn:Ez;
    [|intros [= <-]; by intros ?%elem_of_nil].
  destruct (SchedulerAPI.send_bulk_loop uuid4 d (Z.to_nat z) 0 n [] [])
    as [[[messages [ids|]] n']|] eqn:Eloop; [| |done].
  - intros [= <-]. cbn [taken_in].
    apply send_bulk_loop_returns in Eloop as (_ & _ & new & -> & _ & Hk).
    rewrite app_nil_l. intros [i Hi]%list_elem_of_lookup.
    exists d, i. split; [done|]. by apply (Hk i m).
  - intros [= <-]. cbn [taken_in]. apply send_bulk_loop_raises in Eloop as ->.
    by intros ?%elem_of_nil.
Qed.

(** X21.  What the two handlers hand to the scheduler can be stored and
    read back.  The request being a value that JSON denotes exactly, as
    [request.json] is, so is the metadata of every message passed to
    [newMessage], and [from_json] reads the state that [newMessage] creates
    for it back from its [to_json]. *)
Theorem api_messages_round_trip (request_json : option pyvalue) (n : nat) (h : handled) :
  SchedulerAPI.send_single uuid4 request_json n = Some h
  ∨ SchedulerAPI.send_bulk uuid4 request_json n = Some h →
  (∀ data, request_json = Some data → json_exact data = true) →
  ∀ m c, m ∈ taken_in h →
    let state := initial_state m c in
    json_exact (Message.metadata m) = true
    ∧ MessageState.from_json (MessageState.to_json state) = Decoded state.
Proof.
  intros Hh Hexact m c Hm state.
  assert (Hmd : json_exact (Message.metadata m) = true).
  { destruct Hh as [Hh|Hh].
    - unfold SchedulerAPI.send_single in Hh.
      destruct request_json as [data|]; [|injection Hh as <-; by apply elem_of_nil in Hm].
      specialize (Hexact data eq_refl).
      destruct data as [| | | | | | |d];
        try (injection Hh as <-; by apply elem_of_nil in Hm).
      destruct (dict_get "content" d) as [[| | | |content| | |]|]; try done;
        [|injection Hh as <-; by apply elem_of_nil in Hm].
      injection Hh as <-. apply list_elem_of_singleton in Hm as ->. simpl.
      destruct (dict_get "metadata" d) as [v|] eqn:E; [|done].
      by apply (dict_get_exact "metadata" d).
    - destruct (send_bulk_metadata _ _ _ _ Hh Hm) as (d & i & Hreq & Hb).
      eapply bulk_metadata_exact; [|exact Hb]. by apply Hexact. }
  split; [done|].
  subst state. rewrite from_json_to_json. unfold initial_state.
  cbn [MessageState.message]. rewrite (loads_dumps _ Hmd).
  destruct m. reflexivity.
Qed.
End api.

Lemma send_bulk_takes_in_all_or_nothing_witness :
  ∃ h,
    SchedulerAPI.send_bulk example_uuid4 (Some bulk_request) 0 = Some h
    ∧ Message.message_id <$> taken_in h = ["id-"; "id-x"; "id-xx"]
    ∧ drawn h = 3%nat.
Proof.
  eexists. split; [reflexivity|].
  destruct (send_bulk_takes_in_all_or_nothing example_uuid4 (Some bulk_request) 0 _ eq_refl)
    as [[H _]|(d & count & Hreq & Hcount & Hlen & Hids & _ & _ & Hdrawn)].
  - discriminate H.
  - injection Hreq as <-. injection Hcount as <-. split; [exact Hids|exact Hdrawn].
Defined.

Lemma bulk_metadata_merges_the_request_metadata_witness :
  let d := [("content", PyStr "hello");
            ("metadata", PyDict [("campaign", PyStr "spring"); ("bulk_index", PyInt 40)])] in
  ∃ merged,
    SchedulerAPI.bulk_metadata 2 d = Some (PyDict merged)
    ∧ ∀ k, dict_get k merged
           = match dict_get k [("campaign", PyStr "spring"); ("bulk_index", PyInt 40)] with
             | Some v => Some v
             | None => if String.eqb k "bulk_index" then Some (PyInt (Z.of_nat 2))
                       else None
             end.
Proof.
  cbv zeta. apply bulk_metadata_merges_the_request_metadata; reflexivity.
Defined.

Lemma api_messages_round_trip_witness :
  let m := Message.mk "id-" "hello" (PyDict [("lang", PyStr "en")]) in
  let state := initial_state m 1000 in
  json_exact (Message.metadata m) = true
  ∧ MessageState.from_json (MessageState.to_json state) = Decoded state.
Proof.
  cbv zeta.
  apply (api_messages_round_trip example_uuid4
           (Some (PyDict [("content", PyStr "hello");
                          ("metadata", PyDict [("lang", PyStr "en")])])) 0
           {| taken_in := [Message.mk "id-" "hello" (PyDict [("lang", PyStr "en")])];
              reply := jsonify (PyDict [("status", PyStr "success");
                                        ("message_id", PyStr "id-")]);
              drawn := 1 |}).
  - left. reflexivity.
  - intros data [= <-]. reflexivity.
  - apply list_elem_of_singleton. reflexivity.
Defined.
